(** * asdr: per-channel Signal-to-Distortion Ratio of two audio streams

    A shallow embedding of [libavfilter/af_asdr.c] and the properties of
    its accumulation kernel, its activation step, its configuration and
    its teardown.

    Conventions of the embedding.
    - A C [int] or [int64_t] is a [Z]; the model covers the executions in
      which no signed operation overflows (overflow is undefined in C).
      Integer division is C's truncating division, [Z.quot].
    - A C [double] is an IEEE 754 binary64 value and a C [float] a binary32
      value, both carried by [spec_float] and computed with the operations
      of [SpecFloat] at precision 53 / 24.  Arithmetic on two [float]
      operands is done in binary32 (FLT_EVAL_METHOD 0, as on x86-64 with
      SSE2 and on AArch64); the result is converted when it meets a
      [double].
    - Arrays are lists read and written by index. *)

From Stdlib Require Import ZArith List Bool Lia.
From Stdlib Require Import Floats.SpecFloat.
From stdpp Require Import base tactics option list list_numbers.

Local Open Scope Z_scope.

(** ** IEEE 754 arithmetic of the two sample types *)

Module IEEE.

Definition prec32 : Z := 24.
Definition emax32 : Z := 128.
Definition prec64 : Z := 53.
Definition emax64 : Z := 1024.

Definition add64 : spec_float -> spec_float -> spec_float := SFadd prec64 emax64.
Definition sub64 : spec_float -> spec_float -> spec_float := SFsub prec64 emax64.
Definition mul64 : spec_float -> spec_float -> spec_float := SFmul prec64 emax64.
Definition div64 : spec_float -> spec_float -> spec_float := SFdiv prec64 emax64.
Definition sub32 : spec_float -> spec_float -> spec_float := SFsub prec32 emax32.
Definition mul32 : spec_float -> spec_float -> spec_float := SFmul prec32 emax32.

Definition valid64 (x : spec_float) : bool := valid_binary prec64 emax64 x.
Definition valid32 (x : spec_float) : bool := valid_binary prec32 emax32 x.

  (** The literal [0.] *)
Definition zero : spec_float := S754_zero false.
Definition pinf : spec_float := S754_infinity false.

  (** An integer constant as a double, e.g. [20.] *)
Definition of_Z64 (z : Z) : spec_float := binary_normalize prec64 emax64 z 0 false.

  (** The implicit conversion [float] -> [double]; every binary32 value is a
      binary64 value, so only the representation is renormalised. *)
Definition float_to_double (x : spec_float) : spec_float :=
    match x with
    | S754_finite s m e => binary_normalize prec64 emax64 (cond_Zopp s (Zpos m)) e false
    | _ => x
    end.

Definition is_nan (x : spec_float) : bool :=
    match x with S754_nan => true | _ => false end.

  (** Sign bit clear: +0, a positive finite number or +infinity. *)
Definition nonneg (x : spec_float) : bool :=
    match x with
    | S754_zero s | S754_infinity s | S754_finite s _ _ => negb s
    | S754_nan => false
    end.

  (** Zero or a finite number: neither NaN nor an infinity. *)
Definition is_finite (x : spec_float) : bool :=
  match x with S754_zero _ | S754_finite _ _ _ => true | _ => false end.

(** [x <= y] and [x == y] as C compares doubles (false on NaN). *)
Definition leb (x y : spec_float) : bool := SFleb x y.
Definition eqb (x y : spec_float) : bool := SFeqb x y.
Definition ltb (x y : spec_float) : bool := SFltb x y.

End IEEE.

(** ** Data model *)

(** [enum AVSampleFormat] of libavutil/samplefmt.h. *)
Inductive AVSampleFormat :=
| AV_SAMPLE_FMT_NONE
| AV_SAMPLE_FMT_U8 | AV_SAMPLE_FMT_S16 | AV_SAMPLE_FMT_S32
| AV_SAMPLE_FMT_FLT | AV_SAMPLE_FMT_DBL
| AV_SAMPLE_FMT_U8P | AV_SAMPLE_FMT_S16P | AV_SAMPLE_FMT_S32P
| AV_SAMPLE_FMT_FLTP | AV_SAMPLE_FMT_DBLP
| AV_SAMPLE_FMT_S64 | AV_SAMPLE_FMT_S64P.

Definition AVSampleFormat_eqb (a b : AVSampleFormat) : bool :=
  match a, b with
  | AV_SAMPLE_FMT_NONE, AV_SAMPLE_FMT_NONE
  | AV_SAMPLE_FMT_U8, AV_SAMPLE_FMT_U8 | AV_SAMPLE_FMT_S16, AV_SAMPLE_FMT_S16
  | AV_SAMPLE_FMT_S32, AV_SAMPLE_FMT_S32 | AV_SAMPLE_FMT_FLT, AV_SAMPLE_FMT_FLT
  | AV_SAMPLE_FMT_DBL, AV_SAMPLE_FMT_DBL | AV_SAMPLE_FMT_U8P, AV_SAMPLE_FMT_U8P
  | AV_SAMPLE_FMT_S16P, AV_SAMPLE_FMT_S16P | AV_SAMPLE_FMT_S32P, AV_SAMPLE_FMT_S32P
  | AV_SAMPLE_FMT_FLTP, AV_SAMPLE_FMT_FLTP | AV_SAMPLE_FMT_DBLP, AV_SAMPLE_FMT_DBLP
  | AV_SAMPLE_FMT_S64, AV_SAMPLE_FMT_S64 | AV_SAMPLE_FMT_S64P, AV_SAMPLE_FMT_S64P => true
  | _, _ => false
  end.

(** The fields of [AVFrame] the filter reads: a planar audio block, one
    plane of samples per channel. *)
Record AVFrame := mkAVFrame {
  nb_channels : Z;                        (* ch_layout.nb_channels *)
  nb_samples : Z;
  extended_data : list (list spec_float);
  pts : Z
}.

(** The two instances of the kernel a context can point to. *)
Inductive filter_fn := fn_sdr_fltp | fn_sdr_dblp.

Record AudioSDRContext := mkAudioSDRContext {
  channels : Z;
  sum_u : list spec_float;
  sum_uv : list spec_float;
  cache : option AVFrame * option AVFrame;   (* AVFrame *cache[2] *)
  filter : option filter_fn                  (* NULL before configuration *)
}.

Definition set_sums (s : AudioSDRContext) (su suv : list spec_float) : AudioSDRContext :=
  mkAudioSDRContext (channels s) su suv (cache s) (filter s).

Definition set_cache (s : AudioSDRContext) (c : option AVFrame * option AVFrame)
    : AudioSDRContext :=
  mkAudioSDRContext (channels s) (sum_u s) (sum_uv s) c (filter s).

(** ** Arrays and loops *)

(** A C array of two elements, [a[i]] and [a[i] = x] for [i] in {0, 1}. *)
Definition get2 {A : Type} (a : A * A) (i : Z) : A :=
  if i =? 0 then fst a else snd a.

Definition set2 {A : Type} (a : A * A) (i : Z) (x : A) : A * A :=
  if i =? 0 then (x, snd a) else (fst a, x).

(** [a[i]] on an array of doubles or of samples.  Reading outside the
    array is undefined in C; the model reads NaN there. *)
Definition arr_get (a : list spec_float) (i : Z) : spec_float :=
  default S754_nan (a !! Z.to_nat i).

(** [a[i] = x]; a write outside the array (undefined in C) is dropped. *)
Definition arr_set (a : list spec_float) (i : Z) (x : spec_float) : list spec_float :=
  <[Z.to_nat i := x]> a.

(** [u->extended_data[ch]], the plane of channel [ch]. *)
Definition plane (f : AVFrame) (ch : Z) : list spec_float :=
  default [] (extended_data f !! Z.to_nat ch).

(** [for (int i = lo; i < hi; i++) body] over a state [S]. *)
Definition for_loop {S : Type} (lo hi : Z) (body : Z -> S -> S) (s : S) : S :=
  fold_left (fun acc i => body i acc) (seqZ lo (hi - lo)) s.

(** A loop [for (int i = lo; i < hi; i++)] over the indices [idx] whose
    body may [return r]: [Some r] stops the loop and the function. *)
Fixpoint for_return {S : Type} (idx : list Z) (body : Z -> S -> option Z * S) (s : S)
    : option Z * S :=
  match idx with
  | [] => (None, s)
  | i :: rest =>
      match body i s with
      | (Some r, s') => (Some r, s')
      | (None, s') => for_return rest body s'
      end
  end.

(** [FFMIN(a, b)] of libavutil: [((a) > (b) ? (b) : (a))]. *)
Definition FFMIN (a b : Z) : Z := if a >? b then b else a.

Definition is_Some_b {A : Type} (o : option A) : bool :=
  match o with Some _ => true | None => false end.

(** ** The kernel: SDR_FILTER(name, type) *)

(** What the macro parameter [type] brings: the arithmetic of [type] on
    two operands of that type, and the conversion of a [type] to double. *)
Record sample_type := mkSampleType {
  ty_mul : spec_float -> spec_float -> spec_float;
  ty_sub : spec_float -> spec_float -> spec_float;
  ty_to_double : spec_float -> spec_float
}.

Definition c_float : sample_type :=
  mkSampleType IEEE.mul32 IEEE.sub32 IEEE.float_to_double.

Definition c_double : sample_type :=
  mkSampleType IEEE.mul64 IEEE.sub64 (fun x => x).

(** [start] and [end] of the kernel: [(channels * jobnr) / nb_jobs] and
    [(channels * (jobnr+1)) / nb_jobs].  The code multiplies two [int]s:
    these are its bounds as long as the products stay within [INT_MAX],
    which the statements about the partition assume. *)
Definition job_start (channels jobnr nb_jobs : Z) : Z := (channels * jobnr) ÷ nb_jobs.
Definition job_end (channels jobnr nb_jobs : Z) : Z := (channels * (jobnr + 1)) ÷ nb_jobs.

Section Kernel.
Variable ty : sample_type.

(** One iteration of the sample loop on the pair (sum_u, sum_uv):
    [sum_u += us[n] * us[n]; sum_uv += (us[n] - vs[n]) * (us[n] - vs[n]);]
    the products are formed in [type] and converted to double by [+=]. *)
Definition sample_step (us vs : list spec_float) (n : Z)
    (acc : spec_float * spec_float) : spec_float * spec_float :=
  let sum_u := IEEE.add64 (fst acc) (ty_to_double ty (ty_mul ty (arr_get us n) (arr_get us n))) in
  let sum_uv := IEEE.add64 (snd acc)
      (ty_to_double ty (ty_mul ty (ty_sub ty (arr_get us n) (arr_get vs n))
                                  (ty_sub ty (arr_get us n) (arr_get vs n)))) in
  (sum_u, sum_uv).

(** The body of the channel loop for channel [ch], on the pair
    (s->sum_u, s->sum_uv). *)
Definition channel_step (u v : AVFrame) (ch : Z)
    (sums : list spec_float * list spec_float) : list spec_float * list spec_float :=
  let us := plane u ch in
  let vs := plane v ch in
  let '(sum_u, sum_uv) :=
    for_loop 0 (nb_samples u) (sample_step us vs) (IEEE.zero, IEEE.zero) in
  let suv := arr_set (snd sums) ch (IEEE.add64 (arr_get (snd sums) ch) sum_uv) in
  let su := arr_set (fst sums) ch (IEEE.add64 (arr_get (fst sums) ch) sum_u) in
  (su, suv).

(** [sdr_##name(ctx, arg, jobnr, nb_jobs)] on the private context.  With a
    cache slot empty the C code dereferences NULL; the model then leaves
    the context as it is. *)
Definition SDR_FILTER (s : AudioSDRContext) (jobnr nb_jobs : Z) : AudioSDRContext * Z :=
  match get2 (cache s) 0, get2 (cache s) 1 with
  | Some u, Some v =>
      let channels := nb_channels u in
      let start := job_start channels jobnr nb_jobs in
      let end_ := job_end channels jobnr nb_jobs in
      let '(su, suv) := for_loop start end_ (channel_step u v) (sum_u s, sum_uv s) in
      (set_sums s su suv, 0)
  | _, _ => (s, 0)
  end.
End Kernel.

(** [SDR_FILTER(fltp, float)] and [SDR_FILTER(dblp, double)]. *)
Definition sdr_fltp : AudioSDRContext -> Z -> Z -> AudioSDRContext * Z := SDR_FILTER c_float.
Definition sdr_dblp : AudioSDRContext -> Z -> Z -> AudioSDRContext * Z := SDR_FILTER c_double.

(** A call through [s->filter]. *)
Definition call_filter (f : filter_fn) : AudioSDRContext -> Z -> Z -> AudioSDRContext * Z :=
  match f with
  | fn_sdr_fltp => sdr_fltp
  | fn_sdr_dblp => sdr_dblp
  end.

(** ** The filter framework *)

(** [AVFilterContext], with the two input links, the output link and the
    private context.  [Link] is the framework's [AVFilterLink]: its frame
    queue and status are private to the framework and reached through the
    functions of filters.h below. *)
Record AVFilterContext (Link : Type) := mkAVFilterContext {
  priv : AudioSDRContext;
  inputs : Link * Link;
  outputs : Link;
  is_disabled : Z               (* the flag as the guard of [activate] reads it *)
}.
Arguments mkAVFilterContext {Link}.
Arguments priv {Link}.
Arguments inputs {Link}.
Arguments outputs {Link}.
Arguments is_disabled {Link}.

(** The framework functions, macros and constants the filter uses
    (filters.h, avfilter.h, internal.h, libavutil): they are not part of
    af_asdr.c and are parameters of the embedding.  A function that
    changes a link returns the link after the call. *)
Class FilterAPI (Link : Type) := {
  (** the macro of filters.h, given the output link and the inputs of the
      filter: [Some ins] when it passes the status of the output link back
      to the inputs, leaving them as [ins], and makes [activate] return 0;
      [None] when control falls through, nothing changed *)
  FF_FILTER_FORWARD_STATUS_BACK_ALL : Link -> Link * Link -> option (Link * Link);
  ff_inlink_queued_samples : Link -> Z;
  (** [ff_inlink_consume_samples(link, min, max, &frame)]: return value,
      the frame stored through the last argument, the link afterwards (the
      framework may re-evaluate [ctx->is_disabled] during the call: the
      flag of a context is the value the guard of [activate] reads) *)
  ff_inlink_consume_samples : Link -> Z -> Z -> Z * option AVFrame * Link;
  (** [ff_inlink_acknowledge_status(link, &status, &pts)]: return value,
      status, pts, the link afterwards *)
  ff_inlink_acknowledge_status : Link -> Z * Z * Z * Link;
  ff_outlink_set_status : Link -> Z -> Z -> Link;
  ff_outlink_frame_wanted : Link -> Z;
  ff_inlink_request_frame : Link -> Link;
  (** [ff_filter_frame(link, frame)]: return value and the link afterwards *)
  ff_filter_frame : Link -> option AVFrame -> Z * Link;
  ff_filter_get_nb_threads : AVFilterContext Link -> Z;
  link_nb_channels : Link -> Z;            (* link->ch_layout.nb_channels *)
  link_format : Link -> AVSampleFormat;    (* link->format *)
  FFERROR_NOT_READY : Z;
  AVERROR_ENOMEM : Z                       (* AVERROR(ENOMEM) *)
}.

(** Modelled from the spec: [ff_filter_execute], the parallel-execution
    facility of the framework, "accepting a function, an argument, and a
    job count, invoked synchronously (returns only after all shards
    complete)".  The jobs [0 .. nb_jobs-1] run once each; [sched] is the
    order in which the executor happens to complete them. *)
Definition execute_sched (sched : list Z)
    (func : AudioSDRContext -> Z -> Z -> AudioSDRContext * Z) (nb_jobs : Z)
    (s : AudioSDRContext) : AudioSDRContext :=
  fold_left (fun acc jobnr => fst (func acc jobnr nb_jobs)) sched s.

(** Modelled from the spec: [ff_filter_execute(ctx, func, NULL, NULL, nb_jobs)]
    with the jobs completed in the order of their numbers; calling through
    a NULL [func] (undefined in C) does nothing. *)
Definition ff_filter_execute (func : option filter_fn) (nb_jobs : Z)
    (s : AudioSDRContext) : AudioSDRContext :=
  match func with
  | Some f => execute_sched (seqZ 0 nb_jobs) (call_filter f) nb_jobs s
  | None => s
  end.

(** [av_frame_free(&s->cache[i])]: the frame is released, the slot is NULL. *)
Definition av_frame_free (s : AudioSDRContext) (i : Z) : AudioSDRContext :=
  set_cache s (set2 (cache s) i None).

(** Modelled from the spec: [av_calloc(nmemb, size)] for an array of
    doubles, "allocating the per-channel accumulator arrays (fails with an
    out-of-memory error if allocation fails)".  [ok] tells whether the
    allocator finds the memory; the array comes back zeroed. *)
Definition av_calloc (ok : bool) (nmemb : Z) : option (list spec_float) :=
  if ok then Some (replicate (Z.to_nat nmemb) IEEE.zero) else None.

(** A pointer to an array of doubles stored in the context: NULL is kept
    as the empty array. *)
Definition store_ptr (p : option (list spec_float)) : list spec_float := default [] p.

(** ** [activate], [config_output] and [uninit] *)

Section Activate.
Context {Link : Type} {API : FilterAPI Link}.

Definition set_priv (ctx : AVFilterContext Link) (s : AudioSDRContext) :=
  mkAVFilterContext s (inputs ctx) (outputs ctx) (is_disabled ctx).

Definition set_input (ctx : AVFilterContext Link) (i : Z) (l : Link) :=
  mkAVFilterContext (priv ctx) (set2 (inputs ctx) i l) (outputs ctx) (is_disabled ctx).

Definition set_output (ctx : AVFilterContext Link) (l : Link) :=
  mkAVFilterContext (priv ctx) (inputs ctx) l (is_disabled ctx).

(** Body of the loop of lines 83-90. *)
Definition consume_body (available : Z) (i : Z) (ctx : AVFilterContext Link)
    : option Z * AVFilterContext Link :=
  let '(ret, frame, l) :=
    ff_inlink_consume_samples (get2 (inputs ctx) i) available available in
  let ctx := set_input ctx i l in
  let ctx := set_priv ctx (set_cache (priv ctx) (set2 (cache (priv ctx)) i frame)) in
  if ret <? 0 then
    let ctx := set_priv ctx (av_frame_free (priv ctx) 0) in
    let ctx := set_priv ctx (av_frame_free (priv ctx) 1) in
    (Some ret, ctx)
  else (None, ctx).

(** Body of the loop of lines 103-108. *)
Definition status_body (i : Z) (ctx : AVFilterContext Link)
    : option Z * AVFilterContext Link :=
  let '(ret, status, pts, l) := ff_inlink_acknowledge_status (get2 (inputs ctx) i) in
  let ctx := set_input ctx i l in
  if ret =? 0 then (None, ctx)
  else (Some 0, set_output ctx (ff_outlink_set_status (outputs ctx) status pts)).

(** Body of the loop of lines 111-115. *)
Definition request_body (i : Z) (ctx : AVFilterContext Link) : AVFilterContext Link :=
  if ff_inlink_queued_samples (get2 (inputs ctx) i) >? 0 then ctx
  else set_input ctx i (ff_inlink_request_frame (get2 (inputs ctx) i)).

(** [activate(ctx)]: the value returned and the context afterwards. *)
Definition activate (ctx : AVFilterContext Link) : Z * AVFilterContext Link :=
  match FF_FILTER_FORWARD_STATUS_BACK_ALL (outputs ctx) (inputs ctx) with
  | Some ins => (0, mkAVFilterContext (priv ctx) ins (outputs ctx) (is_disabled ctx))
  | None =>
    let available := FFMIN (ff_inlink_queued_samples (get2 (inputs ctx) 0))
                           (ff_inlink_queued_samples (get2 (inputs ctx) 1)) in
    if available >? 0 then
      match for_return (seqZ 0 2) (consume_body available) ctx with
      | (Some ret, ctx) => (ret, ctx)
      | (None, ctx) =>
        let ctx :=
          if is_disabled ctx =? 0 then
            set_priv ctx
              (ff_filter_execute (filter (priv ctx))
                 (FFMIN (link_nb_channels (outputs ctx)) (ff_filter_get_nb_threads ctx))
                 (priv ctx))
          else ctx in
        let ctx := set_priv ctx (av_frame_free (priv ctx) 1) in
        let out := get2 (cache (priv ctx)) 0 in
        let ctx := set_priv ctx (set_cache (priv ctx) (set2 (cache (priv ctx)) 0 None)) in
        let '(ret, l) := ff_filter_frame (outputs ctx) out in
        (ret, set_output ctx l)
      end
    else
      match for_return (seqZ 0 2) status_body ctx with
      | (Some ret, ctx) => (ret, ctx)
      | (None, ctx) =>
        if ff_outlink_frame_wanted (outputs ctx) =? 0 then (FFERROR_NOT_READY, ctx)
        else (0, for_loop 0 2 request_body ctx)
      end
  end.

(** [config_output(outlink)]; [ok_u] and [ok_uv] are the fates of the two
    allocations. *)
Definition config_output (ok_u ok_uv : bool) (ctx : AVFilterContext Link)
    : Z * AVFilterContext Link :=
  let outlink := outputs ctx in
  let inlink := get2 (inputs ctx) 0 in
  let s := priv ctx in
  let s := mkAudioSDRContext (link_nb_channels inlink) (sum_u s) (sum_uv s) (cache s)
             (filter s) in
  let s := mkAudioSDRContext (channels s) (sum_u s) (sum_uv s) (cache s)
             (Some (if AVSampleFormat_eqb (link_format inlink) AV_SAMPLE_FMT_FLTP
                    then fn_sdr_fltp else fn_sdr_dblp)) in
  let p_u := av_calloc ok_u (link_nb_channels outlink) in
  let s := set_sums s (store_ptr p_u) (sum_uv s) in
  let p_uv := av_calloc ok_uv (link_nb_channels outlink) in
  let s := set_sums s (sum_u s) (store_ptr p_uv) in
  if negb (is_Some_b p_u) || negb (is_Some_b p_uv) then (AVERROR_ENOMEM, set_priv ctx s)
  else (0, set_priv ctx s).
End Activate.

(** [FILTER_SAMPLEFMTS(AV_SAMPLE_FMT_FLTP, AV_SAMPLE_FMT_DBLP)] of [ff_af_asdr]:
    the sample formats the filter offers to format negotiation. *)
Definition ff_af_asdr_sample_fmts : list AVSampleFormat :=
  [AV_SAMPLE_FMT_FLTP; AV_SAMPLE_FMT_DBLP].

Section Uninit.
(** [log10] of the C library. *)
Variable log10 : spec_float -> spec_float.

(** The value printed for channel [ch]:
    [20. * log10(s->sum_u[ch] / s->sum_uv[ch])]. *)
Definition sdr_db (s : AudioSDRContext) (ch : Z) : spec_float :=
  IEEE.mul64 (IEEE.of_Z64 20)
    (log10 (IEEE.div64 (arr_get (sum_u s) ch) (arr_get (sum_uv s) ch))).

(** [uninit(ctx)] on the private context: the lines logged, as pairs of a
    channel number and the value given to "%g", and the context after the
    frames and the arrays are released. *)
Definition uninit (s : AudioSDRContext) : list (Z * spec_float) * AudioSDRContext :=
  let logged := for_loop 0 (channels s) (fun ch out => out ++ [(ch, sdr_db s ch)]) [] in
  let s := av_frame_free s 0 in
  let s := av_frame_free s 1 in
  let s := set_sums s [] (sum_uv s) in
  let s := set_sums s (sum_u s) [] in
  (logged, s).
End Uninit.

(** ** The sums of the specification *)

(** "accumulate [u*u] into a local [sum_energy]": one sample more. *)
Definition energy_step (ty : sample_type) (acc x : spec_float) : spec_float :=
  IEEE.add64 acc (ty_to_double ty (ty_mul ty x x)).

(** "and [(u-v)*(u-v)] into a local [sum_distortion]": one pair more. *)
Definition distortion_step (ty : sample_type) (acc : spec_float)
    (xy : spec_float * spec_float) : spec_float :=
  IEEE.add64 acc (ty_to_double ty (ty_mul ty (ty_sub ty (fst xy) (snd xy))
                                             (ty_sub ty (fst xy) (snd xy)))).

(** The two sums over the samples of one channel of a block, in the
    arithmetic of the sample type. *)
Definition block_energy (ty : sample_type) (us : list spec_float) : spec_float :=
  fold_left (energy_step ty) us IEEE.zero.

Definition block_distortion (ty : sample_type) (us vs : list spec_float) : spec_float :=
  fold_left (distortion_step ty) (zip us vs) IEEE.zero.

(** The energy sum as the claim on the 32-bit kernel words it: every sample
    converted to double first, then squared in double precision. *)
Definition promoted_energy (us : list spec_float) : spec_float :=
  fold_left (fun acc x => IEEE.add64 acc
               (IEEE.mul64 (IEEE.float_to_double x) (IEEE.float_to_double x)))
            us IEEE.zero.

(** The distortion sum in the same wording: both samples converted to
    double, then differenced and squared in double precision. *)
Definition promoted_distortion (us vs : list spec_float) : spec_float :=
  fold_left (fun acc xy => IEEE.add64 acc
               (IEEE.mul64
                  (IEEE.sub64 (IEEE.float_to_double (fst xy)) (IEEE.float_to_double (snd xy)))
                  (IEEE.sub64 (IEEE.float_to_double (fst xy)) (IEEE.float_to_double (snd xy)))))
            (zip us vs) IEEE.zero.

(** ** Names for the parts of the kernel and of the step *)

(** The channels of job [jobnr] out of [nb_jobs]: [start, end). *)
Definition job_range (channels nb_jobs jobnr : Z) : list Z :=
  seqZ (job_start channels jobnr nb_jobs)
       (job_end channels jobnr nb_jobs - job_start channels jobnr nb_jobs).

(** The channels visited by the jobs of [sched], in that order. *)
Definition sched_channels (channels nb_jobs : Z) (sched : list Z) : list Z :=
  sched ≫= job_range channels nb_jobs.

(** [INT_MAX] of a 32-bit [int]. *)
Definition INT_MAX : Z := 2147483647.

Section KernelParts.
Variable ty : sample_type.

(** The two local sums of channel [ch], as the sample loop leaves them. *)
Definition local_sums (u v : AVFrame) (ch : Z) : spec_float * spec_float :=
  for_loop 0 (nb_samples u) (sample_step ty (plane u ch) (plane v ch)) (IEEE.zero, IEEE.zero).

(** The channel loop over the channels [chs]. *)
Definition channel_loop (u v : AVFrame) (chs : list Z)
    (sums : list spec_float * list spec_float) : list spec_float * list spec_float :=
  fold_left (fun acc ch => channel_step ty u v ch acc) chs sums.
End KernelParts.

(** The sample type of each instance of the kernel. *)
Definition ty_of (f : filter_fn) : sample_type :=
  match f with
  | fn_sdr_fltp => c_float
  | fn_sdr_dblp => c_double
  end.

Section StepParts.
Context {Link : Type} {API : FilterAPI Link}.

(** [available], as [activate] computes it. *)
Definition available (ctx : AVFilterContext Link) : Z :=
  FFMIN (ff_inlink_queued_samples (fst (inputs ctx)))
        (ff_inlink_queued_samples (snd (inputs ctx))).

(** The status check at the head of [activate] lets the step go on. *)
Definition goes_on (ctx : AVFilterContext Link) : Prop :=
  FF_FILTER_FORWARD_STATUS_BACK_ALL (outputs ctx) (inputs ctx) = None.

(** The private context once both blocks are withdrawn and the kernel has
    run (or not, when the filter is disabled). *)
Definition measured (ctx : AVFilterContext Link) (f0 f1 : option AVFrame) (l0 l1 : Link)
    : AudioSDRContext :=
  let s1 := set_cache (priv ctx) (f0, f1) in
  if is_disabled ctx =? 0 then
    ff_filter_execute (filter s1)
      (FFMIN (link_nb_channels (outputs ctx))
             (ff_filter_get_nb_threads
                (mkAVFilterContext s1 (l0, l1) (outputs ctx) (is_disabled ctx))))
      s1
  else s1.

(** [ff_inlink_request_frame] on a link with nothing buffered. *)
Definition request_if_empty (l : Link) : Link :=
  if ff_inlink_queued_samples l >? 0 then l else ff_inlink_request_frame l.

(** [n] steps in a row. *)
Fixpoint steps (n : nat) (ctx : AVFilterContext Link) : AVFilterContext Link :=
  match n with
  | O => ctx
  | S n' => steps n' (snd (activate ctx))
  end.
End StepParts.

(** ** Well-formed totals and blocks *)

(** Every plane of the frame holds [nb_samples] samples, and there are
    [nb_channels] planes. *)
Definition frame_shape (f : AVFrame) : Prop :=
  Z.of_nat (length (extended_data f)) = nb_channels f /\
  Forall (fun p => Z.of_nat (length p) = nb_samples f) (extended_data f).

(** A sample of the format an instance of the kernel reads: a binary32
    value for [sdr_fltp], a binary64 value for [sdr_dblp]. *)
Definition sample_valid (f : filter_fn) (x : spec_float) : bool :=
  match f with
  | fn_sdr_fltp => IEEE.valid32 x
  | fn_sdr_dblp => IEEE.valid64 x
  end.

(** A block the framework can deliver to the kernel [f]: a number of
    channels that is not negative and samples of the format of [f]. *)
Definition block_ok (f : filter_fn) (fr : AVFrame) : Prop :=
  0 <= nb_channels fr /\
  Forall (Forall (fun x => sample_valid f x = true)) (extended_data fr).

(** An aligned pair of blocks of finite samples: the two blocks have the
    shape they announce, the same number of channels and of samples, and
    no sample is NaN or infinite. *)
Definition finite_pair (u v : AVFrame) : Prop :=
  frame_shape u /\ frame_shape v /\
  nb_channels v = nb_channels u /\ nb_samples v = nb_samples u /\
  Forall (Forall (fun x => IEEE.is_finite x = true)) (extended_data u) /\
  Forall (Forall (fun x => IEEE.is_finite x = true)) (extended_data v).

(** A total as accumulation leaves it: a binary64 value, NaN or with its
    sign bit clear. *)
Definition total_ok (x : spec_float) : Prop :=
  IEEE.valid64 x = true /\ IEEE.is_nan x || IEEE.nonneg x = true.

Definition acc_ok (s : AudioSDRContext) : Prop :=
  Forall total_ok (sum_u s) /\ Forall total_ok (sum_uv s).

(** No total of [new] is NaN where the total of [old] was not. *)
Definition totals_stay (old new : list spec_float) : Prop :=
  forall (i : nat) (x : spec_float),
    old !! i = Some x -> IEEE.is_nan x = false ->
    exists y, new !! i = Some y /\ IEEE.is_nan y = false.

(** [new] continues [old]: slot by slot, the new total is NaN or the old
    one was not NaN and is not above it. *)
Definition totals_grow (old new : list spec_float) : Prop :=
  forall (i : nat) (x : spec_float),
    old !! i = Some x ->
    exists y, new !! i = Some y /\
      (IEEE.is_nan y = false -> IEEE.is_nan x = false /\ IEEE.leb x y = true).

Section Deliveries.
Context {Link : Type} {API : FilterAPI Link}.

(** The blocks the two inputs deliver to the step are blocks for the kernel
    the context points to. *)
Definition delivers_ok (ctx : AVFilterContext Link) : Prop :=
  forall (f : filter_fn) (r0 r1 : Z) (u v : AVFrame) (l0 l1 : Link),
    filter (priv ctx) = Some f ->
    ff_inlink_consume_samples (fst (inputs ctx)) (available ctx) (available ctx)
      = (r0, Some u, l0) ->
    ff_inlink_consume_samples (snd (inputs ctx)) (available ctx) (available ctx)
      = (r1, Some v, l1) ->
    block_ok f u /\ block_ok f v.

(** The two inputs deliver aligned blocks of finite samples. *)
Definition delivers_finite (ctx : AVFilterContext Link) : Prop :=
  forall (r0 r1 : Z) (u v : AVFrame) (l0 l1 : Link),
    ff_inlink_consume_samples (fst (inputs ctx)) (available ctx) (available ctx)
      = (r0, Some u, l0) ->
    ff_inlink_consume_samples (snd (inputs ctx)) (available ctx) (available ctx)
      = (r1, Some v, l1) ->
    finite_pair u v.
End Deliveries.

(** ** A frame queue for the links *)

(** Modelled from the spec: the frame queue of a link, "a frame-queue
    abstraction per input exposing: query buffered sample count;
    exact-length withdrawal of N samples as a block (fails if N exceeds
    availability); end-of-stream query returning a status code and an
    associated terminal timestamp; a request-more-data operation", and
    "a downstream sink accepting one forwarded block at a time and a
    downstream-ready query". *)
Record QueueLink := mkQueueLink {
  q_format : AVSampleFormat;
  q_nb_channels : Z;
  q_planes : list (list spec_float);     (* buffered samples, one plane per channel *)
  q_pts : Z;                             (* timestamp of the first buffered sample *)
  q_fault : option Z;                    (* an upstream error that fails the next withdrawal *)
  q_status_in : option (Z * Z);          (* terminal status and its timestamp, to acknowledge *)
  q_status_out : option (Z * Z);         (* status passed on to this link, with its timestamp *)
  q_closed : Z;                          (* status set by the consumer of the link, 0 if none *)
  q_frame_wanted : Z;
  q_requests : Z;                        (* requests for more data made on the link *)
  q_sent : list AVFrame                  (* blocks forwarded into the link *)
}.

(** Modelled from the spec: "query buffered sample count". *)
Definition q_queued (l : QueueLink) : Z :=
  match q_planes l with
  | [] => 0
  | p :: _ => Z.of_nat (length p)
  end.

Definition q_with_planes (l : QueueLink) (planes : list (list spec_float)) (pts : Z) :=
  mkQueueLink (q_format l) (q_nb_channels l) planes pts (q_fault l) (q_status_in l)
    (q_status_out l) (q_closed l) (q_frame_wanted l) (q_requests l) (q_sent l).

(** [AVERROR(EINVAL)]. *)
Definition q_EINVAL : Z := -22.

(** Modelled from the spec: "exact-length withdrawal of N samples as a
    block (fails if N exceeds availability)"; it fails as well with the
    error an upstream fault has left on the link.  A block of at least
    [min] and at most [max] samples is taken from the head of every plane,
    and 1 is returned with it. *)
Definition q_consume (l : QueueLink) (min max : Z) : Z * option AVFrame * QueueLink :=
  match q_fault l with
  | Some err => (err, None, l)
  | None =>
      if q_queued l <? min then (q_EINVAL, None, l)
      else
        let n := Z.to_nat (FFMIN max (q_queued l)) in
        (1,
         Some (mkAVFrame (q_nb_channels l) (Z.of_nat n) (map (take n) (q_planes l)) (q_pts l)),
         q_with_planes l (map (drop n) (q_planes l)) (q_pts l + Z.of_nat n))
  end.

(** Modelled from the spec: "end-of-stream query returning a status code
    and an associated terminal timestamp"; a status is acknowledged, once,
    when nothing is buffered on the link any more. *)
Definition q_acknowledge (l : QueueLink) : Z * Z * Z * QueueLink :=
  if q_queued l >? 0 then (0, 0, q_pts l, l)
  else
    match q_status_in l with
    | Some (status, pts) =>
        (1, status, pts,
         mkQueueLink (q_format l) (q_nb_channels l) (q_planes l) pts (q_fault l) None
           (Some (status, pts)) (q_closed l) (q_frame_wanted l) (q_requests l) (q_sent l))
    | None => (0, 0, q_pts l, l)
    end.

(** Modelled from the spec: "propagate an equivalent end-of-stream signal
    downstream": the status and its timestamp are recorded on the link. *)
Definition q_set_status (l : QueueLink) (status pts : Z) : QueueLink :=
  mkQueueLink (q_format l) (q_nb_channels l) (q_planes l) (q_pts l) (q_fault l) (q_status_in l)
    (Some (status, pts)) (q_closed l) 0 (q_requests l) (q_sent l).

(** Modelled from the spec: "a request-more-data operation". *)
Definition q_request (l : QueueLink) : QueueLink :=
  mkQueueLink (q_format l) (q_nb_channels l) (q_planes l) (q_pts l) (q_fault l) (q_status_in l)
    (q_status_out l) (q_closed l) (q_frame_wanted l) (q_requests l + 1) (q_sent l).

(** Modelled from the spec: "a downstream sink accepting one forwarded
    block at a time": the block is appended to those sent into the link. *)
Definition q_filter_frame (l : QueueLink) (f : option AVFrame) : Z * QueueLink :=
  match f with
  | Some fr =>
      (0, mkQueueLink (q_format l) (q_nb_channels l) (q_planes l) (q_pts l) (q_fault l)
            (q_status_in l) (q_status_out l) (q_closed l) 0 (q_requests l) (q_sent l ++ [fr]))
  | None => (q_EINVAL, l)
  end.

(** The consumer of the link asks for a frame. *)
Definition q_want (l : QueueLink) : QueueLink :=
  mkQueueLink (q_format l) (q_nb_channels l) (q_planes l) (q_pts l) (q_fault l) (q_status_in l)
    (q_status_out l) (q_closed l) 1 (q_requests l) (q_sent l).

(** The consumer of the link closes it with [status]. *)
Definition q_close (status : Z) (l : QueueLink) : QueueLink :=
  mkQueueLink (q_format l) (q_nb_channels l) (q_planes l) (q_pts l) (q_fault l) (q_status_in l)
    (q_status_out l) status (q_frame_wanted l) (q_requests l) (q_sent l).

(** Modelled from the spec: the status check at the head of the step, which
    the spec leaves to the framework: when the consumer has closed the
    output link, its status is passed back to both inputs. *)
Definition q_forward_status_back (out : QueueLink) (ins : QueueLink * QueueLink)
    : option (QueueLink * QueueLink) :=
  if q_closed out =? 0 then None
  else Some (q_close (q_closed out) (fst ins), q_close (q_closed out) (snd ins)).

(** Modelled from the spec: the framework over frame queues, run with
    [threads] worker threads. *)
Definition queue_api (threads : Z) : FilterAPI QueueLink :=
  {| FF_FILTER_FORWARD_STATUS_BACK_ALL := q_forward_status_back;
     ff_inlink_queued_samples := q_queued;
     ff_inlink_consume_samples := q_consume;
     ff_inlink_acknowledge_status := q_acknowledge;
     ff_outlink_set_status := q_set_status;
     ff_outlink_frame_wanted := q_frame_wanted;
     ff_inlink_request_frame := q_request;
     ff_filter_frame := q_filter_frame;
     ff_filter_get_nb_threads := fun _ => threads;
     link_nb_channels := q_nb_channels;
     link_format := q_format;
     FFERROR_NOT_READY := -1497649742;
     AVERROR_ENOMEM := -12 |}.

(** ** Sample data *)

Module Sample.

(** A link of [ch] channels in format [fmt] with the given buffered planes. *)
Definition link (fmt : AVSampleFormat) (ch : Z) (planes : list (list spec_float)) : QueueLink :=
  mkQueueLink fmt ch planes 0 None None None 0 1 0 [].

Definition empty_priv : AudioSDRContext :=
  mkAudioSDRContext 0 [] [] (None, None) None.

(** The scenario of the specification: one channel of doubles,
    reference 1, 2, 3, 4 and test 1, 2, 3, 5. *)
Definition reference : list spec_float := map IEEE.of_Z64 [1; 2; 3; 4].
Definition test : list spec_float := map IEEE.of_Z64 [1; 2; 3; 5].

Definition ref_frame : AVFrame := mkAVFrame 1 4 [reference] 0.
Definition test_frame : AVFrame := mkAVFrame 1 4 [test] 0.

Definition mono_priv : AudioSDRContext :=
  mkAudioSDRContext 1 [IEEE.zero] [IEEE.zero] (Some ref_frame, Some test_frame)
    (Some fn_sdr_dblp).

Definition fresh (fmt : AVSampleFormat) (ch : Z) (p0 p1 : list (list spec_float))
    : AVFilterContext QueueLink :=
  mkAVFilterContext empty_priv (link fmt ch p0, link fmt ch p1) (link fmt ch []) 0.

(** The same scenario through the filter: configured, both blocks queued. *)
Definition mono_ctx : AVFilterContext QueueLink :=
  snd (config_output (API := queue_api 4) true true
         (fresh AV_SAMPLE_FMT_DBLP 1 [reference] [test])).

(** Two channels of doubles, three samples each. *)
Definition stereo_ref : list (list spec_float) :=
  [map IEEE.of_Z64 [1; -2; 3]; map IEEE.of_Z64 [4; 0; -1]].
Definition stereo_test : list (list spec_float) :=
  [map IEEE.of_Z64 [1; 2; 3]; map IEEE.of_Z64 [0; 0; 7]].

Definition stereo_u : AVFrame := mkAVFrame 2 3 stereo_ref 0.
Definition stereo_v : AVFrame := mkAVFrame 2 3 stereo_test 0.

Definition stereo_priv : AudioSDRContext :=
  mkAudioSDRContext 2 [IEEE.zero; IEEE.zero] [IEEE.zero; IEEE.zero]
    (Some stereo_u, Some stereo_v) (Some fn_sdr_dblp).


(** The same step with the filter disabled on the timeline. *)
Definition disabled_ctx : AVFilterContext QueueLink :=
  mkAVFilterContext (priv mono_ctx) (inputs mono_ctx) (outputs mono_ctx) 1.

(** The test input reports an upstream error (EIO) when the block is withdrawn. *)
Definition with_fault (l : QueueLink) (err : Z) : QueueLink :=
  mkQueueLink (q_format l) (q_nb_channels l) (q_planes l) (q_pts l) (Some err)
    (q_status_in l) (q_status_out l) (q_closed l) (q_frame_wanted l) (q_requests l) (q_sent l).

Definition faulty_ctx : AVFilterContext QueueLink :=
  mkAVFilterContext (priv mono_ctx)
    (fst (inputs mono_ctx), with_fault (snd (inputs mono_ctx)) (-5))
    (outputs mono_ctx) 0.

(** [AVERROR_EOF]. *)
Definition AVERROR_EOF : Z := -541478725.

(** The link has delivered all its samples and ended at timestamp [pts]. *)
Definition ended (l : QueueLink) (pts : Z) : QueueLink :=
  mkQueueLink (q_format l) (q_nb_channels l) [[]] pts (q_fault l)
    (Some (AVERROR_EOF, pts)) (q_status_out l) (q_closed l) (q_frame_wanted l)
    (q_requests l) (q_sent l).

(** Nothing buffered on the reference input, which has reached end of stream
    at timestamp 4; the test input still holds one sample. *)
Definition eof_ctx : AVFilterContext QueueLink :=
  mkAVFilterContext (priv mono_ctx)
    (ended (fst (inputs mono_ctx)) 4, link AV_SAMPLE_FMT_DBLP 1 [[IEEE.of_Z64 7]])
    (outputs mono_ctx) 0.

(** The reference stream shorter than the test stream: three samples
    against five. *)
Definition uneven_ctx : AVFilterContext QueueLink :=
  snd (config_output (API := queue_api 4) true true
         (fresh AV_SAMPLE_FMT_DBLP 1 [map IEEE.of_Z64 [1; 2; 3]]
                [map IEEE.of_Z64 [1; 2; 3; 4; 5]])).

(** Nothing buffered on the reference input and no status yet. *)
Definition hungry_ctx : AVFilterContext QueueLink :=
  mkAVFilterContext (priv mono_ctx)
    (link AV_SAMPLE_FMT_DBLP 1 [[]], link AV_SAMPLE_FMT_DBLP 1 [[IEEE.of_Z64 7]])
    (outputs mono_ctx) 0.

(** Streams of signed 16-bit samples, a format the filter does not declare,
    brought to configuration. *)
Definition s16_request : AVFilterContext QueueLink :=
  fresh AV_SAMPLE_FMT_S16 1 [] [].

(** One channel of floats: 1 + 2^-23 against silence. *)
Definition next_after_one : spec_float := S754_finite false 8388609 (-23).

Definition flt_priv : AudioSDRContext :=
  mkAudioSDRContext 1 [IEEE.zero] [IEEE.zero]
    (Some (mkAVFrame 1 1 [[next_after_one]] 0), Some (mkAVFrame 1 1 [[S754_zero false]] 0))
    (Some fn_sdr_fltp).

(** A block whose reference sample is NaN, and a block where both samples
    are +infinity. *)
Definition nan_ctx : AVFilterContext QueueLink :=
  snd (config_output (API := queue_api 4) true true
         (fresh AV_SAMPLE_FMT_DBLP 1 [[S754_nan]] [[IEEE.zero]])).

Definition inf_ctx : AVFilterContext QueueLink :=
  snd (config_output (API := queue_api 4) true true
         (fresh AV_SAMPLE_FMT_DBLP 1 [[IEEE.pinf]] [[IEEE.pinf]])).

(** Totals of two channels: a test channel identical to its reference
    (energy 30, no distortion) and a channel silent on both streams. *)
Definition identical_priv : AudioSDRContext :=
  mkAudioSDRContext 2 [IEEE.of_Z64 30; IEEE.zero] [IEEE.zero; IEEE.zero] (None, None)
    (Some fn_sdr_dblp).

(** [log10] where Annex F of the C standard fixes its value: -infinity at
    zero, +0 at 1, +infinity at +infinity, NaN on negative numbers and on
    NaN.  Other arguments, which no statement here needs, are sent to NaN. *)
Definition log10_special (x : spec_float) : spec_float :=
  match x with
  | S754_zero _ => S754_infinity true
  | S754_infinity false => S754_infinity false
  | S754_finite false 4503599627370496 (-52) => S754_zero false
  | _ => S754_nan
  end.

End Sample.


(** ** The products of the partition as the machine has them *)

(** An [int] result as a machine with 32-bit two's complement integers
    leaves it.  (In C the overflow of a signed product is undefined; the
    partition is as [job_start] and [job_end] give it as long as the
    products stay within [INT_MAX].) *)
Definition int_wrap (z : Z) : Z := (z + 2147483648) mod 4294967296 - 2147483648.

(** [start] and [end] of lines 45-46 with the products computed in [int]. *)
Definition job_start_int (channels jobnr nb_jobs : Z) : Z :=
  int_wrap (channels * jobnr) ÷ nb_jobs.
Definition job_end_int (channels jobnr nb_jobs : Z) : Z :=
  int_wrap (channels * int_wrap (jobnr + 1)) ÷ nb_jobs.

(** ** The step with the executor left open *)

Section ActivateExec.
Context {Link : Type} {API : FilterAPI Link}.

(** [activate(ctx)] with the executor of the framework, which is not part
    of af_asdr.c, as the parameter [exec] in the place of
    [ff_filter_execute]: it shows what the step hands to the executor.
    With [ff_filter_execute] for [exec] it is [activate]. *)
Definition activate_exec
    (exec : option filter_fn -> Z -> AudioSDRContext -> AudioSDRContext)
    (ctx : AVFilterContext Link) : Z * AVFilterContext Link :=
  match FF_FILTER_FORWARD_STATUS_BACK_ALL (outputs ctx) (inputs ctx) with
  | Some ins => (0, mkAVFilterContext (priv ctx) ins (outputs ctx) (is_disabled ctx))
  | None =>
    let available := FFMIN (ff_inlink_queued_samples (get2 (inputs ctx) 0))
                           (ff_inlink_queued_samples (get2 (inputs ctx) 1)) in
    if available >? 0 then
      match for_return (seqZ 0 2) (consume_body available) ctx with
      | (Some ret, ctx) => (ret, ctx)
      | (None, ctx) =>
        let ctx :=
          if is_disabled ctx =? 0 then
            set_priv ctx
              (exec (filter (priv ctx))
                 (FFMIN (link_nb_channels (outputs ctx)) (ff_filter_get_nb_threads ctx))
                 (priv ctx))
          else ctx in
        let ctx := set_priv ctx (av_frame_free (priv ctx) 1) in
        let out := get2 (cache (priv ctx)) 0 in
        let ctx := set_priv ctx (set_cache (priv ctx) (set2 (cache (priv ctx)) 0 None)) in
        let '(ret, l) := ff_filter_frame (outputs ctx) out in
        (ret, set_output ctx l)
      end
    else
      match for_return (seqZ 0 2) status_body ctx with
      | (Some ret, ctx) => (ret, ctx)
      | (None, ctx) =>
        if ff_outlink_frame_wanted (outputs ctx) =? 0 then (FFERROR_NOT_READY, ctx)
        else (0, for_loop 0 2 request_body ctx)
      end
  end.
End ActivateExec.

(** ** Configuration, from the negotiation of the format on *)

(** How a configuration ends: refused for its sample format, or through
    [config_output] with the value it returned. *)
Inductive config_result :=
| Unsupported_format
| Configured (ret : Z).

(** Modelled from the spec: the format negotiation of the framework, which
    is not part of af_asdr.c and works from the list the filter declares:
    "a negotiated stream configuration supplying channel count and one of
    exactly two accepted sample encodings (32-bit or 64-bit floating point
    planar); configuration must fail with an unsupported-format error for
    anything else". *)
Definition negotiated (fmt : AVSampleFormat) : bool :=
  existsb (AVSampleFormat_eqb fmt) ff_af_asdr_sample_fmts.

Section Configure.
Context {Link : Type} {API : FilterAPI Link}.

(** Modelled from the spec: configuration as the framework runs it: the
    format of the stream is checked against the declared list, and only a
    format of the list reaches [config_output]. *)
Definition configure (ok_u ok_uv : bool) (ctx : AVFilterContext Link)
    : config_result * AVFilterContext Link :=
  if negotiated (link_format (get2 (inputs ctx) 0)) then
    (Configured (fst (config_output ok_u ok_uv ctx)), snd (config_output ok_u ok_uv ctx))
  else (Unsupported_format, ctx).
End Configure.

(** ** Steps under a timeline *)

Section Timeline.
Context {Link : Type} {API : FilterAPI Link}.

(** [ctx->is_disabled] as the framework sets it. *)
Definition set_disabled (ctx : AVFilterContext Link) (d : Z) : AVFilterContext Link :=
  mkAVFilterContext (priv ctx) (inputs ctx) (outputs ctx) d.

(** Steps in a row under a timeline: the framework evaluates the timeline
    while the blocks are withdrawn, and [flags] holds, step by step, the
    value of [ctx->is_disabled] that the guard of line 92 reads. *)
Fixpoint timeline_steps (flags : list Z) (ctx : AVFilterContext Link) : AVFilterContext Link :=
  match flags with
  | [] => ctx
  | d :: rest => timeline_steps rest (snd (activate (set_disabled ctx d)))
  end.
End Timeline.

(** ** Shapes of input used by the further properties *)

(** A sample that is zero, of either sign. *)
Definition sample_is_zero (x : spec_float) : bool :=
  match x with S754_zero _ => true | _ => false end.

(** A block of finite samples with the shape it announces. *)
Definition finite_block (u : AVFrame) : Prop :=
  frame_shape u /\ Forall (Forall (fun x => IEEE.is_finite x = true)) (extended_data u).

(** A block of silence with the shape it announces. *)
Definition silent_block (u : AVFrame) : Prop :=
  frame_shape u /\ Forall (Forall (fun x => sample_is_zero x = true)) (extended_data u).

Section MoreDeliveries.
Context {Link : Type} {API : FilterAPI Link}.

(** The two inputs deliver the same block of finite samples: the test
    stream is the reference stream. *)
Definition delivers_same (ctx : AVFilterContext Link) : Prop :=
  forall (r0 r1 : Z) (u v : AVFrame) (l0 l1 : Link),
    ff_inlink_consume_samples (fst (inputs ctx)) (available ctx) (available ctx)
      = (r0, Some u, l0) ->
    ff_inlink_consume_samples (snd (inputs ctx)) (available ctx) (available ctx)
      = (r1, Some v, l1) ->
    finite_block u /\ extended_data v = extended_data u.
End MoreDeliveries.

(** ** Samples on a binary grid *)

(** The double and the float nearest to [z * 2^e]: the value itself when
    [z] fits in the 53 or 24 bits of the format.  [IEEE.of_Z64 z] is
    [dyadic64 z 0]; a sample converted from 16-bit PCM is
    [dyadic64 z (-15)]. *)
Definition dyadic64 (z e : Z) : spec_float :=
  binary_normalize IEEE.prec64 IEEE.emax64 z e false.

Definition dyadic32 (z e : Z) : spec_float :=
  binary_normalize IEEE.prec32 IEEE.emax32 z e false.

(** The sums of squares over the integers, from a running total [t]. *)
Definition sum_squares_from (t : Z) (xs : list Z) : Z :=
  fold_left (fun t a => t + a * a) xs t.

Definition sum_square_diffs_from (t : Z) (xs ys : list Z) : Z :=
  fold_left (fun t ab => t + (fst ab - snd ab) * (fst ab - snd ab)) (zip xs ys) t.

Definition sum_squares (xs : list Z) : Z := sum_squares_from 0 xs.
Definition sum_square_diffs (xs ys : list Z) : Z := sum_square_diffs_from 0 xs ys.

(** ** More sample data *)

Module Cases.

(** Two channels of floats, two samples each, with a negative zero. *)
Definition pair_planes : list (list spec_float) :=
  [[S754_finite false 8388609 (-23); S754_zero true];
   [S754_finite true 12582912 (-23); S754_finite false 8388608 (-25)]].

Definition pair_frame : AVFrame := mkAVFrame 2 2 pair_planes 0.

(** Two channels of silence, of both signs. *)
Definition silence : AVFrame :=
  mkAVFrame 2 2 [[S754_zero false; S754_zero true]; [S754_zero true; S754_zero false]] 0.

(** A block of two channels and no sample. *)
Definition empty_frame : AVFrame := mkAVFrame 2 0 [[]; []] 0.

(** Totals already accumulated: 30 and 1 on the first channel, nothing on
    the second. *)
Definition running (c : option AVFrame * option AVFrame) (k : filter_fn) : AudioSDRContext :=
  mkAudioSDRContext 2 [IEEE.of_Z64 30; IEEE.zero] [IEEE.of_Z64 1; IEEE.zero] c (Some k).

(** One channel of doubles converted from 16-bit PCM: 0.5, -1 and 2^-15
    against a test signal slightly off. *)
Definition pcm_ref : list Z := [16384; -32768; 1].
Definition pcm_test : list Z := [16000; -32768; 0].

Definition pcm_priv : AudioSDRContext :=
  mkAudioSDRContext 1 [IEEE.zero] [IEEE.zero]
    (Some (mkAVFrame 1 3 [map (fun x => dyadic64 x (-15)) pcm_ref] 0),
     Some (mkAVFrame 1 3 [map (fun y => dyadic64 y (-15)) pcm_test] 0))
    (Some fn_sdr_dblp).

(** One channel of floats holding samples of 12 bits. *)
Definition small_ref : list Z := [1024; -2047; 3].
Definition small_test : list Z := [1000; -2047; -5].

Definition small_priv : AudioSDRContext :=
  mkAudioSDRContext 1 [IEEE.zero] [IEEE.zero]
    (Some (mkAVFrame 1 3 [map (fun x => dyadic32 x (-11)) small_ref] 0),
     Some (mkAVFrame 1 3 [map (fun y => dyadic32 y (-11)) small_test] 0))
    (Some fn_sdr_fltp).

End Cases.

Module Streams.

(** The reference stream of the scenario on both inputs. *)
Definition same_ctx : AVFilterContext QueueLink :=
  snd (config_output (API := queue_api 4) true true
         (Sample.fresh AV_SAMPLE_FMT_DBLP 1 [Sample.reference] [Sample.reference])).

(** A filter whose energy total has become NaN. *)
Definition poisoned_ctx : AVFilterContext QueueLink :=
  snd (activate (API := queue_api 4) Sample.nan_ctx).

End Streams.

(** * Properties *)

(** ** Arrays and loops *)

Lemma arr_get_middle (pre post : list spec_float) (x : spec_float) :
  arr_get (pre ++ x :: post) (Z.of_nat (length pre)) = x.
Proof.
  unfold arr_get. rewrite Nat2Z.id, list_lookup_middle; reflexivity.
Qed.

Lemma for_loop_empty {S : Type} (lo hi : Z) (body : Z -> S -> S) (s : S) :
  hi <= lo -> for_loop lo hi body s = s.
Proof.
  intros Hle. unfold for_loop. rewrite seqZ_nil by lia. reflexivity.
Qed.

Lemma FFMIN_min (a b : Z) : FFMIN a b = Z.min a b.
Proof.
  unfold FFMIN. destruct (Z.gtb_spec a b); lia.
Qed.

(** ** The sample loop computes the sums of the specification *)

Section SampleLoop.
Variable ty : sample_type.

Lemma sample_loop_from (us vs : list spec_float) :
  forall (pu pv : list spec_float) (acc : spec_float * spec_float),
    length us = length vs -> length pu = length pv ->
    fold_left (fun a n => sample_step ty (pu ++ us) (pv ++ vs) n a)
              (seqZ (Z.of_nat (length pu)) (Z.of_nat (length us))) acc
    = (fold_left (energy_step ty) us (fst acc),
       fold_left (distortion_step ty) (zip us vs) (snd acc)).
Proof.
  revert vs. induction us as [|x us IH]; intros [|y vs] pu pv acc Hlen Hpre;
    simpl in Hlen; try discriminate.
  - destruct acc; reflexivity.
  - rewrite seqZ_cons by (simpl; lia).
    cbn [fold_left zip zip_with].
    replace (Z.pred (Z.of_nat (length (x :: us)))) with (Z.of_nat (length us))
      by (simpl; lia).
    replace (Z.succ (Z.of_nat (length pu))) with (Z.of_nat (length (pu ++ [x])))
      by (rewrite length_app; simpl; lia).
    replace (pu ++ x :: us) with ((pu ++ [x]) ++ us) by (rewrite <- app_assoc; reflexivity).
    replace (pv ++ y :: vs) with ((pv ++ [y]) ++ vs) by (rewrite <- app_assoc; reflexivity).
    rewrite IH by (rewrite ?length_app; simpl; lia).
    unfold sample_step.
    rewrite <- !app_assoc. cbn [app].
    rewrite arr_get_middle. rewrite Hpre, arr_get_middle.
    reflexivity.
Qed.

Lemma sample_loop_sums (us vs : list spec_float) (n : Z) :
  Z.of_nat (length us) = n -> Z.of_nat (length vs) = n ->
  for_loop 0 n (sample_step ty us vs) (IEEE.zero, IEEE.zero)
  = (block_energy ty us, block_distortion ty us vs).
Proof.
  intros Hu Hv. unfold for_loop, block_energy, block_distortion.
  rewrite Z.sub_0_r, <- Hu.
  exact (sample_loop_from us vs [] [] (IEEE.zero, IEEE.zero) ltac:(lia) eq_refl).
Qed.
End SampleLoop.

(** ** The channel loop *)

Section ChannelLoop.
Variable ty : sample_type.
Variables u v : AVFrame.

Lemma channel_step_eq (ch : Z) (sums : list spec_float * list spec_float) :
  channel_step ty u v ch sums
  = (arr_set (fst sums) ch (IEEE.add64 (arr_get (fst sums) ch) (fst (local_sums ty u v ch))),
     arr_set (snd sums) ch (IEEE.add64 (arr_get (snd sums) ch) (snd (local_sums ty u v ch)))).
Proof.
  unfold channel_step, local_sums.
  destruct (for_loop 0 (nb_samples u) _ _); reflexivity.
Qed.

Lemma lookup_add_in_place (a : list spec_float) (ch : Z) (d : spec_float) (i : nat) :
  arr_set a ch (IEEE.add64 (arr_get a ch) d) !! i
  = if decide (i = Z.to_nat ch) then (fun x => IEEE.add64 x d) <$> (a !! i) else a !! i.
Proof.
  unfold arr_set, arr_get. destruct (decide (i = Z.to_nat ch)) as [->|Hne].
  - destruct (a !! Z.to_nat ch) as [x|] eqn:Hx.
    + rewrite list_lookup_insert_eq by (eapply lookup_lt_Some; eassumption). reflexivity.
    + rewrite list_insert_ge by (apply lookup_ge_None; assumption).
      rewrite Hx. reflexivity.
  - apply list_lookup_insert_ne. congruence.
Qed.

(** After the channel loop has visited the channels of [chs], each once:
    slot [i] has received the local sum of channel [i] if [i] is among
    them and is untouched otherwise. *)
Lemma channel_loop_lookup (chs : list Z) :
  NoDup chs -> Forall (fun c => 0 <= c) chs ->
  forall (sums : list spec_float * list spec_float) (i : nat),
    let r := fold_left (fun acc ch => channel_step ty u v ch acc) chs sums in
    fst r !! i = (if decide (Z.of_nat i ∈ chs)
                  then (fun x => IEEE.add64 x (fst (local_sums ty u v (Z.of_nat i))))
                         <$> (fst sums !! i)
                  else fst sums !! i) /\
    snd r !! i = (if decide (Z.of_nat i ∈ chs)
                  then (fun x => IEEE.add64 x (snd (local_sums ty u v (Z.of_nat i))))
                         <$> (snd sums !! i)
                  else snd sums !! i).
Proof.
  induction chs as [|c chs IH]; intros Hnd Hpos sums i; cbn zeta.
  - cbn [fold_left]. destruct (decide (Z.of_nat i ∈ [])) as [Hin|_]; [|auto].
    inversion Hin.
  - apply NoDup_cons in Hnd as [Hc Hnd]. apply Forall_cons in Hpos as [Hc0 Hpos].
    cbn [fold_left].
    destruct (IH Hnd Hpos (channel_step ty u v c sums) i) as [IHu IHuv].
    cbn zeta in IHu, IHuv. rewrite IHu, IHuv. clear IHu IHuv.
    rewrite channel_step_eq. cbn [fst snd].
    rewrite !lookup_add_in_place.
    assert (HB : i = Z.to_nat c <-> Z.of_nat i = c) by lia.
    assert (HC : Z.of_nat i ∈ c :: chs <-> (i = Z.to_nat c \/ Z.of_nat i ∈ chs))
      by (rewrite elem_of_cons; tauto).
    assert (HD : i = Z.to_nat c -> Z.of_nat i ∈ chs -> False)
      by (intros Heq Hin; apply HB in Heq; rewrite Heq in Hin; contradiction).
    split; repeat case_decide; try reflexivity; try (exfalso; tauto);
      subst; rewrite Z2Nat.id by lia; reflexivity.
Qed.

(** The channel loop does not depend on the order of the channels. *)
Lemma channel_loop_perm (chs chs' : list Z) (sums : list spec_float * list spec_float) :
  NoDup chs -> Forall (fun c => 0 <= c) chs -> chs ≡ₚ chs' ->
  fold_left (fun acc ch => channel_step ty u v ch acc) chs sums
  = fold_left (fun acc ch => channel_step ty u v ch acc) chs' sums.
Proof.
  intros Hnd Hpos Hperm.
  assert (Hnd' : NoDup chs') by (rewrite <- Hperm; assumption).
  assert (Hpos' : Forall (fun c => 0 <= c) chs') by (rewrite <- Hperm; assumption).
  apply injective_projections; apply list_eq; intros i.
  - destruct (channel_loop_lookup chs Hnd Hpos sums i) as [-> _].
    destruct (channel_loop_lookup chs' Hnd' Hpos' sums i) as [-> _].
    destruct (decide (Z.of_nat i ∈ chs)) as [Hin|Hnin].
    + rewrite decide_True by (rewrite <- Hperm; assumption). reflexivity.
    + rewrite decide_False by (rewrite <- Hperm; assumption). reflexivity.
  - destruct (channel_loop_lookup chs Hnd Hpos sums i) as [_ ->].
    destruct (channel_loop_lookup chs' Hnd' Hpos' sums i) as [_ ->].
    destruct (decide (Z.of_nat i ∈ chs)) as [Hin|Hnin].
    + rewrite decide_True by (rewrite <- Hperm; assumption). reflexivity.
    + rewrite decide_False by (rewrite <- Hperm; assumption). reflexivity.
Qed.
End ChannelLoop.

(** ** The partition of the channels into jobs *)

Section Partition.
Variables C N : Z.
Hypothesis HC : 0 <= C.
Hypothesis HN : 0 < N.

Lemma job_end_start (j : Z) : job_end C j N = job_start C (j + 1) N.
Proof. reflexivity. Qed.

Lemma job_start_0 : job_start C 0 N = 0.
Proof. unfold job_start. rewrite Z.mul_0_r. apply Z.quot_0_l. lia. Qed.

Lemma job_start_N : job_start C N N = C.
Proof. unfold job_start. apply Z.quot_mul. lia. Qed.

Lemma job_start_mono (j k : Z) : 0 <= j <= k -> job_start C j N <= job_start C k N.
Proof.
  intros Hjk. unfold job_start. apply Z.quot_le_mono; [lia|nia].
Qed.

Lemma job_start_nonneg (j : Z) : 0 <= j -> 0 <= job_start C j N.
Proof.
  intros Hj. rewrite <- job_start_0. apply job_start_mono. lia.
Qed.

Lemma job_start_le_end (j : Z) : 0 <= j -> job_start C j N <= job_end C j N.
Proof.
  intros Hj. rewrite job_end_start. apply job_start_mono. lia.
Qed.

Lemma elem_of_job_range (j ch : Z) :
  ch ∈ job_range C N j <-> job_start C j N <= ch < job_end C j N.
Proof.
  unfold job_range. rewrite elem_of_seqZ. lia.
Qed.

(** Laid end to end, the ranges of the first [k] jobs are the channels
    below the start of job [k]. *)
Lemma ranges_prefix (k : nat) :
  sched_channels C N (seqZ 0 (Z.of_nat k)) = seqZ 0 (job_start C (Z.of_nat k) N).
Proof.
  unfold sched_channels. induction k as [|k IH].
  - change (Z.of_nat 0) with 0. rewrite job_start_0. reflexivity.
  - rewrite seqZ_S, bind_app, IH. cbn [mbind list_bind app]. rewrite app_nil_r.
    unfold job_range. rewrite Z.add_0_l.
    pose proof (job_start_nonneg (Z.of_nat k) ltac:(lia)).
    pose proof (job_start_le_end (Z.of_nat k) ltac:(lia)).
    rewrite <- (Z.add_0_l (job_start C (Z.of_nat k) N)) at 2.
    rewrite <- seqZ_app by lia.
    rewrite job_end_start. f_equal.
    replace (Z.of_nat (S k)) with (Z.of_nat k + 1) by lia. lia.
Qed.

Lemma ranges_cover : sched_channels C N (seqZ 0 N) = seqZ 0 C.
Proof.
  rewrite <- (Z2Nat.id N) at 2 by lia.
  rewrite ranges_prefix. rewrite Z2Nat.id by lia. rewrite job_start_N. reflexivity.
Qed.

Lemma ranges_disjoint (j k ch : Z) :
  0 <= j < k -> ch ∈ job_range C N j -> ch ∉ job_range C N k.
Proof.
  rewrite !elem_of_job_range. intros Hjk Hj Hk.
  pose proof (job_start_mono (j + 1) k ltac:(lia)) as Hmono.
  rewrite <- job_end_start in Hmono. lia.
Qed.

Lemma ranges_covering (ch : Z) :
  0 <= ch < C <-> exists j, 0 <= j < N /\ ch ∈ job_range C N j.
Proof.
  rewrite <- (elem_of_seqZ 0 C ch) by lia.
  replace (0 + C) with C by lia.
  rewrite <- ranges_cover. unfold sched_channels.
  rewrite list_elem_of_bind. setoid_rewrite elem_of_seqZ.
  split; intros (j & H1 & H2); exists j; (split; [lia || assumption | lia || assumption]).
Qed.

(** Every schedule that runs each job once visits each channel once. *)
Lemma sched_channels_perm (sched : list Z) :
  sched ≡ₚ seqZ 0 N -> sched_channels C N sched ≡ₚ seqZ 0 C.
Proof.
  intros Hperm. rewrite <- ranges_cover. unfold sched_channels.
  rewrite Hperm. reflexivity.
Qed.
End Partition.

(** ** One call of the kernel, and a set of jobs *)

Section KernelFacts.
Variable ty : sample_type.

Lemma set_sums_same (s : AudioSDRContext) : set_sums s (sum_u s) (sum_uv s) = s.
Proof. destruct s; reflexivity. Qed.

Lemma SDR_FILTER_eq (s : AudioSDRContext) (u v : AVFrame) (jobnr nb_jobs : Z) :
  cache s = (Some u, Some v) ->
  SDR_FILTER ty s jobnr nb_jobs
  = (let r := channel_loop ty u v (job_range (nb_channels u) nb_jobs jobnr) (sum_u s, sum_uv s) in
     set_sums s (fst r) (snd r), 0).
Proof.
  intros Hc. unfold SDR_FILTER, get2. rewrite Hc. cbn [fst snd Z.eqb].
  unfold for_loop, channel_loop, job_range.
  destruct (fold_left _ _ _); reflexivity.
Qed.

Lemma SDR_FILTER_no_block (s : AudioSDRContext) (jobnr nb_jobs : Z) :
  fst (cache s) = None \/ snd (cache s) = None ->
  SDR_FILTER ty s jobnr nb_jobs = (s, 0).
Proof.
  unfold SDR_FILTER, get2. cbn [Z.eqb].
  destruct (cache s) as [[u|] [v|]]; cbn [fst snd]; intros [H|H]; try discriminate; reflexivity.
Qed.

Lemma SDR_FILTER_cache (s : AudioSDRContext) (jobnr nb_jobs : Z) :
  cache (fst (SDR_FILTER ty s jobnr nb_jobs)) = cache s /\
  filter (fst (SDR_FILTER ty s jobnr nb_jobs)) = filter s /\
  channels (fst (SDR_FILTER ty s jobnr nb_jobs)) = channels s.
Proof.
  destruct (cache s) as [[u|] [v|]] eqn:Hc.
  - rewrite (SDR_FILTER_eq s u v) by assumption. cbn. auto.
  - rewrite SDR_FILTER_no_block by (rewrite Hc; auto). auto.
  - rewrite SDR_FILTER_no_block by (rewrite Hc; auto). auto.
  - rewrite SDR_FILTER_no_block by (rewrite Hc; auto). auto.
Qed.

Lemma execute_sched_eq (sched : list Z) (nb_jobs : Z) (u v : AVFrame) :
  forall s : AudioSDRContext,
    cache s = (Some u, Some v) ->
    execute_sched sched (SDR_FILTER ty) nb_jobs s
    = (let r := channel_loop ty u v (sched_channels (nb_channels u) nb_jobs sched)
                  (sum_u s, sum_uv s) in
       set_sums s (fst r) (snd r)).
Proof.
  unfold execute_sched, sched_channels.
  induction sched as [|j sched IH]; intros s Hc; cbn zeta.
  - cbn. apply eq_sym, set_sums_same.
  - cbn [fold_left mbind list_bind]. rewrite (SDR_FILTER_eq s u v) by assumption.
    cbn zeta. cbn [fst]. rewrite IH by exact Hc.
    cbn zeta. unfold channel_loop. rewrite fold_left_app.
    unfold set_sums. cbn [sum_u sum_uv channels cache filter].
    rewrite <- surjective_pairing. reflexivity.
Qed.

Lemma execute_sched_cache (sched : list Z) (nb_jobs : Z) :
  forall s : AudioSDRContext,
    cache (execute_sched sched (SDR_FILTER ty) nb_jobs s) = cache s /\
    filter (execute_sched sched (SDR_FILTER ty) nb_jobs s) = filter s /\
    channels (execute_sched sched (SDR_FILTER ty) nb_jobs s) = channels s.
Proof.
  unfold execute_sched. induction sched as [|j sched IH]; intros s; cbn [fold_left].
  - auto.
  - destruct (IH (fst (SDR_FILTER ty s j nb_jobs))) as (-> & -> & ->).
    apply SDR_FILTER_cache.
Qed.

(** Sharding independence: the jobs of any schedule that runs each of the
    [N] jobs once leave the context as a single job over all channels. *)
Lemma sharding_independent (s : AudioSDRContext) (u v : AVFrame) (N : Z) (sched : list Z) :
  cache s = (Some u, Some v) -> 0 <= nb_channels u -> 0 < N ->
  sched ≡ₚ seqZ 0 N ->
  execute_sched sched (SDR_FILTER ty) N s = fst (SDR_FILTER ty s 0 1).
Proof.
  intros Hc HC HN Hperm.
  rewrite (execute_sched_eq sched N u v s Hc).
  rewrite (SDR_FILTER_eq s u v 0 1 Hc). cbn zeta. cbn [fst].
  assert (Hone : job_range (nb_channels u) 1 0 = seqZ 0 (nb_channels u)).
  { unfold job_range, job_end. rewrite job_start_0 by lia.
    rewrite Z.add_0_l, Z.mul_1_r, Z.quot_1_r. f_equal. lia. }
  rewrite Hone.
  pose proof (sched_channels_perm (nb_channels u) N HC HN sched Hperm) as Hp.
  assert (Heq : channel_loop ty u v (sched_channels (nb_channels u) N sched) (sum_u s, sum_uv s)
                = channel_loop ty u v (seqZ 0 (nb_channels u)) (sum_u s, sum_uv s)).
  { symmetry. apply channel_loop_perm.
    - apply NoDup_seqZ.
    - apply Forall_seqZ. intros; lia.
    - symmetry. exact Hp. }
  rewrite Heq. reflexivity.
Qed.
End KernelFacts.

Section KernelChannel.
Variable ty : sample_type.

(** What one call of the kernel does to the totals of channel [ch]. *)
Lemma SDR_FILTER_channel (s : AudioSDRContext) (u v : AVFrame) (jobnr nb_jobs ch : Z) :
  cache s = (Some u, Some v) ->
  0 <= nb_channels u -> 0 < nb_jobs -> 0 <= jobnr -> 0 <= ch ->
  let s' := fst (SDR_FILTER ty s jobnr nb_jobs) in
  (job_start (nb_channels u) jobnr nb_jobs <= ch < job_end (nb_channels u) jobnr nb_jobs ->
     (ch < Z.of_nat (length (sum_u s)) ->
        arr_get (sum_u s') ch = IEEE.add64 (arr_get (sum_u s) ch) (fst (local_sums ty u v ch))) /\
     (ch < Z.of_nat (length (sum_uv s)) ->
        arr_get (sum_uv s') ch
          = IEEE.add64 (arr_get (sum_uv s) ch) (snd (local_sums ty u v ch)))) /\
  (~ job_start (nb_channels u) jobnr nb_jobs <= ch < job_end (nb_channels u) jobnr nb_jobs ->
     arr_get (sum_u s') ch = arr_get (sum_u s) ch /\
     arr_get (sum_uv s') ch = arr_get (sum_uv s) ch).
Proof.
  intros Hc HC HN Hj Hch. cbn zeta.
  rewrite (SDR_FILTER_eq ty s u v jobnr nb_jobs Hc). cbn zeta. cbn [fst].
  unfold set_sums. cbn [sum_u sum_uv].
  assert (Hnd : NoDup (job_range (nb_channels u) nb_jobs jobnr)) by apply NoDup_seqZ.
  assert (Hpos : Forall (fun c => 0 <= c) (job_range (nb_channels u) nb_jobs jobnr)).
  { apply Forall_seqZ. intros c Hcr.
    pose proof (job_start_nonneg (nb_channels u) nb_jobs HC HN jobnr Hj). lia. }
  destruct (channel_loop_lookup ty u v _ Hnd Hpos (sum_u s, sum_uv s) (Z.to_nat ch))
    as [Hu Huv].
  cbn zeta in Hu, Huv. cbn [fst snd] in Hu, Huv.
  rewrite Z2Nat.id in Hu, Huv by lia.
  unfold arr_get, channel_loop. rewrite Hu, Huv.
  split.
  - intros Hin. rewrite !decide_True by (apply elem_of_job_range; assumption).
    split; intros Hlen.
    + destruct (lookup_lt_is_Some_2 (sum_u s) (Z.to_nat ch) ltac:(lia)) as [x ->]. reflexivity.
    + destruct (lookup_lt_is_Some_2 (sum_uv s) (Z.to_nat ch) ltac:(lia)) as [x ->]. reflexivity.
  - intros Hout. rewrite !decide_False by (rewrite elem_of_job_range; assumption). auto.
Qed.
End KernelChannel.

Lemma ff_filter_execute_cache (f : option filter_fn) (nb_jobs : Z) (s : AudioSDRContext) :
  cache (ff_filter_execute f nb_jobs s) = cache s /\
  filter (ff_filter_execute f nb_jobs s) = filter s /\
  channels (ff_filter_execute f nb_jobs s) = channels s.
Proof.
  destruct f as [[|]|]; cbn [ff_filter_execute call_filter]; auto;
    apply execute_sched_cache.
Qed.

(** ** The paths of [activate] *)

Ltac norm_ctx :=
  unfold set_input, set_priv, set_output, set_cache, set_sums, av_frame_free, set2, get2;
  cbn [inputs priv outputs is_disabled cache sum_u sum_uv channels filter fst snd Z.eqb].

Lemma seqZ_0_2 : seqZ 0 2 = [0; 1].
Proof. reflexivity. Qed.

Section ActivateFacts.
Context {Link : Type} {API : FilterAPI Link}.

Lemma activate_blocks (ctx : AVFilterContext Link)
    (r0 r1 : Z) (f0 f1 : option AVFrame) (l0 l1 : Link) :
  goes_on ctx -> available ctx > 0 ->
  ff_inlink_consume_samples (fst (inputs ctx)) (available ctx) (available ctx) = (r0, f0, l0) ->
  0 <= r0 ->
  ff_inlink_consume_samples (snd (inputs ctx)) (available ctx) (available ctx) = (r1, f1, l1) ->
  0 <= r1 ->
  activate ctx
  = (fst (ff_filter_frame (outputs ctx) f0),
     mkAVFilterContext (set_cache (measured ctx f0 f1 l0 l1) (None, None)) (l0, l1)
       (snd (ff_filter_frame (outputs ctx) f0)) (is_disabled ctx)).
Proof.
  unfold goes_on, available. intros Hgo Hav H0 Hr0 H1 Hr1.
  unfold activate. rewrite Hgo.
  change (get2 (inputs ctx) 0) with (fst (inputs ctx)).
  change (get2 (inputs ctx) 1) with (snd (inputs ctx)).
  destruct (Z.gtb_spec (FFMIN (ff_inlink_queued_samples (fst (inputs ctx)))
                              (ff_inlink_queued_samples (snd (inputs ctx)))) 0); [|lia].
  rewrite seqZ_0_2. cbn [for_return].
  unfold consume_body at 1.
  change (get2 (inputs ctx) 0) with (fst (inputs ctx)). rewrite H0.
  destruct (Z.ltb_spec r0 0); [lia|].
  unfold consume_body at 1. norm_ctx.
  rewrite H1. destruct (Z.ltb_spec r1 0); [lia|].
  unfold measured. norm_ctx.
  destruct (is_disabled ctx =? 0); norm_ctx.
  - match goal with
    | |- context [ff_filter_execute ?f ?n ?s] =>
        destruct (ff_filter_execute_cache f n s) as (Hcache & Hfilter & Hch);
        set (s2 := ff_filter_execute f n s) in *
    end.
    cbn [cache] in Hcache. rewrite Hcache. cbn [fst snd].
    destruct (ff_filter_frame (outputs ctx) f0) as [ret l]. reflexivity.
  - destruct (ff_filter_frame (outputs ctx) f0) as [ret l]. reflexivity.
Qed.

Lemma activate_fail_first (ctx : AVFilterContext Link) (r0 : Z) (f0 : option AVFrame) (l0 : Link) :
  goes_on ctx -> available ctx > 0 ->
  ff_inlink_consume_samples (fst (inputs ctx)) (available ctx) (available ctx) = (r0, f0, l0) ->
  r0 < 0 ->
  activate ctx
  = (r0, mkAVFilterContext (set_cache (priv ctx) (None, None)) (l0, snd (inputs ctx))
           (outputs ctx) (is_disabled ctx)).
Proof.
  unfold goes_on, available. intros Hgo Hav H0 Hr0.
  unfold activate. rewrite Hgo.
  change (get2 (inputs ctx) 0) with (fst (inputs ctx)).
  change (get2 (inputs ctx) 1) with (snd (inputs ctx)).
  destruct (Z.gtb_spec (FFMIN (ff_inlink_queued_samples (fst (inputs ctx)))
                              (ff_inlink_queued_samples (snd (inputs ctx)))) 0); [|lia].
  rewrite seqZ_0_2. cbn [for_return].
  unfold consume_body at 1.
  change (get2 (inputs ctx) 0) with (fst (inputs ctx)). rewrite H0.
  destruct (Z.ltb_spec r0 0); [|lia].
  norm_ctx. reflexivity.
Qed.

Lemma activate_fail_second (ctx : AVFilterContext Link)
    (r0 r1 : Z) (f0 f1 : option AVFrame) (l0 l1 : Link) :
  goes_on ctx -> available ctx > 0 ->
  ff_inlink_consume_samples (fst (inputs ctx)) (available ctx) (available ctx) = (r0, f0, l0) ->
  0 <= r0 ->
  ff_inlink_consume_samples (snd (inputs ctx)) (available ctx) (available ctx) = (r1, f1, l1) ->
  r1 < 0 ->
  activate ctx
  = (r1, mkAVFilterContext (set_cache (priv ctx) (None, None)) (l0, l1)
           (outputs ctx) (is_disabled ctx)).
Proof.
  unfold goes_on, available. intros Hgo Hav H0 Hr0 H1 Hr1.
  unfold activate. rewrite Hgo.
  change (get2 (inputs ctx) 0) with (fst (inputs ctx)).
  change (get2 (inputs ctx) 1) with (snd (inputs ctx)).
  destruct (Z.gtb_spec (FFMIN (ff_inlink_queued_samples (fst (inputs ctx)))
                              (ff_inlink_queued_samples (snd (inputs ctx)))) 0); [|lia].
  rewrite seqZ_0_2. cbn [for_return].
  unfold consume_body at 1.
  change (get2 (inputs ctx) 0) with (fst (inputs ctx)). rewrite H0.
  destruct (Z.ltb_spec r0 0); [lia|].
  unfold consume_body at 1. norm_ctx.
  rewrite H1. destruct (Z.ltb_spec r1 0); [|lia].
  norm_ctx. reflexivity.
Qed.

Lemma activate_status_first (ctx : AVFilterContext Link) (r0 status pts : Z) (l0 : Link) :
  goes_on ctx -> available ctx <= 0 ->
  ff_inlink_acknowledge_status (fst (inputs ctx)) = (r0, status, pts, l0) ->
  r0 <> 0 ->
  activate ctx
  = (0, mkAVFilterContext (priv ctx) (l0, snd (inputs ctx))
          (ff_outlink_set_status (outputs ctx) status pts) (is_disabled ctx)).
Proof.
  unfold goes_on, available. intros Hgo Hav H0 Hr0.
  unfold activate. rewrite Hgo.
  change (get2 (inputs ctx) 0) with (fst (inputs ctx)).
  change (get2 (inputs ctx) 1) with (snd (inputs ctx)).
  destruct (Z.gtb_spec (FFMIN (ff_inlink_queued_samples (fst (inputs ctx)))
                              (ff_inlink_queued_samples (snd (inputs ctx)))) 0); [lia|].
  rewrite seqZ_0_2. cbn [for_return].
  unfold status_body at 1.
  change (get2 (inputs ctx) 0) with (fst (inputs ctx)). rewrite H0.
  destruct (Z.eqb_spec r0 0); [contradiction|].
  norm_ctx. reflexivity.
Qed.

Lemma activate_status_second (ctx : AVFilterContext Link)
    (st0 pts0 r1 status pts : Z) (l0 l1 : Link) :
  goes_on ctx -> available ctx <= 0 ->
  ff_inlink_acknowledge_status (fst (inputs ctx)) = (0, st0, pts0, l0) ->
  ff_inlink_acknowledge_status (snd (inputs ctx)) = (r1, status, pts, l1) ->
  r1 <> 0 ->
  activate ctx
  = (0, mkAVFilterContext (priv ctx) (l0, l1)
          (ff_outlink_set_status (outputs ctx) status pts) (is_disabled ctx)).
Proof.
  unfold goes_on, available. intros Hgo Hav H0 H1 Hr1.
  unfold activate. rewrite Hgo.
  change (get2 (inputs ctx) 0) with (fst (inputs ctx)).
  change (get2 (inputs ctx) 1) with (snd (inputs ctx)).
  destruct (Z.gtb_spec (FFMIN (ff_inlink_queued_samples (fst (inputs ctx)))
                              (ff_inlink_queued_samples (snd (inputs ctx)))) 0); [lia|].
  rewrite seqZ_0_2. cbn [for_return].
  unfold status_body at 1.
  change (get2 (inputs ctx) 0) with (fst (inputs ctx)). rewrite H0.
  cbn [Z.eqb].
  unfold status_body at 1. norm_ctx. rewrite H1.
  destruct (Z.eqb_spec r1 0); [contradiction|].
  norm_ctx. reflexivity.
Qed.

Lemma activate_no_status (ctx : AVFilterContext Link) (st0 pts0 st1 pts1 : Z) (l0 l1 : Link) :
  goes_on ctx -> available ctx <= 0 ->
  ff_inlink_acknowledge_status (fst (inputs ctx)) = (0, st0, pts0, l0) ->
  ff_inlink_acknowledge_status (snd (inputs ctx)) = (0, st1, pts1, l1) ->
  activate ctx
  = if ff_outlink_frame_wanted (outputs ctx) =? 0
    then (FFERROR_NOT_READY,
          mkAVFilterContext (priv ctx) (l0, l1) (outputs ctx) (is_disabled ctx))
    else (0, mkAVFilterContext (priv ctx) (request_if_empty l0, request_if_empty l1)
               (outputs ctx) (is_disabled ctx)).
Proof.
  unfold goes_on, available. intros Hgo Hav H0 H1.
  unfold activate. rewrite Hgo.
  change (get2 (inputs ctx) 0) with (fst (inputs ctx)).
  change (get2 (inputs ctx) 1) with (snd (inputs ctx)).
  destruct (Z.gtb_spec (FFMIN (ff_inlink_queued_samples (fst (inputs ctx)))
                              (ff_inlink_queued_samples (snd (inputs ctx)))) 0); [lia|].
  rewrite seqZ_0_2. cbn [for_return].
  unfold status_body at 1.
  change (get2 (inputs ctx) 0) with (fst (inputs ctx)). rewrite H0.
  cbn [Z.eqb].
  unfold status_body at 1. norm_ctx. rewrite H1. cbn [Z.eqb]. norm_ctx.
  destruct (ff_outlink_frame_wanted (outputs ctx) =? 0); [reflexivity|].
  unfold for_loop. change (2 - 0) with 2. rewrite seqZ_0_2. cbn [fold_left].
  unfold request_body, request_if_empty. norm_ctx.
  destruct (ff_inlink_queued_samples l0 >? 0); norm_ctx;
    destruct (ff_inlink_queued_samples l1 >? 0); reflexivity.
Qed.

Lemma activate_status_back (ctx : AVFilterContext Link) (ins : Link * Link) :
  FF_FILTER_FORWARD_STATUS_BACK_ALL (outputs ctx) (inputs ctx) = Some ins ->
  activate ctx = (0, mkAVFilterContext (priv ctx) ins (outputs ctx) (is_disabled ctx)).
Proof.
  intros H. unfold activate. rewrite H. reflexivity.
Qed.
End ActivateFacts.

(** ** IEEE 754: digits, shifts and rounding *)

Section Digits.

Lemma digits2_bounds (p : positive) :
  2 ^ (Zpos (digits2_pos p) - 1) <= Zpos p < 2 ^ Zpos (digits2_pos p).
Proof.
  induction p as [p IH|p IH|]; cbn [digits2_pos].
  - rewrite Pos2Z.inj_succ. change (Zpos p~1) with (2 * Zpos p + 1).
    replace (Z.succ (Zpos (digits2_pos p)) - 1) with (Z.succ (Zpos (digits2_pos p) - 1)) by lia.
    rewrite !Z.pow_succ_r by lia. lia.
  - rewrite Pos2Z.inj_succ. change (Zpos p~0) with (2 * Zpos p).
    replace (Z.succ (Zpos (digits2_pos p)) - 1) with (Z.succ (Zpos (digits2_pos p) - 1)) by lia.
    rewrite !Z.pow_succ_r by lia. lia.
  - cbn. lia.
Qed.

(** The number of binary digits of a non-negative integer. *)
Lemma Zdigits2_bounds (m : Z) :
  0 < m -> 2 ^ (Zdigits2 m - 1) <= m < 2 ^ Zdigits2 m.
Proof.
  destruct m as [|p|p]; try lia. intros _. apply digits2_bounds.
Qed.

Lemma Zdigits2_pos (m : Z) : 0 < m -> 0 < Zdigits2 m.
Proof. destruct m; cbn; lia. Qed.

Lemma Zdigits2_nonneg (m : Z) : 0 <= Zdigits2 m.
Proof. destruct m; cbn; lia. Qed.

Lemma Zdigits2_unique (m d : Z) :
  2 ^ (d - 1) <= m < 2 ^ d -> 0 < m -> Zdigits2 m = d.
Proof.
  intros [Hlo Hhi] Hm.
  pose proof (Zdigits2_bounds m Hm) as [Hlo' Hhi'].
  pose proof (Zdigits2_pos m Hm) as Hd'.
  destruct (Z.lt_trichotomy (Zdigits2 m) d) as [Hlt|[Heq|Hgt]]; [|exact Heq|].
  - exfalso.
    assert (2 ^ Zdigits2 m <= 2 ^ (d - 1)) by (apply Z.pow_le_mono_r; lia). lia.
  - exfalso.
    assert (0 <= d).
    { destruct (Z.le_gt_cases 0 d) as [|Hneg]; [assumption|].
      rewrite (Z.pow_neg_r 2 d) in Hhi by lia. lia. }
    assert (2 ^ d <= 2 ^ (Zdigits2 m - 1)) by (apply Z.pow_le_mono_r; lia). lia.
Qed.

Lemma Zdigits2_mono (m n : Z) : 0 < m <= n -> Zdigits2 m <= Zdigits2 n.
Proof.
  intros [Hm Hmn].
  pose proof (Zdigits2_bounds m Hm) as [Hlo _].
  pose proof (Zdigits2_bounds n ltac:(lia)) as [_ Hhi].
  destruct (Z.le_gt_cases (Zdigits2 m) (Zdigits2 n)) as [|Hgt]; [assumption|exfalso].
  assert (2 ^ Zdigits2 n <= 2 ^ (Zdigits2 m - 1)).
  { apply Z.pow_le_mono_r; [lia|]. lia. }
  lia.
Qed.

Lemma Zdigits2_shl (m k : Z) : 0 < m -> 0 <= k -> Zdigits2 (m * 2 ^ k) = Zdigits2 m + k.
Proof.
  intros Hm Hk.
  pose proof (Zdigits2_bounds m Hm) as [Hlo Hhi].
  pose proof (Zdigits2_pos m Hm) as Hd.
  assert (0 < 2 ^ k) by (apply Z.pow_pos_nonneg; lia).
  apply Zdigits2_unique; [|nia].
  replace (Zdigits2 m + k - 1) with ((Zdigits2 m - 1) + k) by lia.
  rewrite !Z.pow_add_r by lia. nia.
Qed.

Lemma Zdigits2_shr (m n : Z) :
  0 < m -> 0 <= n -> n < Zdigits2 m -> Zdigits2 (m / 2 ^ n) = Zdigits2 m - n /\ 0 < m / 2 ^ n.
Proof.
  intros Hm Hn Hlt.
  pose proof (Zdigits2_bounds m Hm) as [Hlo Hhi].
  assert (Hp : 0 < 2 ^ n) by (apply Z.pow_pos_nonneg; lia).
  assert (Hlo' : 2 ^ (Zdigits2 m - n - 1) <= m / 2 ^ n).
  { apply Z.div_le_lower_bound; [lia|].
    rewrite <- Z.pow_add_r by lia.
    replace (n + (Zdigits2 m - n - 1)) with (Zdigits2 m - 1) by lia. exact Hlo. }
  assert (Hhi' : m / 2 ^ n < 2 ^ (Zdigits2 m - n)).
  { apply Z.div_lt_upper_bound; [lia|].
    rewrite <- Z.pow_add_r by lia.
    replace (n + (Zdigits2 m - n)) with (Zdigits2 m) by lia. exact Hhi. }
  assert (0 < 2 ^ (Zdigits2 m - n - 1)) by (apply Z.pow_pos_nonneg; lia).
  split; [|lia].
  apply Zdigits2_unique; [|lia]. split; assumption.
Qed.

(** Shifting right by [n] digits or more leaves nothing. *)
Lemma Zdigits2_shr_all (m n : Z) : 0 <= m -> Zdigits2 m <= n -> m / 2 ^ n = 0.
Proof.
  intros Hm Hn. destruct (Z.eq_dec m 0) as [->|Hne].
  - apply Z.div_0_l. apply Z.pow_nonzero; [lia|]. pose proof (Zdigits2_nonneg 0). cbn in Hn. lia.
  - pose proof (Zdigits2_bounds m ltac:(lia)) as [_ Hhi].
    apply Z.div_small. split; [lia|].
    assert (2 ^ Zdigits2 m <= 2 ^ n) by (apply Z.pow_le_mono_r; lia). lia.
Qed.
End Digits.

Section Shifts.

Lemma shl_iter (m d : positive) : Zpos (Pos.iter xO m d) = Zpos m * 2 ^ Zpos d.
Proof.
  revert m. induction d as [|d IH] using Pos.peano_ind; intros m.
  - cbn. lia.
  - rewrite Pos.iter_succ. change (Zpos (Pos.iter xO m d)~0) with (2 * Zpos (Pos.iter xO m d)).
    rewrite IH, Pos2Z.inj_succ, Z.pow_succ_r by lia. lia.
Qed.

(** [shl_align m e e'] lowers the exponent to [e'] when [e' < e], keeping
    the value [m * 2^e]. *)
Lemma shl_align_spec (m : positive) (e e' : Z) :
  let r := shl_align m e e' in
  snd r = Z.min e e' /\ Zpos (fst r) = Zpos m * 2 ^ (e - snd r).
Proof.
  unfold shl_align. destruct (e' - e) as [|d|d] eqn:Hd; cbn [fst snd].
  - split; [lia|]. replace (e - e) with 0 by lia. lia.
  - split; [lia|]. replace (e - e) with 0 by lia. lia.
  - split; [lia|]. rewrite shl_iter. f_equal. f_equal. lia.
Qed.

Lemma shr_1_spec (mrs : shr_record) :
  0 <= shr_m mrs -> shr_m (shr_1 mrs) = shr_m mrs / 2.
Proof.
  destruct mrs as [m r s]. cbn [shr_m]. intros Hm.
  destruct m as [|[p|p|]|p]; cbn [shr_1 shr_m]; try reflexivity; try lia.
  - apply Z.div_unique with 1; lia.
  - apply Z.div_unique with 0; lia.
Qed.

Lemma shr_iter (n : positive) :
  forall mrs : shr_record,
    0 <= shr_m mrs -> shr_m (SpecFloat.iter_pos shr_1 n mrs) = shr_m mrs / 2 ^ Zpos n.
Proof.
  assert (Hstep : forall mrs, 0 <= shr_m mrs -> 0 <= shr_m (shr_1 mrs)).
  { intros mrs H. rewrite shr_1_spec by assumption. apply Z.div_pos; lia. }
  induction n as [n IH|n IH|]; intros mrs Hm; cbn [SpecFloat.iter_pos].
  - assert (H1 : 0 <= shr_m (SpecFloat.iter_pos shr_1 n (shr_1 mrs))).
    { rewrite IH by auto. apply Z.div_pos; [auto|]. apply Z.pow_pos_nonneg; lia. }
    rewrite IH by exact H1. rewrite IH by auto. rewrite shr_1_spec by assumption.
    rewrite !Z.div_div by (try apply Z.pow_pos_nonneg; lia).
    f_equal. change (Zpos n~1) with (2 * Zpos n + 1).
    replace (2 * Zpos n + 1) with (1 + Zpos n + Zpos n) by lia.
    rewrite !Z.pow_add_r by lia. rewrite Z.pow_1_r. lia.
  - assert (H1 : 0 <= shr_m (SpecFloat.iter_pos shr_1 n mrs)).
    { rewrite IH by auto. apply Z.div_pos; [auto|]. apply Z.pow_pos_nonneg; lia. }
    rewrite IH by exact H1. rewrite IH by auto.
    rewrite !Z.div_div by (try apply Z.pow_pos_nonneg; lia).
    f_equal. change (Zpos n~0) with (2 * Zpos n).
    replace (2 * Zpos n) with (Zpos n + Zpos n) by lia.
    rewrite !Z.pow_add_r by lia. lia.
  - rewrite shr_1_spec by assumption. rewrite Z.pow_1_r. reflexivity.
Qed.

(** [shr] by [n] places divides the mantissa by [2^n] and raises the
    exponent to [e + n]; no shift when [n <= 0]. *)
Lemma shr_spec (mrs : shr_record) (e n : Z) :
  0 <= shr_m mrs ->
  shr_m (fst (shr mrs e n)) = shr_m mrs / 2 ^ Z.max 0 n /\
  snd (shr mrs e n) = e + Z.max 0 n.
Proof.
  intros Hm. destruct n as [|p|p]; cbn [shr fst snd].
  - cbn. rewrite Z.div_1_r. split; [reflexivity|lia].
  - rewrite shr_iter by assumption. replace (Z.max 0 (Zpos p)) with (Zpos p) by lia. auto.
  - replace (Z.max 0 (Zneg p)) with 0 by lia. cbn. rewrite Z.div_1_r. split; [reflexivity|lia].
Qed.

Lemma round_nearest_even_bounds (m : Z) (l : location) :
  m <= round_nearest_even m l <= m + 1.
Proof.
  unfold round_nearest_even. destruct l as [|[| |]]; try lia.
  destruct (Z.even m); lia.
Qed.
End Shifts.

Section Rounding.
Variables prec emax : Z.
Hypothesis Hprec : 0 < prec.

Abbreviation fexp := (SpecFloat.fexp prec emax).
Abbreviation emin := (SpecFloat.emin prec emax).

Lemma fexp_mono (a b : Z) : a <= b -> fexp a <= fexp b.
Proof using. unfold SpecFloat.fexp. lia. Qed.

Lemma fexp_ge_emin (a : Z) : emin <= fexp a.
Proof using. unfold SpecFloat.fexp. lia. Qed.

Lemma fexp_above (a : Z) : emin < fexp a -> fexp a = a - prec.
Proof using. unfold SpecFloat.fexp. lia. Qed.

Lemma Zdigits2_lower (m k : Z) : 0 <= k -> 2 ^ k <= m -> k + 1 <= Zdigits2 m.
Proof using.
  intros Hk Hm.
  assert (0 < 2 ^ k) by (apply Z.pow_pos_nonneg; lia).
  pose proof (Zdigits2_bounds m ltac:(lia)) as [_ Hhi].
  destruct (Z.le_gt_cases (k + 1) (Zdigits2 m)) as [|Hgt]; [assumption|exfalso].
  assert (2 ^ Zdigits2 m <= 2 ^ k).
  { apply Z.pow_le_mono_r; lia. }
  lia.
Qed.

(** The result of rounding an exact mantissa [M] at exponent [e], when [e]
    is not above the exponent [F] the format gives to numbers of that
    size: a mantissa [m3] at an exponent [e3 >= F], canonical, not below
    [M / 2^(F - e)] when [e3 = F]. *)
Lemma binary_round_aux_exact (s : bool) (M : positive) (e : Z) :
  e <= fexp (Zpos (digits2_pos M) + e) ->
  exists m3 e3 : Z,
    binary_round_aux prec emax s (Zpos M) e loc_Exact
      = match m3 with
        | Z0 => S754_zero s
        | Zpos p => if e3 <=? emax - prec then S754_finite s p e3 else S754_infinity s
        | Zneg _ => S754_nan
        end /\
    0 <= m3 /\ fexp (Zpos (digits2_pos M) + e) <= e3 /\
    (0 < m3 -> fexp (Zdigits2 m3 + e3) = e3) /\
    (e3 = fexp (Zpos (digits2_pos M) + e) ->
       Zpos M / 2 ^ (fexp (Zpos (digits2_pos M) + e) - e) <= m3) /\
    (0 < Zpos M / 2 ^ (fexp (Zpos (digits2_pos M) + e) - e) -> 0 < m3).
Proof using Hprec.
  set (F := fexp (Zpos (digits2_pos M) + e)). intros HeF.
  unfold binary_round_aux, shr_fexp. cbn [Zdigits2 shr_record_of_loc]. fold F.
  pose proof (shr_spec (Build_shr_record (Zpos M) false false) e (F - e) ltac:(cbn; lia))
    as [Hm1 He1].
  destruct (shr (Build_shr_record (Zpos M) false false) e (F - e)) as [mrs1 e1].
  cbn [fst snd shr_m] in Hm1, He1.
  replace (Z.max 0 (F - e)) with (F - e) in Hm1, He1 by lia.
  replace (e + (F - e)) with F in He1 by lia. subst e1.
  set (m1 := Zpos M / 2 ^ (F - e)) in *.
  assert (Hm1pos : 0 <= m1).
  { apply Z.div_pos; [lia|]. apply Z.pow_pos_nonneg; lia. }
  pose proof (round_nearest_even_bounds (shr_m mrs1) (loc_of_shr_record mrs1)) as Hrne.
  set (m2 := round_nearest_even (shr_m mrs1) (loc_of_shr_record mrs1)) in *.
  rewrite Hm1 in Hrne.
  set (n2 := fexp (Zdigits2 m2 + F) - F).
  pose proof (shr_spec (Build_shr_record m2 false false) F n2 ltac:(cbn; lia)) as [Hm3 He3].
  destruct (shr (Build_shr_record m2 false false) F n2) as [mrs3 e3].
  cbn [fst snd shr_m] in Hm3, He3.
  exists (shr_m mrs3), e3. split; [reflexivity|].
  (* the size of [M] against the first shift *)
  assert (Hsmall : m1 = 0 -> F = emin).
  { intros H0. unfold m1 in H0.
    destruct (Z.le_gt_cases (Zpos (digits2_pos M)) (F - e)) as [Hle|Hgt].
    - assert (emin <= F) by apply fexp_ge_emin.
      destruct (Z.eq_dec F emin) as [|Hne]; [assumption|exfalso].
      assert (HF : F = Zpos (digits2_pos M) + e - prec) by (apply fexp_above; lia). lia.
    - exfalso.
      destruct (Zdigits2_shr (Zpos M) (F - e) ltac:(lia) ltac:(lia) ltac:(cbn; lia)) as [_ Hp].
      lia. }
  assert (Hbig : 0 < m1 -> Zdigits2 m1 = Zpos (digits2_pos M) - (F - e)).
  { intros Hp. unfold m1 in *.
    destruct (Z.le_gt_cases (Zpos (digits2_pos M)) (F - e)) as [Hle|Hgt].
    - rewrite (Zdigits2_shr_all (Zpos M) (F - e)) in Hp by (cbn; lia). lia.
    - apply (Zdigits2_shr (Zpos M) (F - e)); cbn; lia. }
  destruct (Z.le_gt_cases n2 0) as [Hn2|Hn2].
  - (* no second shift *)
    replace (Z.max 0 n2) with 0 in Hm3, He3 by lia.
    rewrite Z.pow_0_r, Z.div_1_r in Hm3. rewrite Z.add_0_r in He3. subst e3. rewrite Hm3.
    split; [lia|]. split; [lia|]. split; [|split; intros; lia].
    intros Hm2. unfold n2 in Hn2.
    apply Z.le_antisymm; [lia|].
    destruct (Z.eq_dec m1 0) as [H0|Hne].
    + rewrite (Hsmall H0). apply fexp_ge_emin.
    + assert (Zdigits2 m1 <= Zdigits2 m2) by (apply Zdigits2_mono; lia).
      rewrite Hbig in H by lia.
      unfold F at 2. apply fexp_mono. lia.
  - (* the rounded mantissa has one digit too many *)
    replace (Z.max 0 n2) with n2 in Hm3, He3 by lia.
    assert (Hm2 : 0 < m2).
    { destruct (Z.eq_dec m2 0) as [H0|]; [exfalso|lia].
      unfold n2 in Hn2. rewrite H0 in Hn2. cbn [Zdigits2] in Hn2.
      pose proof (fexp_ge_emin (Zpos (digits2_pos M) + e)). fold F in H.
      unfold SpecFloat.fexp in Hn2. lia. }
    assert (HF2 : fexp (Zdigits2 m2 + F) = Zdigits2 m2 + F - prec).
    { apply fexp_above. pose proof (fexp_ge_emin (Zpos (digits2_pos M) + e)). fold F in H.
      unfold n2 in Hn2. lia. }
    assert (Hn2' : n2 = Zdigits2 m2 - prec) by (unfold n2; lia).
    destruct (Zdigits2_shr m2 n2 Hm2 ltac:(lia) ltac:(lia)) as [Hd3 Hp3].
    rewrite Hm3. split; [lia|]. split; [lia|]. split; [|split; intros; lia].
    intros _. rewrite Hd3. subst e3.
    replace (Zdigits2 m2 - n2 + (F + n2)) with (Zdigits2 m2 + F) by lia.
    unfold n2. lia.
Qed.

(** Rounding yields a value of the format. *)
Lemma binary_round_aux_valid (s : bool) (M : positive) (e : Z) :
  e <= fexp (Zpos (digits2_pos M) + e) ->
  valid_binary prec emax (binary_round_aux prec emax s (Zpos M) e loc_Exact) = true.
Proof using Hprec.
  intros HeF.
  destruct (binary_round_aux_exact s M e HeF) as (m3 & e3 & -> & _ & _ & Hcanon & _).
  destruct m3 as [|p|p]; [reflexivity| |reflexivity].
  destruct (Z.leb_spec e3 (emax - prec)) as [Hle|]; [|reflexivity].
  cbn [valid_binary]. unfold bounded, canonical_mantissa.
  specialize (Hcanon ltac:(lia)). cbn [Zdigits2] in Hcanon.
  rewrite Hcanon, Z.eqb_refl. cbn [andb]. apply Z.leb_le. exact Hle.
Qed.

Lemma shl_align_fexp_spec (M : positive) (e : Z) :
  let r := shl_align M e (fexp (Zpos (digits2_pos M) + e)) in
  snd r = Z.min e (fexp (Zpos (digits2_pos M) + e)) /\
  Zpos (fst r) = Zpos M * 2 ^ (e - snd r) /\
  Zpos (digits2_pos (fst r)) + snd r = Zpos (digits2_pos M) + e.
Proof using.
  cbn zeta.
  destruct (shl_align_spec M e (fexp (Zpos (digits2_pos M) + e))) as [He Hm].
  split; [exact He|]. split; [exact Hm|].
  change (Zpos (digits2_pos (fst (shl_align M e (fexp (Zpos (digits2_pos M) + e))))))
    with (Zdigits2 (Zpos (fst (shl_align M e (fexp (Zpos (digits2_pos M) + e)))))).
  rewrite Hm, Zdigits2_shl by lia. cbn [Zdigits2]. lia.
Qed.

Lemma binary_round_valid (s : bool) (M : positive) (e : Z) :
  valid_binary prec emax (binary_round prec emax s M e) = true.
Proof using Hprec.
  unfold binary_round.
  destruct (shl_align_fexp_spec M e) as (He & Hm & Hd). cbn zeta in He, Hm, Hd.
  destruct (shl_align M e (fexp (Zpos (digits2_pos M) + e))) as [mz ez].
  cbn [fst snd] in He, Hm, Hd.
  apply binary_round_aux_valid. rewrite Hd. lia.
Qed.

Lemma binary_normalize_valid (m e : Z) (szero : bool) :
  valid_binary prec emax (binary_normalize prec emax m e szero) = true.
Proof using Hprec.
  destruct m; cbn [binary_normalize]; [reflexivity| |]; apply binary_round_valid.
Qed.
End Rounding.

(** ** IEEE 754: addition never goes down, and results stay in the format *)

Section Arithmetic.
Variables prec emax : Z.
Hypothesis Hprec : 0 < prec.
Hypothesis Hemax : prec < emax.

Abbreviation fexp' := (SpecFloat.fexp prec emax).
Abbreviation emin' := (SpecFloat.emin prec emax).

Lemma bounded_canonical (m : positive) (e : Z) :
  bounded prec emax m e = true ->
  fexp' (Zpos (digits2_pos m) + e) = e /\ e <= emax - prec.
Proof using Hprec Hemax.
  unfold bounded, canonical_mantissa. intros H.
  apply andb_prop in H as [H1 H2]. split; [apply Z.eqb_eq | apply Z.leb_le]; assumption.
Qed.

(** A positive number rounds to a number that is not below a number of
    the format it is not below. *)
Lemma binary_round_lower (M mx : positive) (e ex : Z) :
  fexp' (Zpos (digits2_pos mx) + ex) = ex ->
  e <= ex -> Zpos mx * 2 ^ (ex - e) <= Zpos M ->
  match binary_round prec emax false M e with
  | S754_infinity false => True
  | S754_finite false m' e' => ex < e' \/ (ex = e' /\ Zpos mx <= Zpos m')
  | _ => False
  end.
Proof using Hprec Hemax.
  intros Hcx Hex Hle.
  assert (Hpow : 0 < 2 ^ (ex - e)) by (apply Z.pow_pos_nonneg; lia).
  assert (Hdig : Zpos (digits2_pos mx) + ex <= Zpos (digits2_pos M) + e).
  { pose proof (Zdigits2_mono (Zpos mx * 2 ^ (ex - e)) (Zpos M) ltac:(nia)) as H.
    rewrite Zdigits2_shl in H by lia. cbn [Zdigits2] in H. lia. }
  unfold binary_round.
  destruct (shl_align_fexp_spec prec emax M e) as (He & Hm & Hd). cbn zeta in He, Hm, Hd.
  destruct (shl_align M e (fexp' (Zpos (digits2_pos M) + e))) as [mz ez].
  cbn [fst snd] in He, Hm, Hd.
  assert (HF : ex <= fexp' (Zpos (digits2_pos M) + e)).
  { rewrite <- Hcx at 1. apply fexp_mono. exact Hdig. }
  destruct (binary_round_aux_exact prec emax Hprec false mz ez ltac:(rewrite Hd; lia))
    as (m3 & e3 & -> & Hm3 & He3 & _ & Hlow & Hpos).
  rewrite Hd in He3, Hlow, Hpos.
  set (F := fexp' (Zpos (digits2_pos M) + e)) in *.
  assert (Hshift : F - ez < Zdigits2 (Zpos mz)).
  { cbn [Zdigits2].
    pose proof (fexp_ge_emin prec emax (Zpos (digits2_pos mx) + ex)) as Hmin.
    rewrite Hcx in Hmin.
    assert (F < Zpos (digits2_pos M) + e); [|lia].
    unfold F, SpecFloat.fexp. lia. }
  destruct (Zdigits2_shr (Zpos mz) (F - ez) ltac:(lia) ltac:(lia) Hshift) as [_ Hm1].
  specialize (Hpos Hm1).
  destruct m3 as [|p|p]; try lia.
  destruct (Z.leb_spec e3 (emax - prec)); [|exact I].
  destruct (Z.eq_dec e3 ex) as [Heq|Hne]; [right|left; lia].
  split; [lia|].
  assert (HFex : F = ex) by lia.
  specialize (Hlow ltac:(lia)).
  assert (Hez : ez = e) by lia.
  rewrite Hez in Hm, Hlow. replace (e - e) with 0 in Hm by lia.
  rewrite Z.pow_0_r, Z.mul_1_r in Hm. rewrite Hm, HFex in Hlow.
  eapply Z.le_trans; [|exact Hlow].
  apply Z.div_le_lower_bound; lia.
Qed.

Lemma SFcompare_refl (m : positive) (e : Z) :
  SFcompare (S754_finite false m e) (S754_finite false m e) = Some Eq.
Proof using Hprec Hemax.
  cbn. rewrite Z.compare_refl. rewrite Pos.compare_cont_refl. reflexivity.
Qed.

(** Adding a number that is not negative does not make a number of the
    format smaller, unless the sum is NaN. *)
Lemma SFadd_nonneg_le (x y : spec_float) :
  valid_binary prec emax x = true ->
  IEEE.nonneg x = true -> IEEE.nonneg y = true ->
  SFleb x (SFadd prec emax x y) = true.
Proof using Hprec Hemax.
  intros Hvx Hx Hy.
  destruct x as [sx|sx| |sx mx ex]; cbn [IEEE.nonneg] in Hx; try discriminate;
    destruct sx; try discriminate;
    destruct y as [sy|sy| |sy my ey]; cbn [IEEE.nonneg] in Hy; try discriminate;
    destruct sy; try discriminate; try reflexivity.
  - cbn [SFadd]. unfold SFleb. rewrite SFcompare_refl. reflexivity.
  - cbn [valid_binary] in Hvx. apply bounded_canonical in Hvx as [Hcx _].
    cbn [SFadd cond_Zopp].
    destruct (shl_align_spec mx ex (Z.min ex ey)) as [He1 Hm1].
    destruct (shl_align_spec my ey (Z.min ex ey)) as [He2 Hm2].
    cbn zeta in He1, Hm1, He2, Hm2.
    destruct (shl_align mx ex (Z.min ex ey)) as [mx' ex'].
    destruct (shl_align my ey (Z.min ex ey)) as [my' ey'].
    cbn [fst snd] in *.
    change (Zpos mx' + Zpos my') with (Zpos (mx' + my')).
    cbn [binary_normalize].
    pose proof (binary_round_lower (mx' + my') mx (Z.min ex ey) ex Hcx ltac:(lia)) as Hlow.
    assert (Hle : Zpos mx * 2 ^ (ex - Z.min ex ey) <= Zpos (mx' + my')).
    { rewrite Pos2Z.inj_add, Hm1. replace ex' with (Z.min ex ey) by lia. lia. }
    specialize (Hlow Hle).
    destruct (binary_round prec emax false (mx' + my') (Z.min ex ey)) as [s|s| |s m' e'];
      try contradiction; destruct s; try contradiction; [reflexivity|].
    unfold SFleb. cbn [SFcompare].
    destruct Hlow as [Hlt|[Heq Hm]].
    + apply Z.compare_lt_iff in Hlt. rewrite Hlt. reflexivity.
    + subst e'. rewrite Z.compare_refl.
      change (Pos.compare_cont Eq mx m') with (Pos.compare mx m').
      destruct (Pos.compare_spec mx m'); try reflexivity. lia.
Qed.

Lemma SFadd_valid (x y : spec_float) :
  valid_binary prec emax x = true -> valid_binary prec emax y = true ->
  valid_binary prec emax (SFadd prec emax x y) = true.
Proof using Hprec Hemax.
  intros Hx Hy.
  destruct x as [sx|sx| |sx mx ex], y as [sy|sy| |sy my ey]; cbn [SFadd];
    try reflexivity; try assumption;
    try (destruct sx, sy; reflexivity).
  apply binary_normalize_valid. exact Hprec.
Qed.

Lemma SFsub_valid (x y : spec_float) :
  valid_binary prec emax x = true -> valid_binary prec emax y = true ->
  valid_binary prec emax (SFsub prec emax x y) = true.
Proof using Hprec Hemax.
  intros Hx Hy.
  destruct x as [sx|sx| |sx mx ex], y as [sy|sy| |sy my ey]; cbn [SFsub];
    try reflexivity; try assumption;
    try (destruct sx, sy; reflexivity).
  apply binary_normalize_valid. exact Hprec.
Qed.

(** The exponent of a product of two numbers of the format is not above
    the exponent the format gives to the product. *)
Lemma mul_exponent_ok (mx my : positive) (ex ey : Z) :
  bounded prec emax mx ex = true -> bounded prec emax my ey = true ->
  ex + ey <= fexp' (Zpos (digits2_pos (mx * my)) + (ex + ey)).
Proof using Hprec Hemax.
  intros Hx Hy.
  apply bounded_canonical in Hx as [Hcx _]. apply bounded_canonical in Hy as [Hcy _].
  pose proof (digits2_bounds mx) as [Hlx _]. pose proof (digits2_bounds my) as [Hly _].
  assert (Hprod : 2 ^ (Zpos (digits2_pos mx) - 1 + (Zpos (digits2_pos my) - 1))
                  <= Zpos (mx * my)).
  { rewrite Z.pow_add_r by lia. rewrite Pos2Z.inj_mul.
    assert (0 < 2 ^ (Zpos (digits2_pos mx) - 1)) by (apply Z.pow_pos_nonneg; lia).
    assert (0 < 2 ^ (Zpos (digits2_pos my) - 1)) by (apply Z.pow_pos_nonneg; lia).
    nia. }
  apply Zdigits2_lower in Hprod; [|lia]. cbn [Zdigits2] in Hprod.
  revert Hcx Hcy. unfold SpecFloat.fexp, SpecFloat.emin. lia.
Qed.

Lemma SFmul_valid (x y : spec_float) :
  valid_binary prec emax x = true -> valid_binary prec emax y = true ->
  valid_binary prec emax (SFmul prec emax x y) = true.
Proof using Hprec Hemax.
  intros Hx Hy.
  destruct x as [sx|sx| |sx mx ex], y as [sy|sy| |sy my ey]; cbn [SFmul];
    try reflexivity.
  cbn [valid_binary] in Hx, Hy.
  apply binary_round_aux_valid; [exact Hprec|].
  apply mul_exponent_ok; assumption.
Qed.

(** *** Results that are not NaN *)

Lemma binary_round_aux_not_nan (s : bool) (M : positive) (e : Z) :
  e <= fexp' (Zpos (digits2_pos M) + e) ->
  IEEE.is_nan (binary_round_aux prec emax s (Zpos M) e loc_Exact) = false.
Proof using Hprec Hemax.
  intros HeF.
  destruct (binary_round_aux_exact prec emax Hprec s M e HeF) as (m3 & e3 & -> & Hm3 & _).
  destruct m3 as [|p|p]; [reflexivity| |lia].
  destruct (e3 <=? emax - prec); reflexivity.
Qed.

Lemma binary_round_not_nan (s : bool) (M : positive) (e : Z) :
  IEEE.is_nan (binary_round prec emax s M e) = false.
Proof using Hprec Hemax.
  unfold binary_round.
  destruct (shl_align_fexp_spec prec emax M e) as (He & Hm & Hd). cbn zeta in He, Hm, Hd.
  destruct (shl_align M e (fexp' (Zpos (digits2_pos M) + e))) as [mz ez].
  cbn [fst snd] in He, Hm, Hd.
  apply binary_round_aux_not_nan. rewrite Hd. lia.
Qed.

Lemma binary_normalize_not_nan (m e : Z) (szero : bool) :
  IEEE.is_nan (binary_normalize prec emax m e szero) = false.
Proof using Hprec Hemax.
  destruct m; cbn [binary_normalize]; [reflexivity| |]; apply binary_round_not_nan.
Qed.

Lemma SFsub_finite (x y : spec_float) :
  IEEE.is_finite x = true -> IEEE.is_finite y = true ->
  IEEE.is_nan (SFsub prec emax x y) = false.
Proof using Hprec Hemax.
  intros Hx Hy.
  destruct x as [sx|sx| |sx mx ex]; try discriminate Hx;
    destruct y as [sy|sy| |sy my ey]; try discriminate Hy; cbn [SFsub];
    try reflexivity; try (destruct sx, sy; reflexivity).
  apply binary_normalize_not_nan.
Qed.

Lemma SFadd_nonneg_not_nan (x y : spec_float) :
  IEEE.nonneg x = true -> IEEE.nonneg y = true ->
  IEEE.is_nan (SFadd prec emax x y) = false.
Proof using Hprec Hemax.
  intros Hx Hy.
  destruct x as [sx|sx| |sx mx ex]; cbn in Hx; try destruct sx; try discriminate;
    destruct y as [sy|sy| |sy my ey]; cbn in Hy; try destruct sy; try discriminate;
    try reflexivity.
  cbn [SFadd]. apply binary_normalize_not_nan.
Qed.

Lemma SFmul_self_not_nan (x : spec_float) :
  valid_binary prec emax x = true -> IEEE.is_nan x = false ->
  IEEE.is_nan (SFmul prec emax x x) = false.
Proof using Hprec Hemax.
  intros Hv Hx.
  destruct x as [s|s| |s m e]; try discriminate Hx; cbn [SFmul]; try reflexivity.
  apply binary_round_aux_not_nan. apply mul_exponent_ok; exact Hv.
Qed.

(** *** Signs *)

Lemma binary_round_aux_sign (s : bool) (m e : Z) (l : location) :
  match binary_round_aux prec emax s m e l with
  | S754_zero s' | S754_infinity s' | S754_finite s' _ _ => s' = s
  | S754_nan => True
  end.
Proof using Hprec Hemax.
  unfold binary_round_aux.
  destruct (shr_fexp prec emax m e l) as [mrs1 e1].
  destruct (shr_fexp prec emax _ e1 loc_Exact) as [mrs2 e2].
  destruct (shr_m mrs2); try reflexivity.
  destruct (e2 <=? emax - prec); reflexivity.
Qed.

Lemma binary_round_sign (s : bool) (m : positive) (e : Z) :
  match binary_round prec emax s m e with
  | S754_zero s' | S754_infinity s' | S754_finite s' _ _ => s' = s
  | S754_nan => True
  end.
Proof using Hprec Hemax.
  unfold binary_round. destruct (shl_align m e _) as [mz ez].
  apply binary_round_aux_sign.
Qed.

Lemma SFmul_self_not_negative (x : spec_float) :
  IEEE.is_nan (SFmul prec emax x x) || IEEE.nonneg (SFmul prec emax x x) = true.
Proof using Hprec Hemax.
  destruct x as [s|s| |s m e]; cbn [SFmul]; try (destruct s; reflexivity); try reflexivity.
  pose proof (binary_round_aux_sign (xorb s s) (Zpos (m * m)) (e + e) loc_Exact) as H.
  destruct (binary_round_aux prec emax (xorb s s) (Zpos (m * m)) (e + e) loc_Exact);
    cbn [IEEE.is_nan IEEE.nonneg orb]; try reflexivity; subst; destruct s; reflexivity.
Qed.

Lemma SFadd_not_negative (x y : spec_float) :
  IEEE.is_nan x || IEEE.nonneg x = true ->
  IEEE.is_nan y || IEEE.nonneg y = true ->
  IEEE.is_nan (SFadd prec emax x y) || IEEE.nonneg (SFadd prec emax x y) = true.
Proof using Hprec Hemax.
  intros Hx Hy.
  destruct x as [sx|sx| |sx mx ex]; cbn in Hx; try destruct sx; try discriminate;
    destruct y as [sy|sy| |sy my ey]; cbn in Hy; try destruct sy; try discriminate;
    try reflexivity.
  cbn [SFadd cond_Zopp].
  change (Zpos (fst (shl_align mx ex (Z.min ex ey))) + Zpos (fst (shl_align my ey (Z.min ex ey))))
    with (Zpos (fst (shl_align mx ex (Z.min ex ey)) + fst (shl_align my ey (Z.min ex ey)))).
  cbn [binary_normalize].
  match goal with
  | |- context [binary_round prec emax false ?m ?e] =>
      pose proof (binary_round_sign false m e) as H;
      destruct (binary_round prec emax false m e)
  end; cbn [IEEE.is_nan IEEE.nonneg orb]; try reflexivity; subst; reflexivity.
Qed.

(** A sum of numbers that are not negative is NaN only when one of them is. *)
Lemma SFadd_not_nan (x y : spec_float) :
  IEEE.is_nan x || IEEE.nonneg x = true ->
  IEEE.is_nan y || IEEE.nonneg y = true ->
  IEEE.is_nan (SFadd prec emax x y) = false ->
  IEEE.nonneg x = true /\ IEEE.nonneg y = true.
Proof using Hprec Hemax.
  intros Hx Hy Hn.
  destruct x as [sx|sx| |sx mx ex]; cbn in Hx; try destruct sx; try discriminate;
    destruct y as [sy|sy| |sy my ey]; cbn in Hy; try destruct sy; try discriminate;
    cbn in Hn; try discriminate; split; reflexivity.
Qed.
End Arithmetic.

(** ** The totals under the kernel *)

Lemma call_filter_ty (f : filter_fn) : call_filter f = SDR_FILTER (ty_of f).
Proof. destruct f; reflexivity. Qed.

Lemma prec32_pos : 0 < IEEE.prec32.
Proof. reflexivity. Qed.

Lemma prec64_pos : 0 < IEEE.prec64.
Proof. reflexivity. Qed.

Lemma prec32_emax : IEEE.prec32 < IEEE.emax32.
Proof. reflexivity. Qed.

Lemma prec64_emax : IEEE.prec64 < IEEE.emax64.
Proof. reflexivity. Qed.

Lemma SFleb_refl (x : spec_float) : IEEE.is_nan x = false -> IEEE.leb x x = true.
Proof.
  destruct x as [s|s| |s m e]; cbn; try discriminate; intros _; try (destruct s; reflexivity).
  unfold IEEE.leb, SFleb. cbn [SFcompare]. rewrite Z.compare_refl.
  change (Pos.compare_cont Eq m m) with (Pos.compare m m). rewrite Pos.compare_refl.
  destruct s; reflexivity.
Qed.

Lemma total_ok_nan : total_ok S754_nan.
Proof. split; reflexivity. Qed.

Lemma total_ok_zero : total_ok IEEE.zero.
Proof. split; reflexivity. Qed.

Lemma total_ok_add (x y : spec_float) : total_ok x -> total_ok y -> total_ok (IEEE.add64 x y).
Proof.
  intros [Hvx Hx] [Hvy Hy]. split.
  - apply SFadd_valid; [exact prec64_pos | exact prec64_emax | exact Hvx | exact Hvy].
  - apply SFadd_not_negative; [exact prec64_pos | exact prec64_emax | exact Hx | exact Hy].
Qed.

Lemma nonneg_not_nan (x : spec_float) : IEEE.nonneg x = true -> IEEE.is_nan x = false.
Proof. destruct x; cbn; congruence. Qed.

Lemma total_add_grows (x d : spec_float) :
  total_ok x -> total_ok d ->
  IEEE.is_nan (IEEE.add64 x d) = false ->
  IEEE.is_nan x = false /\ IEEE.leb x (IEEE.add64 x d) = true.
Proof.
  intros [Hvx Hx] [_ Hd] Hn.
  destruct (SFadd_not_nan IEEE.prec64 IEEE.emax64 prec64_pos prec64_emax x d Hx Hd Hn)
    as [Hx' Hd'].
  split; [apply nonneg_not_nan; exact Hx'|].
  apply SFadd_nonneg_le; [exact prec64_pos | exact prec64_emax | exact Hvx | exact Hx' | exact Hd'].
Qed.

Lemma float_to_double_ok (x : spec_float) :
  IEEE.is_nan x || IEEE.nonneg x = true -> total_ok (IEEE.float_to_double x).
Proof.
  intros Hx. split.
  - destruct x; cbn [IEEE.float_to_double]; try reflexivity.
    apply binary_normalize_valid. exact prec64_pos.
  - destruct x as [s|s| |s m e]; cbn [IEEE.float_to_double]; try exact Hx.
    cbn in Hx. destruct s; [discriminate|]. cbn [cond_Zopp binary_normalize].
    pose proof (binary_round_sign IEEE.prec64 IEEE.emax64 prec64_pos prec64_emax false m e) as H.
    destruct (binary_round IEEE.prec64 IEEE.emax64 false m e);
      cbn [IEEE.is_nan IEEE.nonneg orb]; try reflexivity; subst; reflexivity.
Qed.

(** The square of a sample, as the kernel adds it to a local sum. *)
Lemma square_ok (f : filter_fn) (a : spec_float) :
  sample_valid f a = true ->
  total_ok (ty_to_double (ty_of f) (ty_mul (ty_of f) a a)).
Proof.
  intros Ha. destruct f; cbn [ty_of c_float c_double ty_to_double ty_mul].
  - apply float_to_double_ok. apply SFmul_self_not_negative; [exact prec32_pos | exact prec32_emax].
  - split.
    + apply SFmul_valid; [exact prec64_pos | exact prec64_emax | exact Ha | exact Ha].
    + apply SFmul_self_not_negative; [exact prec64_pos | exact prec64_emax].
Qed.

Lemma difference_valid (f : filter_fn) (a b : spec_float) :
  sample_valid f a = true -> sample_valid f b = true ->
  sample_valid f (ty_sub (ty_of f) a b) = true.
Proof.
  intros Ha Hb. destruct f; cbn [ty_of c_float c_double ty_sub sample_valid] in *.
  - apply SFsub_valid; [exact prec32_pos | exact prec32_emax | exact Ha | exact Hb].
  - apply SFsub_valid; [exact prec64_pos | exact prec64_emax | exact Ha | exact Hb].
Qed.

Lemma arr_get_valid (f : filter_fn) (p : list spec_float) (n : Z) :
  Forall (fun x => sample_valid f x = true) p -> sample_valid f (arr_get p n) = true.
Proof.
  intros Hp. unfold arr_get. destruct (p !! Z.to_nat n) as [x|] eqn:Hx; cbn [default].
  - eapply Forall_lookup_1 in Hp; [exact Hp | exact Hx].
  - destruct f; reflexivity.
Qed.

Lemma plane_valid (f : filter_fn) (fr : AVFrame) (ch : Z) :
  block_ok f fr -> Forall (fun x => sample_valid f x = true) (plane fr ch).
Proof.
  intros [_ Hfr]. unfold plane.
  destruct (extended_data fr !! Z.to_nat ch) as [p|] eqn:Hp; cbn [default].
  - eapply Forall_lookup_1 in Hfr; [exact Hfr | exact Hp].
  - constructor.
Qed.

Lemma local_sums_ok (f : filter_fn) (u v : AVFrame) (ch : Z) :
  block_ok f u -> block_ok f v ->
  total_ok (fst (local_sums (ty_of f) u v ch)) /\ total_ok (snd (local_sums (ty_of f) u v ch)).
Proof.
  intros Hu Hv. unfold local_sums, for_loop.
  pose proof (plane_valid f u ch Hu) as Hus. pose proof (plane_valid f v ch Hv) as Hvs.
  generalize (seqZ 0 (nb_samples u - 0)). intros idx.
  assert (Hinit : total_ok (fst (IEEE.zero, IEEE.zero)) /\ total_ok (snd (IEEE.zero, IEEE.zero)))
    by (split; exact total_ok_zero).
  revert Hinit. generalize (IEEE.zero, IEEE.zero).
  induction idx as [|n idx IH]; intros acc Hacc; cbn [fold_left]; [exact Hacc|].
  apply IH. destruct Hacc as [Ha Hb]. unfold sample_step. cbn [fst snd]. split.
  - apply total_ok_add; [exact Ha|]. apply square_ok. apply arr_get_valid. exact Hus.
  - apply total_ok_add; [exact Hb|]. apply square_ok.
    apply difference_valid; apply arr_get_valid; assumption.
Qed.

Lemma totals_grow_refl (a : list spec_float) : totals_grow a a.
Proof.
  intros i x Hx. exists x. split; [exact Hx|].
  intros Hn. split; [exact Hn | apply SFleb_refl; exact Hn].
Qed.

(** The channel loop keeps the totals well formed and lets none go down. *)
Lemma channel_loop_totals (f : filter_fn) (u v : AVFrame) (chs : list Z)
    (sums : list spec_float * list spec_float) :
  NoDup chs -> Forall (fun c => 0 <= c) chs ->
  block_ok f u -> block_ok f v ->
  Forall total_ok (fst sums) -> Forall total_ok (snd sums) ->
  let r := channel_loop (ty_of f) u v chs sums in
  (Forall total_ok (fst r) /\ Forall total_ok (snd r)) /\
  totals_grow (fst sums) (fst r) /\ totals_grow (snd sums) (snd r).
Proof.
  intros Hnd Hpos Hu Hv Hsu Hsuv. cbn zeta.
  assert (Hlook := channel_loop_lookup (ty_of f) u v chs Hnd Hpos sums).
  cbn zeta in Hlook. fold (channel_loop (ty_of f) u v chs sums) in Hlook.
  set (r := channel_loop (ty_of f) u v chs sums) in *.
  assert (Hloc := fun ch => local_sums_ok f u v ch Hu Hv).
  split; [split|split].
  - apply Forall_lookup_2. intros i y Hy. destruct (Hlook i) as [Hi _]. rewrite Hi in Hy.
    destruct (decide (Z.of_nat i ∈ chs)).
    + destruct (fst sums !! i) as [x|] eqn:Hx; [|discriminate].
      cbn in Hy. injection Hy as <-.
      apply total_ok_add; [|apply Hloc]. eapply Forall_lookup_1 in Hsu; eassumption.
    + eapply Forall_lookup_1 in Hsu; eassumption.
  - apply Forall_lookup_2. intros i y Hy. destruct (Hlook i) as [_ Hi]. rewrite Hi in Hy.
    destruct (decide (Z.of_nat i ∈ chs)).
    + destruct (snd sums !! i) as [x|] eqn:Hx; [|discriminate].
      cbn in Hy. injection Hy as <-.
      apply total_ok_add; [|apply Hloc]. eapply Forall_lookup_1 in Hsuv; eassumption.
    + eapply Forall_lookup_1 in Hsuv; eassumption.
  - intros i x Hx. destruct (Hlook i) as [Hi _]. rewrite Hi, Hx.
    assert (Hox : total_ok x) by (eapply Forall_lookup_1 in Hsu; eassumption).
    destruct (decide (Z.of_nat i ∈ chs)).
    + eexists. split; [reflexivity|]. apply total_add_grows; [exact Hox | apply Hloc].
    + exists x. split; [reflexivity|].
      intros Hn. split; [exact Hn | apply SFleb_refl; exact Hn].
  - intros i x Hx. destruct (Hlook i) as [_ Hi]. rewrite Hi, Hx.
    assert (Hox : total_ok x) by (eapply Forall_lookup_1 in Hsuv; eassumption).
    destruct (decide (Z.of_nat i ∈ chs)).
    + eexists. split; [reflexivity|]. apply total_add_grows; [exact Hox | apply Hloc].
    + exists x. split; [reflexivity|].
      intros Hn. split; [exact Hn | apply SFleb_refl; exact Hn].
Qed.

Lemma execute_sched_no_block (ty : sample_type) (sched : list Z) (nb_jobs : Z)
    (s : AudioSDRContext) :
  fst (cache s) = None \/ snd (cache s) = None ->
  execute_sched sched (SDR_FILTER ty) nb_jobs s = s.
Proof.
  intros Hc. unfold execute_sched. induction sched as [|j sched IH]; cbn [fold_left].
  - reflexivity.
  - rewrite SDR_FILTER_no_block by exact Hc. exact IH.
Qed.

(** The jobs of one step keep the totals well formed and let none go down. *)
Lemma ff_filter_execute_totals (fo : option filter_fn) (nb_jobs : Z) (s : AudioSDRContext) :
  acc_ok s ->
  (forall f u v, fo = Some f -> cache s = (Some u, Some v) -> block_ok f u /\ block_ok f v) ->
  let s' := ff_filter_execute fo nb_jobs s in
  acc_ok s' /\ totals_grow (sum_u s) (sum_u s') /\ totals_grow (sum_uv s) (sum_uv s').
Proof.
  intros [Hu Huv] Hblocks. cbn zeta.
  assert (Hsame : acc_ok s /\ totals_grow (sum_u s) (sum_u s) /\
                  totals_grow (sum_uv s) (sum_uv s)).
  { split; [split; assumption|]. split; apply totals_grow_refl. }
  destruct fo as [f|]; cbn [ff_filter_execute]; [|exact Hsame].
  rewrite call_filter_ty.
  destruct (cache s) as [[u|] [v|]] eqn:Hc;
    try (rewrite execute_sched_no_block by (rewrite Hc; cbn; auto); exact Hsame).
  destruct (Hblocks f u v eq_refl eq_refl) as [Hbu Hbv].
  rewrite (execute_sched_eq (ty_of f) _ nb_jobs u v s Hc). cbn zeta.
  unfold acc_ok, set_sums. cbn [sum_u sum_uv].
  apply channel_loop_totals; try assumption.
  - destruct (Z.lt_ge_cases 0 nb_jobs) as [HN|HN].
    + rewrite ranges_cover by (destruct Hbu; lia). apply NoDup_seqZ.
    + rewrite seqZ_nil by lia. constructor.
  - destruct (Z.lt_ge_cases 0 nb_jobs) as [HN|HN].
    + rewrite ranges_cover by (destruct Hbu; lia). apply Forall_seqZ. intros; lia.
    + rewrite seqZ_nil by lia. constructor.
Qed.

(** ** The totals under [activate] *)

Section ActivateTotals.
Context {Link : Type} {API : FilterAPI Link}.

(** A step either leaves the totals alone or is a step that measures. *)
Lemma activate_totals_cases (ctx : AVFilterContext Link) :
  (sum_u (priv (snd (activate ctx))) = sum_u (priv ctx) /\
   sum_uv (priv (snd (activate ctx))) = sum_uv (priv ctx)) \/
  (goes_on ctx /\ available ctx > 0 /\ is_disabled ctx = 0 /\
   exists (r0 r1 : Z) (f0 f1 : option AVFrame) (l0 l1 : Link),
     ff_inlink_consume_samples (fst (inputs ctx)) (available ctx) (available ctx)
       = (r0, f0, l0) /\
     ff_inlink_consume_samples (snd (inputs ctx)) (available ctx) (available ctx)
       = (r1, f1, l1) /\
     sum_u (priv (snd (activate ctx))) = sum_u (measured ctx f0 f1 l0 l1) /\
     sum_uv (priv (snd (activate ctx))) = sum_uv (measured ctx f0 f1 l0 l1)).
Proof.
  destruct (FF_FILTER_FORWARD_STATUS_BACK_ALL (outputs ctx) (inputs ctx)) as [ins|] eqn:Hgo.
  { left. rewrite (activate_status_back ctx ins Hgo). split; reflexivity. }
  destruct (Z_gt_le_dec (available ctx) 0) as [Hav|Hav].
  - destruct (ff_inlink_consume_samples (fst (inputs ctx)) (available ctx) (available ctx))
      as [[r0 f0] l0] eqn:H0.
    destruct (Z_lt_le_dec r0 0) as [Hr0|Hr0].
    { left. rewrite (activate_fail_first ctx r0 f0 l0) by assumption. split; reflexivity. }
    destruct (ff_inlink_consume_samples (snd (inputs ctx)) (available ctx) (available ctx))
      as [[r1 f1] l1] eqn:H1.
    destruct (Z_lt_le_dec r1 0) as [Hr1|Hr1].
    { left. rewrite (activate_fail_second ctx r0 r1 f0 f1 l0 l1) by assumption.
      split; reflexivity. }
    rewrite (activate_blocks ctx r0 r1 f0 f1 l0 l1) by assumption.
    cbn [snd priv].
    destruct (Z.eq_dec (is_disabled ctx) 0) as [Hdis|Hdis].
    + right. split; [exact Hgo|]. split; [exact Hav|]. split; [exact Hdis|].
      exists r0, r1, f0, f1, l0, l1. repeat split.
    + left. unfold measured. destruct (Z.eqb_spec (is_disabled ctx) 0); [contradiction|].
      split; reflexivity.
  - left.
    destruct (ff_inlink_acknowledge_status (fst (inputs ctx))) as [[[r0 st0] pts0] l0] eqn:H0.
    destruct (Z.eq_dec r0 0) as [->|Hr0].
    + destruct (ff_inlink_acknowledge_status (snd (inputs ctx)))
        as [[[r1 st1] pts1] l1] eqn:H1.
      destruct (Z.eq_dec r1 0) as [->|Hr1].
      * rewrite (activate_no_status ctx st0 pts0 st1 pts1 l0 l1) by assumption.
        destruct (ff_outlink_frame_wanted (outputs ctx) =? 0); split; reflexivity.
      * rewrite (activate_status_second ctx st0 pts0 r1 st1 pts1 l0 l1) by assumption.
        split; reflexivity.
    + rewrite (activate_status_first ctx r0 st0 pts0 l0) by assumption. split; reflexivity.
Qed.

Lemma activate_totals (ctx : AVFilterContext Link) :
  acc_ok (priv ctx) -> delivers_ok ctx ->
  acc_ok (priv (snd (activate ctx))) /\
  totals_grow (sum_u (priv ctx)) (sum_u (priv (snd (activate ctx)))) /\
  totals_grow (sum_uv (priv ctx)) (sum_uv (priv (snd (activate ctx)))).
Proof.
  intros Hok Hdel.
  destruct (activate_totals_cases ctx) as [[Hu Huv]|Hmeasure].
  - unfold acc_ok. rewrite Hu, Huv. destruct Hok as [H1 H2].
    split; [split; assumption|]. split; apply totals_grow_refl.
  - destruct Hmeasure as (Hgo & Hav & Hdis & r0 & r1 & f0 & f1 & l0 & l1 & H0 & H1 & Hu & Huv).
    unfold acc_ok. rewrite Hu, Huv.
    unfold measured. destruct (Z.eqb_spec (is_disabled ctx) 0) as [_|]; [|contradiction].
    match goal with
    | |- context [ff_filter_execute ?fo ?n ?s1] =>
        pose proof (ff_filter_execute_totals fo n s1) as Hex
    end.
    cbn zeta in Hex. apply Hex.
    + exact Hok.
    + cbn [set_cache filter cache]. intros f u v Hf Hc. injection Hc as -> ->.
      exact (Hdel f r0 r1 u v l0 l1 Hf H0 H1).
Qed.

Lemma config_output_totals (ok_u ok_uv : bool) (ctx : AVFilterContext Link) :
  acc_ok (priv (snd (config_output ok_u ok_uv ctx))).
Proof.
  unfold config_output, acc_ok, av_calloc, store_ptr.
  destruct ok_u, ok_uv; cbn; split;
    try constructor; apply Forall_replicate; exact total_ok_zero.
Qed.
End ActivateTotals.

(** ** Blocks of finite samples never make a total NaN *)

Lemma total_ok_nonneg (x : spec_float) :
  total_ok x -> IEEE.is_nan x = false -> IEEE.nonneg x = true.
Proof.
  intros [_ Hx] Hn. rewrite Hn in Hx. exact Hx.
Qed.

Lemma total_add_stays (x d : spec_float) :
  total_ok x -> total_ok d -> IEEE.is_nan x = false -> IEEE.is_nan d = false ->
  IEEE.is_nan (IEEE.add64 x d) = false.
Proof.
  intros Hx Hd Hnx Hnd.
  apply SFadd_nonneg_not_nan; [exact prec64_pos | exact prec64_emax | |];
    apply total_ok_nonneg; assumption.
Qed.

Lemma float_to_double_not_nan (x : spec_float) :
  IEEE.is_nan x = false -> IEEE.is_nan (IEEE.float_to_double x) = false.
Proof.
  destruct x; cbn [IEEE.float_to_double]; try (intros H; exact H).
  intros _. apply binary_normalize_not_nan; [exact prec64_pos | exact prec64_emax].
Qed.

Lemma square_not_nan (f : filter_fn) (a : spec_float) :
  sample_valid f a = true -> IEEE.is_nan a = false ->
  IEEE.is_nan (ty_to_double (ty_of f) (ty_mul (ty_of f) a a)) = false.
Proof.
  intros Hv Ha. destruct f; cbn [ty_of c_float c_double ty_to_double ty_mul].
  - apply float_to_double_not_nan.
    apply SFmul_self_not_nan; [exact prec32_pos | exact prec32_emax | exact Hv | exact Ha].
  - apply SFmul_self_not_nan; [exact prec64_pos | exact prec64_emax | exact Hv | exact Ha].
Qed.

Lemma difference_not_nan (f : filter_fn) (a b : spec_float) :
  IEEE.is_finite a = true -> IEEE.is_finite b = true ->
  IEEE.is_nan (ty_sub (ty_of f) a b) = false.
Proof.
  intros Ha Hb. destruct f; cbn [ty_of c_float c_double ty_sub].
  - apply SFsub_finite; [exact prec32_pos | exact prec32_emax | exact Ha | exact Hb].
  - apply SFsub_finite; [exact prec64_pos | exact prec64_emax | exact Ha | exact Hb].
Qed.

Lemma finite_not_nan (x : spec_float) : IEEE.is_finite x = true -> IEEE.is_nan x = false.
Proof. destruct x; cbn; congruence. Qed.

Lemma block_energy_finite (f : filter_fn) (us : list spec_float) :
  Forall (fun x => sample_valid f x = true) us ->
  Forall (fun x => IEEE.is_finite x = true) us ->
  IEEE.is_nan (block_energy (ty_of f) us) = false.
Proof.
  intros Hv Hf. unfold block_energy.
  assert (Hinit : total_ok IEEE.zero /\ IEEE.is_nan IEEE.zero = false)
    by (split; [exact total_ok_zero | reflexivity]).
  revert Hinit. generalize IEEE.zero.
  induction us as [|x us IH]; intros acc [Hok Hn]; cbn [fold_left]; [exact Hn|].
  apply Forall_cons in Hv as [Hvx Hv]. apply Forall_cons in Hf as [Hfx Hf].
  apply IH; [exact Hv | exact Hf |]. unfold energy_step. split.
  - apply total_ok_add; [exact Hok | apply square_ok; exact Hvx].
  - apply total_add_stays; [exact Hok | apply square_ok; exact Hvx | exact Hn |].
    apply square_not_nan; [exact Hvx | apply finite_not_nan; exact Hfx].
Qed.

Lemma block_distortion_finite (f : filter_fn) (us vs : list spec_float) :
  Forall (fun x => sample_valid f x = true) us ->
  Forall (fun x => IEEE.is_finite x = true) us ->
  Forall (fun x => sample_valid f x = true) vs ->
  Forall (fun x => IEEE.is_finite x = true) vs ->
  IEEE.is_nan (block_distortion (ty_of f) us vs) = false.
Proof.
  intros Hvu Hfu Hvv Hfv. unfold block_distortion.
  assert (Hinit : total_ok IEEE.zero /\ IEEE.is_nan IEEE.zero = false)
    by (split; [exact total_ok_zero | reflexivity]).
  revert Hinit. generalize IEEE.zero. revert vs Hvv Hfv.
  induction us as [|x us IH]; intros [|y vs] Hvv Hfv acc [Hok Hn];
    cbn [zip zip_with fold_left]; try exact Hn.
  apply Forall_cons in Hvu as [Hvx Hvu]. apply Forall_cons in Hfu as [Hfx Hfu].
  apply Forall_cons in Hvv as [Hvy Hvv]. apply Forall_cons in Hfv as [Hfy Hfv].
  apply (IH Hvu Hfu vs Hvv Hfv). unfold distortion_step. cbn [fst snd].
  assert (Hd : sample_valid f (ty_sub (ty_of f) x y) = true)
    by (apply difference_valid; assumption).
  split.
  - apply total_ok_add; [exact Hok | apply square_ok; exact Hd].
  - apply total_add_stays; [exact Hok | apply square_ok; exact Hd | exact Hn |].
    apply square_not_nan; [exact Hd | apply difference_not_nan; assumption].
Qed.

Lemma plane_in_shape (fr : AVFrame) (ch : Z) (P : spec_float -> Prop) :
  frame_shape fr -> Forall (Forall P) (extended_data fr) ->
  0 <= ch < nb_channels fr ->
  Z.of_nat (length (plane fr ch)) = nb_samples fr /\ Forall P (plane fr ch).
Proof.
  intros [Hlen Hshape] HP Hch. unfold plane.
  destruct (lookup_lt_is_Some_2 (extended_data fr) (Z.to_nat ch) ltac:(lia)) as [p Hp].
  rewrite Hp. cbn [default]. split.
  - eapply Forall_lookup_1 in Hshape; [exact Hshape | exact Hp].
  - eapply Forall_lookup_1 in HP; [exact HP | exact Hp].
Qed.

Lemma local_sums_finite (f : filter_fn) (u v : AVFrame) (ch : Z) :
  block_ok f u -> block_ok f v -> finite_pair u v -> 0 <= ch < nb_channels u ->
  IEEE.is_nan (fst (local_sums (ty_of f) u v ch)) = false /\
  IEEE.is_nan (snd (local_sums (ty_of f) u v ch)) = false.
Proof.
  intros Hu Hv (Hsu & Hsv & Hch & Hn & Hfu & Hfv) Hrange.
  destruct (plane_in_shape u ch _ Hsu Hfu Hrange) as [Hlu Hfin_u].
  destruct (plane_in_shape v ch _ Hsv Hfv ltac:(lia)) as [Hlv Hfin_v].
  unfold local_sums.
  rewrite Hn in Hlv.
  rewrite (sample_loop_sums (ty_of f) _ _ _ Hlu Hlv). cbn [fst snd]. split.
  - apply block_energy_finite; [apply plane_valid; exact Hu | exact Hfin_u].
  - apply block_distortion_finite; try assumption; apply plane_valid; assumption.
Qed.

Lemma totals_stay_refl (a : list spec_float) : totals_stay a a.
Proof. intros i x Hx Hn. exists x. auto. Qed.

Lemma channel_loop_stay (f : filter_fn) (u v : AVFrame) (chs : list Z)
    (sums : list spec_float * list spec_float) :
  NoDup chs -> Forall (fun c => 0 <= c < nb_channels u) chs ->
  block_ok f u -> block_ok f v -> finite_pair u v ->
  Forall total_ok (fst sums) -> Forall total_ok (snd sums) ->
  let r := channel_loop (ty_of f) u v chs sums in
  totals_stay (fst sums) (fst r) /\ totals_stay (snd sums) (snd r).
Proof.
  intros Hnd Hrange Hu Hv Hfin Hsu Hsuv. cbn zeta.
  assert (Hpos : Forall (fun c => 0 <= c) chs).
  { eapply Forall_impl; [exact Hrange|]. cbn. intros; lia. }
  assert (Hlook := channel_loop_lookup (ty_of f) u v chs Hnd Hpos sums).
  cbn zeta in Hlook. fold (channel_loop (ty_of f) u v chs sums) in Hlook.
  set (r := channel_loop (ty_of f) u v chs sums) in *.
  assert (Hloc := fun ch => local_sums_ok f u v ch Hu Hv).
  split.
  - intros i x Hx Hn. destruct (Hlook i) as [Hi _]. rewrite Hi, Hx.
    assert (Hox : total_ok x) by (eapply Forall_lookup_1 in Hsu; eassumption).
    destruct (decide (Z.of_nat i ∈ chs)) as [Hin|]; [|exists x; auto].
    eexists. split; [reflexivity|].
    pose proof (proj1 (Forall_forall _ chs) Hrange _ Hin) as Hr.
    destruct (local_sums_finite f u v (Z.of_nat i) Hu Hv Hfin Hr) as [HL _].
    apply total_add_stays; [exact Hox | apply Hloc | exact Hn | exact HL].
  - intros i x Hx Hn. destruct (Hlook i) as [_ Hi]. rewrite Hi, Hx.
    assert (Hox : total_ok x) by (eapply Forall_lookup_1 in Hsuv; eassumption).
    destruct (decide (Z.of_nat i ∈ chs)) as [Hin|]; [|exists x; auto].
    eexists. split; [reflexivity|].
    pose proof (proj1 (Forall_forall _ chs) Hrange _ Hin) as Hr.
    destruct (local_sums_finite f u v (Z.of_nat i) Hu Hv Hfin Hr) as [_ HL].
    apply total_add_stays; [exact Hox | apply Hloc | exact Hn | exact HL].
Qed.

Lemma ff_filter_execute_stay (fo : option filter_fn) (nb_jobs : Z) (s : AudioSDRContext) :
  acc_ok s ->
  (forall f u v, fo = Some f -> cache s = (Some u, Some v) ->
     block_ok f u /\ block_ok f v /\ finite_pair u v) ->
  let s' := ff_filter_execute fo nb_jobs s in
  totals_stay (sum_u s) (sum_u s') /\ totals_stay (sum_uv s) (sum_uv s').
Proof.
  intros [Hu Huv] Hblocks. cbn zeta.
  assert (Hsame : totals_stay (sum_u s) (sum_u s) /\ totals_stay (sum_uv s) (sum_uv s))
    by (split; apply totals_stay_refl).
  destruct fo as [f|]; cbn [ff_filter_execute]; [|exact Hsame].
  rewrite call_filter_ty.
  destruct (cache s) as [[u|] [v|]] eqn:Hc;
    try (rewrite execute_sched_no_block by (rewrite Hc; cbn; auto); exact Hsame).
  destruct (Hblocks f u v eq_refl eq_refl) as (Hbu & Hbv & Hfin).
  rewrite (execute_sched_eq (ty_of f) _ nb_jobs u v s Hc). cbn zeta.
  unfold set_sums. cbn [sum_u sum_uv].
  apply (channel_loop_stay f u v _ (sum_u s, sum_uv s)); try assumption.
  - destruct (Z.lt_ge_cases 0 nb_jobs) as [HN|HN].
    + rewrite ranges_cover by (destruct Hbu; lia). apply NoDup_seqZ.
    + rewrite seqZ_nil by lia. constructor.
  - destruct (Z.lt_ge_cases 0 nb_jobs) as [HN|HN].
    + rewrite ranges_cover by (destruct Hbu; lia). apply Forall_seqZ. intros; lia.
    + rewrite seqZ_nil by lia. constructor.
Qed.

Lemma activate_stay {Link : Type} {API : FilterAPI Link} (ctx : AVFilterContext Link) :
  acc_ok (priv ctx) -> delivers_ok ctx -> delivers_finite ctx ->
  totals_stay (sum_u (priv ctx)) (sum_u (priv (snd (activate ctx)))) /\
  totals_stay (sum_uv (priv ctx)) (sum_uv (priv (snd (activate ctx)))).
Proof.
  intros Hok Hdel Hfin.
  destruct (activate_totals_cases ctx) as [[Hu Huv]|Hmeasure].
  - rewrite Hu, Huv. split; apply totals_stay_refl.
  - destruct Hmeasure as (Hgo & Hav & Hdis & r0 & r1 & f0 & f1 & l0 & l1 & H0 & H1 & Hu & Huv).
    rewrite Hu, Huv.
    unfold measured. destruct (Z.eqb_spec (is_disabled ctx) 0) as [_|]; [|contradiction].
    match goal with
    | |- context [ff_filter_execute ?fo ?n ?s1] =>
        pose proof (ff_filter_execute_stay fo n s1) as Hex
    end.
    cbn zeta in Hex. apply Hex.
    + exact Hok.
    + cbn [set_cache filter cache]. intros f u v Hf Hc. injection Hc as -> ->.
      destruct (Hdel f r0 r1 u v l0 l1 Hf H0 H1) as [Hbu Hbv].
      split; [exact Hbu|]. split; [exact Hbv|]. exact (Hfin r0 r1 u v l0 l1 H0 H1).
Qed.

Lemma totals_stay_get (old new : list spec_float) (ch : Z) :
  totals_stay old new -> 0 <= ch < Z.of_nat (length old) ->
  IEEE.is_nan (arr_get old ch) = false -> IEEE.is_nan (arr_get new ch) = false.
Proof.
  intros Hs Hch Hn. unfold arr_get in *.
  destruct (lookup_lt_is_Some_2 old (Z.to_nat ch) ltac:(lia)) as [x Hx].
  rewrite Hx in Hn. cbn [default] in Hn.
  destruct (Hs _ _ Hx Hn) as (y & Hy & Hny). rewrite Hy. exact Hny.
Qed.

Lemma totals_grow_get (old new : list spec_float) (ch : Z) :
  totals_grow old new -> 0 <= ch < Z.of_nat (length old) ->
  IEEE.is_nan (arr_get new ch) = false ->
  IEEE.is_nan (arr_get old ch) = false /\
  IEEE.leb (arr_get old ch) (arr_get new ch) = true.
Proof.
  intros Hg Hch Hn. unfold arr_get in *.
  destruct (lookup_lt_is_Some_2 old (Z.to_nat ch) ltac:(lia)) as [x Hx].
  destruct (Hg _ _ Hx) as (y & Hy & Hle).
  rewrite Hx, Hy in *. cbn [default] in *. auto.
Qed.

(** ** The totals over several steps *)

Lemma leb_trans (x y z : spec_float) :
  IEEE.nonneg x = true -> IEEE.nonneg y = true -> IEEE.nonneg z = true ->
  IEEE.leb x y = true -> IEEE.leb y z = true -> IEEE.leb x z = true.
Proof.
  intros Hx Hy Hz.
  destruct x as [sx|sx| |sx mx ex]; cbn in Hx; try discriminate; destruct sx; try discriminate;
    destruct y as [sy|sy| |sy my ey]; cbn in Hy; try discriminate; destruct sy;
      try discriminate;
    destruct z as [sz|sz| |sz mz ez]; cbn in Hz; try discriminate; destruct sz;
      try discriminate;
    unfold IEEE.leb, SFleb; cbn [SFcompare]; try reflexivity; try discriminate.
  change (Pos.compare_cont Eq mx my) with (Pos.compare mx my).
  change (Pos.compare_cont Eq my mz) with (Pos.compare my mz).
  change (Pos.compare_cont Eq mx mz) with (Pos.compare mx mz).
  destruct (Z.compare_spec ex ey); try discriminate;
    destruct (Z.compare_spec ey ez); try discriminate;
    destruct (Z.compare_spec ex ez); try lia; try reflexivity;
    destruct (Pos.compare_spec mx my); try discriminate;
    destruct (Pos.compare_spec my mz); try discriminate;
    destruct (Pos.compare_spec mx mz); try lia; reflexivity.
Qed.

Lemma totals_grow_trans (a b c : list spec_float) :
  Forall total_ok a -> Forall total_ok b -> Forall total_ok c ->
  totals_grow a b -> totals_grow b c -> totals_grow a c.
Proof.
  intros Ha Hb Hc Hab Hbc i x Hx.
  destruct (Hab i x Hx) as (y & Hy & Hxy).
  destruct (Hbc i y Hy) as (z & Hz & Hyz).
  exists z. split; [exact Hz|]. intros Hnz.
  destruct (Hyz Hnz) as [Hny Hle_yz]. destruct (Hxy Hny) as [Hnx Hle_xy].
  split; [exact Hnx|].
  assert (Hox : total_ok x) by (eapply Forall_lookup_1 in Ha; eassumption).
  assert (Hoy : total_ok y) by (eapply Forall_lookup_1 in Hb; eassumption).
  assert (Hoz : total_ok z) by (eapply Forall_lookup_1 in Hc; eassumption).
  apply (leb_trans x y z); try assumption; apply total_ok_nonneg; assumption.
Qed.

Lemma totals_stay_trans (a b c : list spec_float) :
  totals_stay a b -> totals_stay b c -> totals_stay a c.
Proof.
  intros Hab Hbc i x Hx Hn.
  destruct (Hab i x Hx Hn) as (y & Hy & Hny).
  exact (Hbc i y Hy Hny).
Qed.

Section StepsTotals.
Context {Link : Type} {API : FilterAPI Link}.

Lemma steps_totals (n : nat) :
  forall ctx : AVFilterContext Link,
    acc_ok (priv ctx) ->
    (forall k, (k < n)%nat -> delivers_ok (steps k ctx)) ->
    acc_ok (priv (steps n ctx)) /\
    totals_grow (sum_u (priv ctx)) (sum_u (priv (steps n ctx))) /\
    totals_grow (sum_uv (priv ctx)) (sum_uv (priv (steps n ctx))).
Proof.
  induction n as [|n IH]; intros ctx Hok Hdel; cbn [steps].
  - split; [exact Hok|]. split; apply totals_grow_refl.
  - destruct (activate_totals ctx Hok (Hdel 0%nat ltac:(lia))) as (Hok1 & Hu1 & Huv1).
    destruct (IH (snd (activate ctx)) Hok1) as (Hokn & Hun & Huvn).
    { intros k Hk. exact (Hdel (S k) ltac:(lia)). }
    split; [exact Hokn|].
    destruct Hok as [Ha Hb], Hok1 as [Ha1 Hb1], Hokn as [Han Hbn].
    split.
    + apply (totals_grow_trans _ (sum_u (priv (snd (activate ctx)))) _); assumption.
    + apply (totals_grow_trans _ (sum_uv (priv (snd (activate ctx)))) _); assumption.
Qed.

Lemma steps_stay (n : nat) :
  forall ctx : AVFilterContext Link,
    acc_ok (priv ctx) ->
    (forall k, (k < n)%nat -> delivers_ok (steps k ctx)) ->
    (forall k, (k < n)%nat -> delivers_finite (steps k ctx)) ->
    totals_stay (sum_u (priv ctx)) (sum_u (priv (steps n ctx))) /\
    totals_stay (sum_uv (priv ctx)) (sum_uv (priv (steps n ctx))).
Proof.
  induction n as [|n IH]; intros ctx Hok Hdel Hfin; cbn [steps].
  - split; apply totals_stay_refl.
  - destruct (activate_totals ctx Hok (Hdel 0%nat ltac:(lia))) as (Hok1 & _ & _).
    destruct (activate_stay ctx Hok (Hdel 0%nat ltac:(lia)) (Hfin 0%nat ltac:(lia)))
      as [Hu1 Huv1].
    destruct (IH (snd (activate ctx)) Hok1) as [Hun Huvn].
    { intros k Hk. exact (Hdel (S k) ltac:(lia)). }
    { intros k Hk. exact (Hfin (S k) ltac:(lia)). }
    split.
    + apply (totals_stay_trans _ (sum_u (priv (snd (activate ctx)))) _); assumption.
    + apply (totals_stay_trans _ (sum_uv (priv (snd (activate ctx)))) _); assumption.
Qed.
End StepsTotals.

(** * The claims *)

(** ** The kernel *)

(** C1: one call of the kernel adds to the energy total of every channel
    [ch] of its range the sum over the block of [reference[ch][n]^2] and to
    its distortion total the sum of [(reference[ch][n] - test[ch][n])^2];
    either sum is formed from 0 over the whole block and added to the total
    in one addition.  For the single channel of doubles 1, 2, 3, 4 against
    1, 2, 3, 5 the totals go from 0 to 30 and 1. *)
Theorem kernel_accumulates (ty : sample_type) (s : AudioSDRContext) (u v : AVFrame)
    (jobnr nb_jobs ch : Z) :
  cache s = (Some u, Some v) ->
  0 <= nb_channels u -> 0 < nb_jobs -> 0 <= jobnr ->
  job_start (nb_channels u) jobnr nb_jobs <= ch < job_end (nb_channels u) jobnr nb_jobs ->
  ch < Z.of_nat (length (sum_u s)) -> ch < Z.of_nat (length (sum_uv s)) ->
  Z.of_nat (length (plane u ch)) = nb_samples u ->
  Z.of_nat (length (plane v ch)) = nb_samples u ->
  (let s' := fst (SDR_FILTER ty s jobnr nb_jobs) in
   arr_get (sum_u s') ch
     = IEEE.add64 (arr_get (sum_u s) ch) (block_energy ty (plane u ch)) /\
   arr_get (sum_uv s') ch
     = IEEE.add64 (arr_get (sum_uv s) ch) (block_distortion ty (plane u ch) (plane v ch))) /\
  (sum_u (fst (sdr_dblp Sample.mono_priv 0 1)) = [IEEE.of_Z64 30] /\
   sum_uv (fst (sdr_dblp Sample.mono_priv 0 1)) = [IEEE.of_Z64 1]).
Proof.
  intros Hc HC HN Hj Hch Hlu Hluv Hpu Hpv.
  assert (0 <= ch).
  { pose proof (job_start_nonneg (nb_channels u) nb_jobs HC HN jobnr Hj). lia. }
  split; [|split; vm_compute; reflexivity].
  destruct (SDR_FILTER_channel ty s u v jobnr nb_jobs ch Hc HC HN Hj ltac:(lia)) as [Hin _].
  destruct (Hin Hch) as [Hu Huv].
  cbn zeta. rewrite (Hu Hlu), (Huv Hluv).
  unfold local_sums. rewrite (sample_loop_sums ty _ _ _ Hpu Hpv). auto.
Qed.

Lemma kernel_accumulates_witness :
  cache Sample.mono_priv = (Some Sample.ref_frame, Some Sample.test_frame) /\
  arr_get (sum_u (fst (SDR_FILTER c_double Sample.mono_priv 0 1))) 0
    = IEEE.add64 IEEE.zero (block_energy c_double Sample.reference) /\
  sum_u (fst (sdr_dblp Sample.mono_priv 0 1)) = [IEEE.of_Z64 30].
Proof.
  pose proof (kernel_accumulates c_double Sample.mono_priv Sample.ref_frame Sample.test_frame
                0 1 0 eq_refl) as H.
  specialize (H ltac:(vm_compute; discriminate) ltac:(reflexivity)
                ltac:(vm_compute; discriminate)
                ltac:(vm_compute; split; [discriminate | reflexivity])
                ltac:(reflexivity) ltac:(reflexivity) eq_refl eq_refl).
  destruct H as [[Hu _] [H30 _]].
  split; [reflexivity|]. split; [exact Hu | exact H30].
Defined.

(** ** The step *)

Section StepClaims.
Context {Link : Type} {API : FilterAPI Link}.

(** C3: in a step with [available > 0], both inputs are asked for exactly
    [available] samples (minimum and maximum alike); when the withdrawal
    fails on either input the step returns that error with both cache slots
    released, the output link untouched and the energy and distortion
    totals of every channel as they were. *)
Theorem activate_withdrawal (ctx : AVFilterContext Link)
    (r0 r1 : Z) (f0 f1 : option AVFrame) (l0 l1 : Link) :
  goes_on ctx -> available ctx > 0 ->
  ff_inlink_consume_samples (fst (inputs ctx)) (available ctx) (available ctx) = (r0, f0, l0) ->
  ff_inlink_consume_samples (snd (inputs ctx)) (available ctx) (available ctx) = (r1, f1, l1) ->
  let ctx' := snd (activate ctx) in
  (0 <= r0 -> 0 <= r1 -> inputs ctx' = (l0, l1)) /\
  (r0 < 0 ->
     fst (activate ctx) = r0 /\ inputs ctx' = (l0, snd (inputs ctx)) /\
     cache (priv ctx') = (None, None) /\ outputs ctx' = outputs ctx /\
     sum_u (priv ctx') = sum_u (priv ctx) /\ sum_uv (priv ctx') = sum_uv (priv ctx)) /\
  (0 <= r0 -> r1 < 0 ->
     fst (activate ctx) = r1 /\ inputs ctx' = (l0, l1) /\
     cache (priv ctx') = (None, None) /\ outputs ctx' = outputs ctx /\
     sum_u (priv ctx') = sum_u (priv ctx) /\ sum_uv (priv ctx') = sum_uv (priv ctx)).
Proof.
  intros Hgo Hav H0 H1. cbn zeta. repeat split.
  - intros Hr0 Hr1. rewrite (activate_blocks ctx r0 r1 f0 f1 l0 l1); auto.
  - rewrite (activate_fail_first ctx r0 f0 l0); auto.
  - rewrite (activate_fail_first ctx r0 f0 l0); auto.
  - rewrite (activate_fail_first ctx r0 f0 l0); auto.
  - rewrite (activate_fail_first ctx r0 f0 l0); auto.
  - rewrite (activate_fail_first ctx r0 f0 l0); auto.
  - rewrite (activate_fail_first ctx r0 f0 l0); auto.
  - rewrite (activate_fail_second ctx r0 r1 f0 f1 l0 l1); auto.
  - rewrite (activate_fail_second ctx r0 r1 f0 f1 l0 l1); auto.
  - rewrite (activate_fail_second ctx r0 r1 f0 f1 l0 l1); auto.
  - rewrite (activate_fail_second ctx r0 r1 f0 f1 l0 l1); auto.
  - rewrite (activate_fail_second ctx r0 r1 f0 f1 l0 l1); auto.
  - rewrite (activate_fail_second ctx r0 r1 f0 f1 l0 l1); auto.
Qed.

(** C6: a step that withdraws both blocks forwards the reference block, the
    very block withdrawn from input 0 with its samples and its timestamp,
    by one call of [ff_filter_frame] on the output link, which nothing
    else touches; afterwards both cache slots are empty, the test block
    being released.  The kernel leaves both blocks as they were
    withdrawn. *)
Theorem activate_forwards_reference (ctx : AVFilterContext Link)
    (r0 r1 : Z) (f0 f1 : option AVFrame) (l0 l1 : Link) :
  goes_on ctx -> available ctx > 0 ->
  ff_inlink_consume_samples (fst (inputs ctx)) (available ctx) (available ctx) = (r0, f0, l0) ->
  0 <= r0 ->
  ff_inlink_consume_samples (snd (inputs ctx)) (available ctx) (available ctx) = (r1, f1, l1) ->
  0 <= r1 ->
  let ctx' := snd (activate ctx) in
  outputs ctx' = snd (ff_filter_frame (outputs ctx) f0) /\
  fst (activate ctx) = fst (ff_filter_frame (outputs ctx) f0) /\
  cache (priv ctx') = (None, None) /\
  cache (measured ctx f0 f1 l0 l1) = (f0, f1).
Proof.
  intros Hgo Hav H0 Hr0 H1 Hr1. cbn zeta.
  rewrite (activate_blocks ctx r0 r1 f0 f1 l0 l1) by assumption.
  cbn [fst snd outputs priv]. repeat split.
  unfold measured. destruct (is_disabled ctx =? 0); [|reflexivity].
  match goal with
  | |- context [ff_filter_execute ?f ?n ?s] =>
      destruct (ff_filter_execute_cache f n s) as (-> & _)
  end.
  reflexivity.
Qed.

(** C7: in a step with nothing to pair ([available <= 0]), the first input
    whose status is acknowledged has its status and timestamp set on the
    output link and the step returns 0; when neither input has one and the
    output link wants a frame, a frame is requested on each input with
    nothing buffered and the step returns 0.  In all these cases the
    private context, the totals with it, is unchanged. *)
Theorem activate_idle (ctx : AVFilterContext Link)
    (r0 st0 pts0 r1 st1 pts1 : Z) (l0 l1 : Link) :
  goes_on ctx -> available ctx <= 0 ->
  ff_inlink_acknowledge_status (fst (inputs ctx)) = (r0, st0, pts0, l0) ->
  ff_inlink_acknowledge_status (snd (inputs ctx)) = (r1, st1, pts1, l1) ->
  let ctx' := snd (activate ctx) in
  priv ctx' = priv ctx /\
  (r0 <> 0 ->
     fst (activate ctx) = 0 /\
     outputs ctx' = ff_outlink_set_status (outputs ctx) st0 pts0) /\
  (r0 = 0 -> r1 <> 0 ->
     fst (activate ctx) = 0 /\
     outputs ctx' = ff_outlink_set_status (outputs ctx) st1 pts1) /\
  (r0 = 0 -> r1 = 0 -> ff_outlink_frame_wanted (outputs ctx) <> 0 ->
     fst (activate ctx) = 0 /\
     inputs ctx' = (request_if_empty l0, request_if_empty l1) /\
     outputs ctx' = outputs ctx).
Proof.
  intros Hgo Hav H0 H1. cbn zeta.
  destruct (Z.eq_dec r0 0) as [->|Hr0].
  - destruct (Z.eq_dec r1 0) as [->|Hr1].
    + rewrite (activate_no_status ctx st0 pts0 st1 pts1 l0 l1) by assumption.
      destruct (Z.eqb_spec (ff_outlink_frame_wanted (outputs ctx)) 0) as [Hw|Hw];
        cbn [fst snd priv inputs outputs]; repeat split; try contradiction; congruence.
    + rewrite (activate_status_second ctx st0 pts0 r1 st1 pts1 l0 l1) by assumption.
      cbn [fst snd priv inputs outputs]. repeat split; try contradiction; congruence.
  - rewrite (activate_status_first ctx r0 st0 pts0 l0) by assumption.
    cbn [fst snd priv inputs outputs]. repeat split; try contradiction; congruence.
Qed.

(** C10: with the filter disabled, a step with [available > 0] still
    withdraws both blocks, releases the test block and forwards the
    reference block; the kernel is not called and the totals of every
    channel are unchanged. *)
Theorem activate_disabled (ctx : AVFilterContext Link)
    (r0 r1 : Z) (f0 f1 : option AVFrame) (l0 l1 : Link) :
  goes_on ctx -> available ctx > 0 ->
  ff_inlink_consume_samples (fst (inputs ctx)) (available ctx) (available ctx) = (r0, f0, l0) ->
  0 <= r0 ->
  ff_inlink_consume_samples (snd (inputs ctx)) (available ctx) (available ctx) = (r1, f1, l1) ->
  0 <= r1 ->
  is_disabled ctx <> 0 ->
  let ctx' := snd (activate ctx) in
  inputs ctx' = (l0, l1) /\
  cache (priv ctx') = (None, None) /\
  outputs ctx' = snd (ff_filter_frame (outputs ctx) f0) /\
  fst (activate ctx) = fst (ff_filter_frame (outputs ctx) f0) /\
  sum_u (priv ctx') = sum_u (priv ctx) /\
  sum_uv (priv ctx') = sum_uv (priv ctx).
Proof.
  intros Hgo Hav H0 Hr0 H1 Hr1 Hdis. cbn zeta.
  rewrite (activate_blocks ctx r0 r1 f0 f1 l0 l1) by assumption.
  unfold measured. destruct (Z.eqb_spec (is_disabled ctx) 0); [contradiction|].
  cbn. repeat split.
Qed.
End StepClaims.

Lemma activate_withdrawal_witness :
  goes_on (API := queue_api 4) Sample.faulty_ctx /\
  available (API := queue_api 4) Sample.faulty_ctx > 0 /\
  fst (activate (API := queue_api 4) Sample.faulty_ctx) = -5 /\
  cache (priv (snd (activate (API := queue_api 4) Sample.faulty_ctx))) = (None, None) /\
  sum_u (priv (snd (activate (API := queue_api 4) Sample.faulty_ctx)))
    = sum_u (priv Sample.faulty_ctx).
Proof.
  pose (a := available (API := queue_api 4) Sample.faulty_ctx).
  pose (c0 := q_consume (fst (inputs Sample.faulty_ctx)) a a).
  pose (c1 := q_consume (snd (inputs Sample.faulty_ctx)) a a).
  assert (Hgo : goes_on (API := queue_api 4) Sample.faulty_ctx) by reflexivity.
  assert (Hav : available (API := queue_api 4) Sample.faulty_ctx > 0) by reflexivity.
  pose proof (activate_withdrawal (API := queue_api 4) Sample.faulty_ctx
                (fst (fst c0)) (fst (fst c1)) (snd (fst c0)) (snd (fst c1)) (snd c0) (snd c1)
                Hgo Hav eq_refl eq_refl) as H.
  destruct H as (_ & _ & Hfail).
  destruct (Hfail ltac:(vm_compute; discriminate) ltac:(reflexivity))
    as (Hret & _ & Hcache & _ & Hu & _).
  split; [exact Hgo|]. split; [exact Hav|].
  split; [exact Hret|]. split; [exact Hcache | exact Hu].
Defined.

Lemma activate_forwards_reference_witness :
  goes_on (API := queue_api 4) Sample.mono_ctx /\
  available (API := queue_api 4) Sample.mono_ctx > 0 /\
  q_sent (outputs (snd (activate (API := queue_api 4) Sample.mono_ctx))) = [Sample.ref_frame] /\
  cache (priv (snd (activate (API := queue_api 4) Sample.mono_ctx))) = (None, None).
Proof.
  pose (a := available (API := queue_api 4) Sample.mono_ctx).
  pose (c0 := q_consume (fst (inputs Sample.mono_ctx)) a a).
  pose (c1 := q_consume (snd (inputs Sample.mono_ctx)) a a).
  assert (Hgo : goes_on (API := queue_api 4) Sample.mono_ctx) by reflexivity.
  assert (Hav : available (API := queue_api 4) Sample.mono_ctx > 0) by reflexivity.
  pose proof (activate_forwards_reference (API := queue_api 4) Sample.mono_ctx
                (fst (fst c0)) (fst (fst c1)) (snd (fst c0)) (snd (fst c1)) (snd c0) (snd c1)
                Hgo Hav eq_refl ltac:(vm_compute; discriminate)
                eq_refl ltac:(vm_compute; discriminate)) as H.
  destruct H as (Hout & _ & Hcache & _).
  split; [exact Hgo|]. split; [exact Hav|].
  split; [rewrite Hout; reflexivity | exact Hcache].
Defined.

Lemma activate_idle_witness :
  goes_on (API := queue_api 4) Sample.eof_ctx /\
  available (API := queue_api 4) Sample.eof_ctx <= 0 /\
  fst (activate (API := queue_api 4) Sample.eof_ctx) = 0 /\
  q_status_out (outputs (snd (activate (API := queue_api 4) Sample.eof_ctx)))
    = Some (Sample.AVERROR_EOF, 4) /\
  priv (snd (activate (API := queue_api 4) Sample.eof_ctx)) = priv Sample.eof_ctx.
Proof.
  pose (k0 := q_acknowledge (fst (inputs Sample.eof_ctx))).
  pose (k1 := q_acknowledge (snd (inputs Sample.eof_ctx))).
  assert (Hgo : goes_on (API := queue_api 4) Sample.eof_ctx) by reflexivity.
  assert (Hav : available (API := queue_api 4) Sample.eof_ctx <= 0)
    by (vm_compute; discriminate).
  pose proof (activate_idle (API := queue_api 4) Sample.eof_ctx
                (fst (fst (fst k0))) (snd (fst (fst k0))) (snd (fst k0))
                (fst (fst (fst k1))) (snd (fst (fst k1))) (snd (fst k1))
                (snd k0) (snd k1) Hgo Hav eq_refl eq_refl) as H.
  destruct H as (Hpriv & Hfirst & _).
  destruct (Hfirst ltac:(vm_compute; discriminate)) as (Hret & Hout).
  split; [exact Hgo|]. split; [exact Hav|].
  split; [exact Hret|]. split; [rewrite Hout; reflexivity | exact Hpriv].
Defined.

Lemma activate_disabled_witness :
  goes_on (API := queue_api 4) Sample.disabled_ctx /\
  available (API := queue_api 4) Sample.disabled_ctx > 0 /\
  is_disabled Sample.disabled_ctx <> 0 /\
  sum_u (priv (snd (activate (API := queue_api 4) Sample.disabled_ctx))) = [IEEE.zero] /\
  q_sent (outputs (snd (activate (API := queue_api 4) Sample.disabled_ctx)))
    = [Sample.ref_frame].
Proof.
  pose (a := available (API := queue_api 4) Sample.disabled_ctx).
  pose (c0 := q_consume (fst (inputs Sample.disabled_ctx)) a a).
  pose (c1 := q_consume (snd (inputs Sample.disabled_ctx)) a a).
  assert (Hgo : goes_on (API := queue_api 4) Sample.disabled_ctx) by reflexivity.
  assert (Hav : available (API := queue_api 4) Sample.disabled_ctx > 0) by reflexivity.
  assert (Hdis : is_disabled Sample.disabled_ctx <> 0) by (vm_compute; discriminate).
  pose proof (activate_disabled (API := queue_api 4) Sample.disabled_ctx
                (fst (fst c0)) (fst (fst c1)) (snd (fst c0)) (snd (fst c1)) (snd c0) (snd c1)
                Hgo Hav eq_refl ltac:(vm_compute; discriminate)
                eq_refl ltac:(vm_compute; discriminate) Hdis) as H.
  destruct H as (_ & _ & Hout & _ & Hu & _).
  split; [exact Hgo|]. split; [exact Hav|]. split; [exact Hdis|].
  split; [rewrite Hu; reflexivity | rewrite Hout; reflexivity].
Defined.

(** ** Sharding by channel *)

Lemma int_wrap_small (z : Z) : -2147483648 <= z <= INT_MAX -> int_wrap z = z.
Proof.
  unfold int_wrap, INT_MAX. intros Hz. rewrite Z.mod_small by lia. lia.
Qed.

(** While [C * N] is within [INT_MAX] ([N], an [int], is within it
    anyway), the products of lines 45-46 are within [int] for every job,
    and the machine computes the bounds that [job_start] and [job_end]
    give. *)
Lemma job_bounds_int (C N j : Z) :
  0 <= C -> 0 < N <= INT_MAX -> C * N <= INT_MAX -> 0 <= j < N ->
  (0 <= C * j <= INT_MAX /\ 0 <= C * (j + 1) <= INT_MAX) /\
  job_start_int C j N = job_start C j N /\ job_end_int C j N = job_end C j N.
Proof.
  intros HC HN Hmax Hj.
  assert (H1 : 0 <= C * j <= INT_MAX) by nia.
  assert (H2 : 0 <= C * (j + 1) <= INT_MAX) by nia.
  assert (H3 : 0 <= j + 1 <= INT_MAX) by lia.
  split; [split; assumption|].
  unfold job_start_int, job_end_int, job_start, job_end.
  rewrite (int_wrap_small (j + 1)) by (unfold INT_MAX in *; lia).
  rewrite !int_wrap_small by (unfold INT_MAX in *; lia).
  split; reflexivity.
Qed.

(** Past [INT_MAX] the machine leaves other bounds: with 65536 channels and
    as many jobs, the end of job 32767 comes out negative. *)
Example job_end_int_overflow :
  job_end 65536 32767 65536 = 32768 /\ job_end_int 65536 32767 65536 = -32768.
Proof. split; reflexivity. Qed.

Section ExecutorFacts.
Context {Link : Type} {API : FilterAPI Link}.

Lemma activate_exec_execute (ctx : AVFilterContext Link) :
  activate_exec ff_filter_execute ctx = activate ctx.
Proof. reflexivity. Qed.

(** What a step that measures hands to the executor, whatever the executor
    does with it. *)
Lemma activate_exec_measures
    (exec : option filter_fn -> Z -> AudioSDRContext -> AudioSDRContext)
    (ctx : AVFilterContext Link) (r0 r1 : Z) (f0 f1 : option AVFrame) (l0 l1 : Link) :
  goes_on ctx -> available ctx > 0 ->
  ff_inlink_consume_samples (fst (inputs ctx)) (available ctx) (available ctx) = (r0, f0, l0) ->
  0 <= r0 ->
  ff_inlink_consume_samples (snd (inputs ctx)) (available ctx) (available ctx) = (r1, f1, l1) ->
  0 <= r1 ->
  is_disabled ctx = 0 ->
  let s1 := set_cache (priv ctx) (f0, f1) in
  priv (snd (activate_exec exec ctx))
  = set_cache
      (exec (filter s1)
         (FFMIN (link_nb_channels (outputs ctx))
                (ff_filter_get_nb_threads
                   (mkAVFilterContext s1 (l0, l1) (outputs ctx) (is_disabled ctx))))
         s1)
      (None, None).
Proof.
  unfold goes_on, available. intros Hgo Hav H0 Hr0 H1 Hr1 Hdis. cbn zeta.
  unfold activate_exec. rewrite Hgo.
  change (get2 (inputs ctx) 0) with (fst (inputs ctx)).
  change (get2 (inputs ctx) 1) with (snd (inputs ctx)).
  destruct (Z.gtb_spec (FFMIN (ff_inlink_queued_samples (fst (inputs ctx)))
                              (ff_inlink_queued_samples (snd (inputs ctx)))) 0); [|lia].
  rewrite seqZ_0_2. cbn [for_return].
  unfold consume_body at 1.
  change (get2 (inputs ctx) 0) with (fst (inputs ctx)). rewrite H0.
  destruct (Z.ltb_spec r0 0); [lia|].
  unfold consume_body at 1. norm_ctx.
  rewrite H1. destruct (Z.ltb_spec r1 0); [lia|].
  norm_ctx. rewrite Hdis. cbn [Z.eqb]. norm_ctx.
  match goal with
  | |- context [ff_filter_frame ?l ?o] => destruct (ff_filter_frame l o) as [ret l']
  end.
  reflexivity.
Qed.
End ExecutorFacts.

(** C4: for a channel count [C >= 1] and a job count [1 <= N <= C] whose
    product is within [INT_MAX], so that the products of lines 45-46 are
    computed in [int] without overflow, the ranges [[C*j/N, C*(j+1)/N)] of
    the jobs [0 .. N-1] start at 0, end at [C], follow one another without
    gap, are pairwise disjoint and cover exactly the channels
    [0 .. C-1]; running the [N] jobs, in any order, leaves the context,
    hence the totals of every channel, as one job over all channels does;
    a step that measures hands [min(channel count, thread count)] to the
    executor as the job count, whatever the executor is, and when that
    count is [N] the step leaves the totals as a single job does. *)
Theorem sharding_by_channel (C N : Z) :
  1 <= C -> 1 <= N <= C -> C * N <= INT_MAX ->
  (forall j, 0 <= j < N ->
     (0 <= C * j <= INT_MAX /\ 0 <= C * (j + 1) <= INT_MAX) /\
     job_start_int C j N = job_start C j N /\ job_end_int C j N = job_end C j N) /\
  (job_start C 0 N = 0 /\ job_end C (N - 1) N = C) /\
  (forall j, 0 <= j < N ->
     job_start C j N <= job_end C j N /\ job_end C j N = job_start C (j + 1) N) /\
  (forall j k ch, 0 <= j < k -> k < N ->
     ch ∈ job_range C N j -> ch ∉ job_range C N k) /\
  (forall ch, 0 <= ch < C <->
     exists j, 0 <= j < N /\ job_start C j N <= ch < job_end C j N) /\
  (forall (f : filter_fn) (s : AudioSDRContext) (u v : AVFrame) (sched : list Z),
     cache s = (Some u, Some v) -> nb_channels u = C -> sched ≡ₚ seqZ 0 N ->
     execute_sched sched (call_filter f) N s = fst (call_filter f s 0 1)) /\
  (forall (Link : Type) (API : FilterAPI Link) (ctx : AVFilterContext Link)
          (r0 r1 : Z) (u v : AVFrame) (l0 l1 : Link) (f : filter_fn),
     goes_on ctx -> available ctx > 0 ->
     ff_inlink_consume_samples (fst (inputs ctx)) (available ctx) (available ctx)
       = (r0, Some u, l0) -> 0 <= r0 ->
     ff_inlink_consume_samples (snd (inputs ctx)) (available ctx) (available ctx)
       = (r1, Some v, l1) -> 0 <= r1 ->
     is_disabled ctx = 0 -> filter (priv ctx) = Some f ->
     nb_channels u = C -> link_nb_channels (outputs ctx) = C ->
     let s1 := set_cache (priv ctx) (Some u, Some v) in
     let T := ff_filter_get_nb_threads
                (mkAVFilterContext s1 (l0, l1) (outputs ctx) (is_disabled ctx)) in
     (forall exec : option filter_fn -> Z -> AudioSDRContext -> AudioSDRContext,
        priv (snd (activate_exec exec ctx))
          = set_cache (exec (Some f) (Z.min C T) s1) (None, None)) /\
     activate ctx = activate_exec ff_filter_execute ctx /\
     (Z.min C T = N ->
      priv (snd (activate ctx))
        = set_cache (ff_filter_execute (Some f) N s1) (None, None) /\
      priv (snd (activate ctx)) = set_cache (fst (call_filter f s1 0 1)) (None, None))).
Proof.
  intros HC HN Hmax.
  assert (HC0 : 0 <= C) by lia. assert (HN0 : 0 < N) by lia.
  assert (Hshard : forall (f : filter_fn) (s : AudioSDRContext) (u v : AVFrame)
                     (sched : list Z),
             cache s = (Some u, Some v) -> nb_channels u = C -> sched ≡ₚ seqZ 0 N ->
             execute_sched sched (call_filter f) N s = fst (call_filter f s 0 1)).
  { intros f s u v sched Hc Hu Hperm.
    destruct f; cbn [call_filter]; unfold sdr_fltp, sdr_dblp;
      apply (sharding_independent _ s u v N sched Hc); (lia || assumption). }
  split; [|split; [|split; [|split; [|split; [|split]]]]].
  - intros j Hj. apply job_bounds_int; try assumption; nia.
  - split; [apply job_start_0; lia|].
    rewrite job_end_start. replace (N - 1 + 1) with N by lia. apply job_start_N; lia.
  - intros j Hj. split; [apply job_start_le_end; lia | apply job_end_start].
  - intros j k ch Hjk Hk. apply ranges_disjoint; lia.
  - intros ch. rewrite (ranges_covering C N HC0 HN0 ch).
    split; intros (j & Hj & Hin); exists j; (split; [exact Hj|]);
      apply elem_of_job_range; exact Hin.
  - exact Hshard.
  - intros Link API ctx r0 r1 u v l0 l1 f Hgo Hav H0 Hr0 H1 Hr1 Hdis Hf Hu Hout s1 T.
    assert (Hexec : forall exec : option filter_fn -> Z -> AudioSDRContext -> AudioSDRContext,
               priv (snd (activate_exec exec ctx))
               = set_cache (exec (Some f) (Z.min C T) s1) (None, None)).
    { intros exec.
      rewrite (activate_exec_measures exec ctx r0 r1 (Some u) (Some v) l0 l1) by assumption.
      fold s1. fold T. rewrite FFMIN_min, Hout.
      replace (filter s1) with (Some f) by (symmetry; exact Hf). reflexivity. }
    split; [exact Hexec|]. split; [reflexivity|].
    intros HT. rewrite <- (activate_exec_execute ctx), (Hexec ff_filter_execute), HT.
    split; [reflexivity|]. f_equal.
    cbn [ff_filter_execute]. apply (Hshard f s1 u v); reflexivity || exact Hu.
Qed.

Lemma sharding_by_channel_witness :
  1 <= 2 /\ 1 <= 2 <= 2 /\ 2 * 2 <= INT_MAX /\
  execute_sched [1; 0] (call_filter fn_sdr_dblp) 2 Sample.stereo_priv
  = fst (call_filter fn_sdr_dblp Sample.stereo_priv 0 1).
Proof.
  assert (H1 : 1 <= 2) by (vm_compute; discriminate).
  assert (H2 : 1 <= 2 <= 2) by (split; vm_compute; discriminate).
  assert (H3 : 2 * 2 <= INT_MAX) by (vm_compute; discriminate).
  split; [exact H1|]. split; [exact H2|]. split; [exact H3|].
  destruct (sharding_by_channel 2 2 H1 H2 H3) as (_ & _ & _ & _ & _ & Hshard & _).
  apply (Hshard fn_sdr_dblp Sample.stereo_priv Sample.stereo_u Sample.stereo_v [1; 0]).
  - reflexivity.
  - reflexivity.
  - change (seqZ 0 2) with [0; 1]. apply perm_swap.
Defined.

(** ** Configuration *)

Lemma negotiated_spec (fmt : AVSampleFormat) :
  negotiated fmt = true <-> fmt = AV_SAMPLE_FMT_FLTP \/ fmt = AV_SAMPLE_FMT_DBLP.
Proof.
  destruct fmt; cbn; split; intros H; try discriminate H; auto;
    destruct H as [H|H]; discriminate H.
Qed.

(** C8: the filter declares exactly the two planar floating-point formats.
    A stream of any other format is refused in negotiation with the
    unsupported-format error and never reaches [config_output]: the
    context, its kernel pointer with it, is as before.  A stream of a
    declared format is configured by [config_output], which selects the
    32-bit kernel for FLTP and the 64-bit kernel for DBLP.  So a kernel is
    selected for these two formats only. *)
Theorem configuration_formats :
  (forall fmt : AVSampleFormat,
     fmt ∈ ff_af_asdr_sample_fmts <-> fmt = AV_SAMPLE_FMT_FLTP \/ fmt = AV_SAMPLE_FMT_DBLP) /\
  (forall (Link : Type) (API : FilterAPI Link) (ctx : AVFilterContext Link)
          (ok_u ok_uv : bool),
     let fmt := link_format (fst (inputs ctx)) in
     let r := configure ok_u ok_uv ctx in
     (fmt <> AV_SAMPLE_FMT_FLTP -> fmt <> AV_SAMPLE_FMT_DBLP ->
        r = (Unsupported_format, ctx)) /\
     (fmt = AV_SAMPLE_FMT_FLTP ->
        r = (Configured (fst (config_output ok_u ok_uv ctx)),
             snd (config_output ok_u ok_uv ctx)) /\
        fst (config_output ok_u ok_uv ctx) = (if ok_u && ok_uv then 0 else AVERROR_ENOMEM) /\
        filter (priv (snd r)) = Some fn_sdr_fltp) /\
     (fmt = AV_SAMPLE_FMT_DBLP ->
        r = (Configured (fst (config_output ok_u ok_uv ctx)),
             snd (config_output ok_u ok_uv ctx)) /\
        fst (config_output ok_u ok_uv ctx) = (if ok_u && ok_uv then 0 else AVERROR_ENOMEM) /\
        filter (priv (snd r)) = Some fn_sdr_dblp) /\
     (filter (priv (snd r)) <> filter (priv ctx) ->
        fmt = AV_SAMPLE_FMT_FLTP \/ fmt = AV_SAMPLE_FMT_DBLP)).
Proof.
  split.
  - intros fmt. unfold ff_af_asdr_sample_fmts.
    rewrite !elem_of_cons, elem_of_nil. tauto.
  - intros Link API ctx ok_u ok_uv. cbn zeta. unfold configure.
    change (get2 (inputs ctx) 0) with (fst (inputs ctx)).
    pose proof (negotiated_spec (link_format (fst (inputs ctx)))) as Hneg.
    destruct (negotiated (link_format (fst (inputs ctx)))) eqn:Hn.
    + destruct (proj1 Hneg eq_refl) as [Hf|Hf].
      * split; [intros H; contradiction|].
        split; [|split; [intros H; rewrite Hf in H; discriminate H | auto]].
        intros _. split; [reflexivity|]. unfold config_output.
        change (get2 (inputs ctx) 0) with (fst (inputs ctx)). rewrite Hf.
        destruct ok_u, ok_uv; cbn; auto.
      * split; [intros _ H; contradiction|].
        split; [intros H; rewrite Hf in H; discriminate H|].
        split; [|auto].
        intros _. split; [reflexivity|]. unfold config_output.
        change (get2 (inputs ctx) 0) with (fst (inputs ctx)). rewrite Hf.
        destruct ok_u, ok_uv; cbn; auto.
    + assert (Hnot : ~ (link_format (fst (inputs ctx)) = AV_SAMPLE_FMT_FLTP \/
                        link_format (fst (inputs ctx)) = AV_SAMPLE_FMT_DBLP)).
      { intros H. apply Hneg in H. discriminate H. }
      split; [reflexivity|].
      split; [intros H; exfalso; apply Hnot; auto|].
      split; [intros H; exfalso; apply Hnot; auto|].
      cbn [snd]. intros H. contradiction.
Qed.

Lemma configuration_formats_witness :
  link_format (FilterAPI := queue_api 4) (fst (inputs Sample.s16_request)) = AV_SAMPLE_FMT_S16 /\
  configure (API := queue_api 4) true true Sample.s16_request
    = (Unsupported_format, Sample.s16_request) /\
  filter (priv (snd (configure (API := queue_api 4) true true
                       (Sample.fresh AV_SAMPLE_FMT_FLTP 1 [] []))))
    = Some fn_sdr_fltp.
Proof.
  destruct configuration_formats as [_ H].
  split; [reflexivity|]. split.
  - destruct (H QueueLink (queue_api 4) Sample.s16_request true true) as (Hno & _).
    apply Hno; cbn; discriminate.
  - destruct (H QueueLink (queue_api 4) (Sample.fresh AV_SAMPLE_FMT_FLTP 1 [] []) true true)
      as (_ & Hflt & _).
    destruct (Hflt eq_refl) as (_ & _ & Hk). exact Hk.
Defined.

(** ** The totals over the life of the accumulator *)

Section TotalsClaims.
Context {Link : Type} {API : FilterAPI Link}.

(** C9, as the code has it: the totals start at 0 and every step leaves
    them well formed (binary64 values that are NaN or have the sign bit
    clear); over any number of steps each total ends NaN or not below the
    value it started from, the sums of squares added being not negative or
    NaN; when the blocks are aligned and hold finite samples only, a total
    that is not NaN never becomes NaN, hence never goes down; and only a
    step that measures (one that passes the status check, finds
    [available > 0] and is not disabled) changes a total at all. *)
Theorem totals_never_decrease (ctx : AVFilterContext Link) (n : nat) :
  acc_ok (priv ctx) ->
  (forall k, (k < n)%nat -> delivers_ok (steps k ctx)) ->
  let ctx' := steps n ctx in
  acc_ok (priv ctx') /\
  (forall ch, 0 <= ch < Z.of_nat (length (sum_u (priv ctx))) ->
     IEEE.is_nan (arr_get (sum_u (priv ctx')) ch) = false ->
     IEEE.is_nan (arr_get (sum_u (priv ctx)) ch) = false /\
     IEEE.leb (arr_get (sum_u (priv ctx)) ch) (arr_get (sum_u (priv ctx')) ch) = true) /\
  (forall ch, 0 <= ch < Z.of_nat (length (sum_uv (priv ctx))) ->
     IEEE.is_nan (arr_get (sum_uv (priv ctx')) ch) = false ->
     IEEE.is_nan (arr_get (sum_uv (priv ctx)) ch) = false /\
     IEEE.leb (arr_get (sum_uv (priv ctx)) ch) (arr_get (sum_uv (priv ctx')) ch) = true) /\
  ((forall k, (k < n)%nat -> delivers_finite (steps k ctx)) ->
   (forall ch, 0 <= ch < Z.of_nat (length (sum_u (priv ctx))) ->
      IEEE.is_nan (arr_get (sum_u (priv ctx)) ch) = false ->
      IEEE.is_nan (arr_get (sum_u (priv ctx')) ch) = false /\
      IEEE.leb (arr_get (sum_u (priv ctx)) ch) (arr_get (sum_u (priv ctx')) ch) = true) /\
   (forall ch, 0 <= ch < Z.of_nat (length (sum_uv (priv ctx))) ->
      IEEE.is_nan (arr_get (sum_uv (priv ctx)) ch) = false ->
      IEEE.is_nan (arr_get (sum_uv (priv ctx')) ch) = false /\
      IEEE.leb (arr_get (sum_uv (priv ctx)) ch) (arr_get (sum_uv (priv ctx')) ch) = true)) /\
  (~ (goes_on ctx /\ available ctx > 0 /\ is_disabled ctx = 0) ->
     sum_u (priv (snd (activate ctx))) = sum_u (priv ctx) /\
     sum_uv (priv (snd (activate ctx))) = sum_uv (priv ctx)) /\
  (forall ok_u ok_uv : bool, acc_ok (priv (snd (config_output ok_u ok_uv ctx)))).
Proof.
  intros Hok Hdel. cbn zeta.
  destruct (steps_totals n ctx Hok Hdel) as (Hok' & Hu & Huv).
  split; [exact Hok'|]. split; [|split; [|split; [|split]]].
  - intros ch Hch Hn. apply totals_grow_get; assumption.
  - intros ch Hch Hn. apply totals_grow_get; assumption.
  - intros Hfin. destruct (steps_stay n ctx Hok Hdel Hfin) as [Hsu Hsuv].
    split; intros ch Hch Hn.
    + pose proof (totals_stay_get _ _ ch Hsu Hch Hn) as Hn'.
      split; [exact Hn' | apply totals_grow_get; assumption].
    + pose proof (totals_stay_get _ _ ch Hsuv Hch Hn) as Hn'.
      split; [exact Hn' | apply totals_grow_get; assumption].
  - intros Hnot. destruct (activate_totals_cases ctx) as [Hsame|Hm]; [exact Hsame|].
    exfalso. apply Hnot. destruct Hm as (H1 & H2 & H3 & _). auto.
  - intros ok_u ok_uv. apply config_output_totals.
Qed.
End TotalsClaims.

Lemma totals_never_decrease_witness :
  acc_ok (priv Sample.mono_ctx) /\
  (forall k, (k < 1)%nat ->
     delivers_ok (API := queue_api 4) (steps (API := queue_api 4) k Sample.mono_ctx)) /\
  IEEE.leb (arr_get (sum_u (priv Sample.mono_ctx)) 0)
           (arr_get (sum_u (priv (steps (API := queue_api 4) 1 Sample.mono_ctx))) 0)
    = true.
Proof.
  assert (Hok : acc_ok (priv Sample.mono_ctx)).
  { split; (constructor; [exact total_ok_zero | constructor]). }
  assert (Hdel : forall k, (k < 1)%nat ->
                   delivers_ok (API := queue_api 4) (steps (API := queue_api 4) k Sample.mono_ctx)).
  { intros k Hk. destruct k as [|k]; [|exfalso; inversion Hk as [|? Hk']; inversion Hk'].
    intros f r0 r1 u v l0 l1 Hf H0 H1.
    vm_compute in Hf, H0, H1.
    injection Hf as <-. injection H0 as _ <- _. injection H1 as _ <- _.
    split; (split; [vm_compute; discriminate | repeat constructor]). }
  split; [exact Hok|]. split; [exact Hdel|].
  destruct (totals_never_decrease (API := queue_api 4) Sample.mono_ctx 1 Hok Hdel)
    as (_ & Hu & _).
  apply Hu; [vm_compute; split; [discriminate | reflexivity] | reflexivity].
Defined.

(** C9, as stated, fails: a NaN sample on the reference input makes the sum
    of squares NaN, which is not >= 0, and the energy total NaN, which is
    not >= its value before; two samples that are both +infinity do the
    same to the distortion total. *)
Lemma total_drops_to_nan :
  acc_ok (priv Sample.nan_ctx) /\
  IEEE.leb IEEE.zero (block_energy c_double [S754_nan]) = false /\
  IEEE.leb (arr_get (sum_u (priv Sample.nan_ctx)) 0)
           (arr_get (sum_u (priv (snd (activate (API := queue_api 4) Sample.nan_ctx)))) 0)
    = false /\
  IEEE.leb (arr_get (sum_uv (priv Sample.inf_ctx)) 0)
           (arr_get (sum_uv (priv (snd (activate (API := queue_api 4) Sample.inf_ctx)))) 0)
    = false.
Proof.
  split; [|split; [|split]]; try (vm_compute; reflexivity).
  split; (constructor; [exact total_ok_zero | constructor]).
Qed.

(** ** Teardown *)

Lemma fold_snoc_map {A B : Type} (g : A -> B) (l : list A) (acc : list B) :
  fold_left (fun out i => out ++ [g i]) l acc = acc ++ map g l.
Proof.
  revert acc. induction l as [|a l IH]; intros acc; cbn [fold_left map].
  - rewrite app_nil_r. reflexivity.
  - rewrite IH, <- app_assoc. reflexivity.
Qed.

Lemma arr_get_total_ok (a : list spec_float) (ch : Z) :
  Forall total_ok a -> total_ok (arr_get a ch).
Proof.
  intros Ha. unfold arr_get. destruct (a !! Z.to_nat ch) as [x|] eqn:Hx; cbn [default].
  - eapply Forall_lookup_1 in Ha; eassumption.
  - exact total_ok_nan.
Qed.

Section UninitClaims.
Variable log10 : spec_float -> spec_float.
Hypothesis log10_inf : log10 IEEE.pinf = IEEE.pinf.
Hypothesis log10_nan : log10 S754_nan = S754_nan.

(** C2: when both arrays of totals hold a slot for each of the [channels]
    channels (with an array missing, as after a failed allocation,
    [uninit] reads through a null pointer), [uninit] reports, for
    every channel [ch] from 0 to [channels - 1] in order,
    [20 * log10(sum_u[ch] / sum_uv[ch])] computed from the totals stored
    in the two arrays; with totals as accumulation leaves them, the value
    is +infinity when the distortion is 0 and the energy is > 0, and NaN
    when both are 0.  ([log10] is the C library's: +infinity at +infinity,
    NaN at NaN.) *)
Theorem uninit_reports (s : AudioSDRContext) :
  acc_ok s ->
  channels s <= Z.of_nat (length (sum_u s)) ->
  channels s <= Z.of_nat (length (sum_uv s)) ->
  fst (uninit log10 s)
    = map (fun ch => (ch, IEEE.mul64 (IEEE.of_Z64 20)
                            (log10 (IEEE.div64 (arr_get (sum_u s) ch) (arr_get (sum_uv s) ch)))))
          (seqZ 0 (channels s)) /\
  (forall ch, 0 <= ch < channels s ->
     exists e d : spec_float,
       sum_u s !! Z.to_nat ch = Some e /\ sum_uv s !! Z.to_nat ch = Some d /\
       sdr_db log10 s ch = IEEE.mul64 (IEEE.of_Z64 20) (log10 (IEEE.div64 e d))) /\
  (forall ch, 0 <= ch < channels s ->
     IEEE.eqb (arr_get (sum_uv s) ch) IEEE.zero = true ->
     IEEE.ltb IEEE.zero (arr_get (sum_u s) ch) = true ->
     sdr_db log10 s ch = IEEE.pinf) /\
  (forall ch, 0 <= ch < channels s ->
     IEEE.eqb (arr_get (sum_uv s) ch) IEEE.zero = true ->
     IEEE.eqb (arr_get (sum_u s) ch) IEEE.zero = true ->
     sdr_db log10 s ch = S754_nan).
Proof using log10_inf log10_nan.
  intros [Hu Huv] Hlu Hluv. split; [|split; [|split]].
  - unfold uninit, for_loop. cbn [fst]. rewrite Z.sub_0_r.
    rewrite fold_snoc_map. reflexivity.
  - intros ch Hch.
    destruct (lookup_lt_is_Some_2 (sum_u s) (Z.to_nat ch) ltac:(lia)) as [e He].
    destruct (lookup_lt_is_Some_2 (sum_uv s) (Z.to_nat ch) ltac:(lia)) as [d Hd].
    exists e, d. split; [exact He|]. split; [exact Hd|].
    unfold sdr_db, arr_get. rewrite He, Hd. reflexivity.
  - intros ch _ Hd He. unfold sdr_db.
    destruct (arr_get_total_ok (sum_uv s) ch Huv) as [_ Hsd].
    destruct (arr_get_total_ok (sum_u s) ch Hu) as [_ Hse].
    destruct (arr_get (sum_uv s) ch) as [sd|sd| |sd md ed]; try discriminate Hd;
      try (destruct sd; discriminate Hd).
    destruct sd; [discriminate Hsd|].
    destruct (arr_get (sum_u s) ch) as [se|se| |se me ee]; try discriminate He;
      try (destruct se; discriminate He).
    + destruct se; [discriminate He|].
      change (IEEE.div64 (S754_infinity false) (S754_zero false)) with IEEE.pinf.
      rewrite log10_inf. reflexivity.
    + destruct se; [discriminate He|].
      change (IEEE.div64 (S754_finite false me ee) (S754_zero false)) with IEEE.pinf.
      rewrite log10_inf. reflexivity.
  - intros ch _ Hd He. unfold sdr_db.
    destruct (arr_get (sum_uv s) ch) as [sd|sd| |sd md ed]; try discriminate Hd;
      try (destruct sd; discriminate Hd).
    destruct (arr_get (sum_u s) ch) as [se|se| |se me ee]; try discriminate He;
      try (destruct se; discriminate He).
    change (IEEE.div64 (S754_zero se) (S754_zero sd)) with S754_nan.
    rewrite log10_nan. reflexivity.
Qed.
End UninitClaims.

Lemma uninit_reports_witness :
  Sample.log10_special IEEE.pinf = IEEE.pinf /\
  Sample.log10_special S754_nan = S754_nan /\
  acc_ok Sample.identical_priv /\
  channels Sample.identical_priv <= Z.of_nat (length (sum_u Sample.identical_priv)) /\
  channels Sample.identical_priv <= Z.of_nat (length (sum_uv Sample.identical_priv)) /\
  fst (uninit Sample.log10_special Sample.identical_priv) = [(0, IEEE.pinf); (1, S754_nan)].
Proof.
  assert (Hok : acc_ok Sample.identical_priv).
  { split; repeat constructor. }
  assert (Hlu : channels Sample.identical_priv
                <= Z.of_nat (length (sum_u Sample.identical_priv)))
    by (vm_compute; discriminate).
  assert (Hluv : channels Sample.identical_priv
                 <= Z.of_nat (length (sum_uv Sample.identical_priv)))
    by (vm_compute; discriminate).
  split; [reflexivity|]. split; [reflexivity|]. split; [exact Hok|].
  split; [exact Hlu|]. split; [exact Hluv|].
  destruct (uninit_reports Sample.log10_special eq_refl eq_refl Sample.identical_priv
              Hok Hlu Hluv) as (Hlog & _).
  rewrite Hlog. reflexivity.
Defined.

(** ** The 32-bit kernel *)

(** C5, as the code has it: in [sdr_fltp] the difference [u - v] and the
    products [u*u] and [(u-v)*(u-v)] are computed in single precision on
    the samples as stored, and each product is converted to double when it
    is added to the local sum, which is accumulated, and added to the
    total, in double precision. *)
Theorem fltp_products_in_single (s : AudioSDRContext) (u v : AVFrame) (jobnr nb_jobs ch : Z) :
  cache s = (Some u, Some v) ->
  0 <= nb_channels u -> 0 < nb_jobs -> 0 <= jobnr ->
  job_start (nb_channels u) jobnr nb_jobs <= ch < job_end (nb_channels u) jobnr nb_jobs ->
  ch < Z.of_nat (length (sum_u s)) -> ch < Z.of_nat (length (sum_uv s)) ->
  Z.of_nat (length (plane u ch)) = nb_samples u ->
  Z.of_nat (length (plane v ch)) = nb_samples u ->
  let s' := fst (sdr_fltp s jobnr nb_jobs) in
  arr_get (sum_u s') ch
    = IEEE.add64 (arr_get (sum_u s) ch)
        (fold_left (fun acc x => IEEE.add64 acc (IEEE.float_to_double (IEEE.mul32 x x)))
                   (plane u ch) IEEE.zero) /\
  arr_get (sum_uv s') ch
    = IEEE.add64 (arr_get (sum_uv s) ch)
        (fold_left (fun acc xy => IEEE.add64 acc
                      (IEEE.float_to_double
                         (IEEE.mul32 (IEEE.sub32 (fst xy) (snd xy))
                                     (IEEE.sub32 (fst xy) (snd xy)))))
                   (zip (plane u ch) (plane v ch)) IEEE.zero).
Proof.
  intros Hc HC HN Hj Hch Hlu Hluv Hpu Hpv.
  assert (0 <= ch).
  { pose proof (job_start_nonneg (nb_channels u) nb_jobs HC HN jobnr Hj). lia. }
  destruct (SDR_FILTER_channel c_float s u v jobnr nb_jobs ch Hc HC HN Hj ltac:(lia))
    as [Hin _].
  destruct (Hin Hch) as [Hu Huv].
  cbn zeta. unfold sdr_fltp. rewrite (Hu Hlu), (Huv Hluv).
  unfold local_sums. rewrite (sample_loop_sums c_float _ _ _ Hpu Hpv).
  split; reflexivity.
Qed.

Lemma fltp_products_in_single_witness :
  cache Sample.flt_priv
    = (Some (mkAVFrame 1 1 [[Sample.next_after_one]] 0),
       Some (mkAVFrame 1 1 [[S754_zero false]] 0)) /\
  arr_get (sum_u (fst (sdr_fltp Sample.flt_priv 0 1))) 0
    = IEEE.float_to_double (S754_finite false 8388610 (-23)).
Proof.
  split; [reflexivity|].
  pose proof (fltp_products_in_single Sample.flt_priv
                (mkAVFrame 1 1 [[Sample.next_after_one]] 0)
                (mkAVFrame 1 1 [[S754_zero false]] 0) 0 1 0 eq_refl) as H.
  specialize (H ltac:(vm_compute; discriminate) ltac:(reflexivity)
                ltac:(vm_compute; discriminate)
                ltac:(vm_compute; split; [discriminate | reflexivity])
                ltac:(reflexivity) ltac:(reflexivity) eq_refl eq_refl).
  destruct H as [Hu _]. rewrite Hu. vm_compute. reflexivity.
Defined.

(** C5, as stated, fails: for the single sample 1 + 2^-23 the 32-bit kernel
    adds 1 + 2^-22, the square rounded to single precision, where squaring
    the promoted sample in double precision gives 1 + 2^-22 + 2^-46. *)
Lemma fltp_square_is_rounded :
  IEEE.valid32 Sample.next_after_one = true /\
  arr_get (sum_u (fst (sdr_fltp Sample.flt_priv 0 1))) 0
    = S754_finite false 4503600701112320 (-52) /\
  IEEE.add64 IEEE.zero (promoted_energy [Sample.next_after_one])
    = S754_finite false 4503600701112384 (-52) /\
  arr_get (sum_u (fst (sdr_fltp Sample.flt_priv 0 1))) 0
    <> IEEE.add64 IEEE.zero (promoted_energy [Sample.next_after_one]) /\
  arr_get (sum_uv (fst (sdr_fltp Sample.flt_priv 0 1))) 0
    <> IEEE.add64 IEEE.zero (promoted_distortion [Sample.next_after_one] [S754_zero false]).
Proof.
  split; [reflexivity|]. split; [vm_compute; reflexivity|].
  split; [vm_compute; reflexivity|]. split; vm_compute; discriminate.
Qed.

(** ** The scenarios of the specification, run *)

(** The four samples 1, 2, 3, 4 against 1, 2, 3, 5 through one step: both
    inputs are emptied, the totals are 30 and 1, the reference block is
    forwarded. *)
Example scenario_mono :
  let r := activate (API := queue_api 4) Sample.mono_ctx in
  fst r = 0 /\
  sum_u (priv (snd r)) = [IEEE.of_Z64 30] /\ sum_uv (priv (snd r)) = [IEEE.of_Z64 1] /\
  q_queued (fst (inputs (snd r))) = 0 /\ q_queued (snd (inputs (snd r))) = 0 /\
  q_sent (outputs (snd r)) = [Sample.ref_frame].
Proof. vm_compute. repeat split. Qed.

(** A reference stream of three samples against a test stream of five:
    the step pairs three samples and leaves two on the test input; once
    a frame is wanted downstream again, the next step finds nothing to
    pair and asks the reference input for more, the two samples staying
    where they are. *)
Example scenario_uneven :
  let r1 := activate (API := queue_api 4) Sample.uneven_ctx in
  let r2 := activate (API := queue_api 4)
              (mkAVFilterContext (priv (snd r1)) (inputs (snd r1))
                 (q_want (outputs (snd r1))) 0) in
  fst r1 = 0 /\
  q_queued (fst (inputs (snd r1))) = 0 /\ q_queued (snd (inputs (snd r1))) = 2 /\
  sum_u (priv (snd r1)) = [IEEE.of_Z64 14] /\ sum_uv (priv (snd r1)) = [IEEE.zero] /\
  priv (snd r2) = priv (snd r1) /\
  q_queued (snd (inputs (snd r2))) = 2 /\
  q_requests (fst (inputs (snd r2))) = 1 /\ q_requests (snd (inputs (snd r2))) = 0.
Proof. vm_compute. repeat split. Qed.

(** With the output link closed by its consumer the step returns at once:
    nothing is withdrawn and nothing measured. *)
Example scenario_closed :
  let ctx := mkAVFilterContext (priv Sample.mono_ctx) (inputs Sample.mono_ctx)
               (q_close Sample.AVERROR_EOF (outputs Sample.mono_ctx)) 0 in
  let r := activate (API := queue_api 4) ctx in
  fst r = 0 /\ priv (snd r) = priv ctx /\
  q_queued (fst (inputs (snd r))) = 4 /\ q_closed (fst (inputs (snd r))) = Sample.AVERROR_EOF.
Proof. vm_compute. repeat split. Qed.

(** Nothing buffered on the reference input, no status and no frame
    wanted downstream: the step reports that it is not ready. *)
Example scenario_not_ready :
  let ctx := mkAVFilterContext (priv Sample.hungry_ctx) (inputs Sample.hungry_ctx)
               (q_set_status (outputs Sample.hungry_ctx) 0 0) 0 in
  fst (activate (API := queue_api 4) ctx) = FFERROR_NOT_READY (FilterAPI := queue_api 4).
Proof. vm_compute. reflexivity. Qed.

(** * Further properties of the kernel, the step, configuration and teardown *)

(** ** Sums that are exactly zero, and sums that do not see the sign *)

Lemma add64_zero_r (x : spec_float) :
  IEEE.is_nan x || IEEE.nonneg x = true -> IEEE.add64 x IEEE.zero = x.
Proof.
  destruct x as [[|]|[|]| |[|] m e]; cbn; intros H; try discriminate; reflexivity.
Qed.

Lemma sub_self_zero (prec emax : Z) (x : spec_float) :
  IEEE.is_finite x = true -> SFsub prec emax x x = IEEE.zero.
Proof.
  destruct x as [[|]|[|]| |s m e]; cbn [IEEE.is_finite]; intros H; try discriminate;
    try reflexivity.
  cbn [SFsub]. unfold shl_align. rewrite Z.min_id, Z.sub_diag. cbn [fst].
  reflexivity.
Qed.

Lemma arr_set_same (a : list spec_float) (ch : Z) :
  arr_set a ch (arr_get a ch) = a.
Proof.
  unfold arr_set, arr_get. destruct (a !! Z.to_nat ch) as [x|] eqn:Hx; cbn [default].
  - apply list_insert_id. exact Hx.
  - apply list_insert_ge. apply lookup_ge_None. exact Hx.
Qed.

(** Adding a zero sum to a slot leaves well-formed totals as they are. *)
Lemma arr_add_zero (a : list spec_float) (ch : Z) :
  Forall total_ok a -> arr_set a ch (IEEE.add64 (arr_get a ch) IEEE.zero) = a.
Proof.
  intros Ha. rewrite add64_zero_r; [apply arr_set_same|].
  destruct (arr_get_total_ok a ch Ha) as [_ H]. exact H.
Qed.

Lemma binary_round_aux_opp (prec emax : Z) (s : bool) (m e : Z) (l : location) :
  binary_round_aux prec emax (negb s) m e l = SFopp (binary_round_aux prec emax s m e l).
Proof.
  unfold binary_round_aux.
  destruct (shr_fexp prec emax m e l) as [mrs' e'].
  destruct (shr_fexp prec emax _ e' loc_Exact) as [mrs'' e''].
  destruct (shr_m mrs'') as [|p|p]; try reflexivity.
  destruct (e'' <=? emax - prec); reflexivity.
Qed.

Lemma binary_normalize_opp (prec emax : Z) (m e : Z) :
  m <> 0 ->
  binary_normalize prec emax (- m) e false = SFopp (binary_normalize prec emax m e false).
Proof.
  intros Hm. destruct m as [|p|p]; [contradiction| |].
  - change (- Z.pos p) with (Z.neg p). unfold binary_normalize, binary_round.
    destruct (shl_align p e _) as [mz ez].
    apply (binary_round_aux_opp prec emax false).
  - change (- Z.neg p) with (Z.pos p). unfold binary_normalize, binary_round.
    destruct (shl_align p e _) as [mz ez].
    rewrite <- (binary_round_aux_opp prec emax true). reflexivity.
Qed.

Lemma mul_opp_opp (prec emax : Z) (x : spec_float) :
  SFmul prec emax (SFopp x) (SFopp x) = SFmul prec emax x x.
Proof.
  destruct x as [[|]|[|]| |[|] m e]; reflexivity.
Qed.

Lemma mul_zero_zero (prec emax : Z) (s s' : bool) :
  SFmul prec emax (S754_zero s) (S754_zero s) = SFmul prec emax (S754_zero s') (S754_zero s').
Proof. destruct s, s'; reflexivity. Qed.

(** Swapping the operands of a difference negates it, or leaves a zero. *)
Lemma sub_swap (prec emax : Z) (x y : spec_float) :
  SFsub prec emax y x = SFopp (SFsub prec emax x y) \/
  (exists s s', SFsub prec emax x y = S754_zero s /\ SFsub prec emax y x = S754_zero s').
Proof.
  destruct x as [sx|sx| |sx mx ex], y as [sy|sy| |sy my ey];
    try (left; reflexivity);
    try (destruct sx, sy;
         solve [left; reflexivity | right; do 2 eexists; split; reflexivity]).
  cbn [SFsub]. rewrite (Z.min_comm ey ex).
  set (a := cond_Zopp sx (Zpos (fst (shl_align mx ex (Z.min ex ey))))).
  set (b := cond_Zopp sy (Zpos (fst (shl_align my ey (Z.min ex ey))))).
  destruct (Z.eq_dec (a - b) 0) as [Hz|Hnz].
  - right. exists false, false. replace (b - a) with 0 by lia. rewrite Hz. split; reflexivity.
  - left. replace (b - a) with (- (a - b)) by lia. apply binary_normalize_opp. exact Hnz.
Qed.

Lemma square_of_difference_swap (prec emax : Z) (x y : spec_float) :
  SFmul prec emax (SFsub prec emax x y) (SFsub prec emax x y)
  = SFmul prec emax (SFsub prec emax y x) (SFsub prec emax y x).
Proof.
  destruct (sub_swap prec emax x y) as [->|(s & s' & -> & ->)].
  - symmetry. apply mul_opp_opp.
  - apply mul_zero_zero.
Qed.

(** The square of [0 - y] is the square of [y]. *)
Lemma square_against_zero (prec emax : Z) (s : bool) (y : spec_float) :
  SFmul prec emax (SFsub prec emax (S754_zero s) y) (SFsub prec emax (S754_zero s) y)
  = SFmul prec emax y y.
Proof.
  destruct y as [sy|sy| |sy my ey]; try reflexivity.
  - destruct s, sy; reflexivity.
  - destruct sy; reflexivity.
  - destruct sy; reflexivity.
Qed.

(** ** The two sums of a block *)

Section BlockSums.
Variable f : filter_fn.

Lemma square_of_zero (s : bool) :
  ty_to_double (ty_of f) (ty_mul (ty_of f) (S754_zero s) (S754_zero s)) = IEEE.zero.
Proof. destruct f, s; reflexivity. Qed.

Lemma square_of_self_difference (x : spec_float) :
  IEEE.is_finite x = true ->
  ty_to_double (ty_of f) (ty_mul (ty_of f) (ty_sub (ty_of f) x x) (ty_sub (ty_of f) x x))
  = IEEE.zero.
Proof.
  intros Hx.
  assert (Hs : ty_sub (ty_of f) x x = IEEE.zero)
    by (destruct f; apply sub_self_zero; exact Hx).
  rewrite Hs. apply (square_of_zero false).
Qed.

Lemma ty_square_swap (x y : spec_float) :
  ty_mul (ty_of f) (ty_sub (ty_of f) x y) (ty_sub (ty_of f) x y)
  = ty_mul (ty_of f) (ty_sub (ty_of f) y x) (ty_sub (ty_of f) y x).
Proof. destruct f; apply square_of_difference_swap. Qed.

Lemma ty_square_against_zero (s : bool) (y : spec_float) :
  ty_mul (ty_of f) (ty_sub (ty_of f) (S754_zero s) y) (ty_sub (ty_of f) (S754_zero s) y)
  = ty_mul (ty_of f) y y.
Proof. destruct f; apply square_against_zero. Qed.

Lemma block_energy_silence (us : list spec_float) :
  Forall (fun x => sample_is_zero x = true) us -> block_energy (ty_of f) us = IEEE.zero.
Proof.
  unfold block_energy. induction 1 as [|x us Hx _ IH]; [reflexivity|].
  cbn [fold_left]. destruct x as [s| | |]; try discriminate Hx.
  unfold energy_step at 2. rewrite square_of_zero. exact IH.
Qed.

Lemma block_distortion_self (us : list spec_float) :
  Forall (fun x => IEEE.is_finite x = true) us ->
  block_distortion (ty_of f) us us = IEEE.zero.
Proof.
  unfold block_distortion. induction 1 as [|x us Hx _ IH]; [reflexivity|].
  cbn [zip zip_with fold_left]. unfold distortion_step at 2. cbn [fst snd].
  rewrite (square_of_self_difference x Hx). exact IH.
Qed.

Lemma distortion_fold_swap (us : list spec_float) :
  forall (vs : list spec_float) (acc : spec_float),
    fold_left (distortion_step (ty_of f)) (zip us vs) acc
    = fold_left (distortion_step (ty_of f)) (zip vs us) acc.
Proof.
  induction us as [|x us IH]; intros [|y vs] acc; try reflexivity.
  cbn [zip zip_with fold_left]. unfold distortion_step at 2 4. cbn [fst snd].
  rewrite (ty_square_swap x y). apply IH.
Qed.

Lemma distortion_fold_silence (us : list spec_float) :
  Forall (fun x => sample_is_zero x = true) us ->
  forall (vs : list spec_float) (acc : spec_float),
    length vs = length us ->
    fold_left (distortion_step (ty_of f)) (zip us vs) acc
    = fold_left (energy_step (ty_of f)) vs acc.
Proof.
  induction 1 as [|x us Hx _ IH]; intros [|y vs] acc Hlen; try discriminate Hlen;
    [reflexivity|].
  cbn [zip zip_with fold_left]. unfold distortion_step at 2, energy_step at 2. cbn [fst snd].
  destruct x as [s| | |]; try discriminate Hx.
  rewrite ty_square_against_zero. apply IH. simpl in Hlen. congruence.
Qed.
End BlockSums.

(** ** The channel loop, one array at a time *)

Section ChannelArrays.
Variable ty : sample_type.
Variables u v : AVFrame.

Lemma channel_loop_fst (chs : list Z) :
  forall sums : list spec_float * list spec_float,
    fst (channel_loop ty u v chs sums)
    = fold_left (fun a ch => arr_set a ch (IEEE.add64 (arr_get a ch) (fst (local_sums ty u v ch))))
                chs (fst sums).
Proof.
  unfold channel_loop. induction chs as [|c chs IH]; intros sums; [reflexivity|].
  cbn [fold_left]. rewrite IH, channel_step_eq. reflexivity.
Qed.

Lemma channel_loop_snd (chs : list Z) :
  forall sums : list spec_float * list spec_float,
    snd (channel_loop ty u v chs sums)
    = fold_left (fun a ch => arr_set a ch (IEEE.add64 (arr_get a ch) (snd (local_sums ty u v ch))))
                chs (snd sums).
Proof.
  unfold channel_loop. induction chs as [|c chs IH]; intros sums; [reflexivity|].
  cbn [fold_left]. rewrite IH, channel_step_eq. reflexivity.
Qed.
End ChannelArrays.

(** Adding sums that are all zero leaves well-formed totals as they are. *)
Lemma fold_add_zero (d : Z -> spec_float) (chs : list Z) (a : list spec_float) :
  Forall (fun ch => d ch = IEEE.zero) chs -> Forall total_ok a ->
  fold_left (fun a ch => arr_set a ch (IEEE.add64 (arr_get a ch) (d ch))) chs a = a.
Proof.
  intros Hd Ha. induction Hd as [|c chs Hc _ IH]; [reflexivity|].
  cbn [fold_left]. rewrite Hc, (arr_add_zero a c Ha). exact IH.
Qed.

Lemma fold_add_ext (d d' : Z -> spec_float) (chs : list Z) :
  Forall (fun ch => d ch = d' ch) chs ->
  forall a : list spec_float,
    fold_left (fun a ch => arr_set a ch (IEEE.add64 (arr_get a ch) (d ch))) chs a
    = fold_left (fun a ch => arr_set a ch (IEEE.add64 (arr_get a ch) (d' ch))) chs a.
Proof.
  induction 1 as [|c chs Hc _ IH]; intros a; [reflexivity|].
  cbn [fold_left]. rewrite Hc. apply IH.
Qed.

Lemma fold_add_length (d : Z -> spec_float) (chs : list Z) :
  forall a : list spec_float,
    length (fold_left (fun a ch => arr_set a ch (IEEE.add64 (arr_get a ch) (d ch))) chs a)
    = length a.
Proof.
  induction chs as [|c chs IH]; intros a; [reflexivity|].
  cbn [fold_left]. rewrite IH. unfold arr_set. apply length_insert.
Qed.

(** The channels of a job lie among the channels of the block. *)
Lemma job_range_within (C N j ch : Z) :
  0 <= C -> 0 <= j < N -> ch ∈ job_range C N j -> 0 <= ch < C.
Proof.
  intros HC Hj Hin. apply elem_of_job_range in Hin.
  pose proof (job_start_nonneg C N HC ltac:(lia) j ltac:(lia)).
  pose proof (job_start_mono C N HC ltac:(lia) (j + 1) N ltac:(lia)) as Hm.
  rewrite (job_start_N C N ltac:(lia)) in Hm. rewrite job_end_start in Hin. lia.
Qed.

Lemma local_sums_empty (ty : sample_type) (u v : AVFrame) (ch : Z) :
  nb_samples u <= 0 -> local_sums ty u v ch = (IEEE.zero, IEEE.zero).
Proof.
  intros Hn. unfold local_sums. apply for_loop_empty. exact Hn.
Qed.

Lemma local_sums_blocks (ty : sample_type) (u v : AVFrame) (ch : Z) :
  Z.of_nat (length (plane u ch)) = nb_samples u ->
  Z.of_nat (length (plane v ch)) = nb_samples u ->
  local_sums ty u v ch
  = (block_energy ty (plane u ch), block_distortion ty (plane u ch) (plane v ch)).
Proof.
  intros Hu Hv. unfold local_sums. apply sample_loop_sums; assumption.
Qed.

(** ** The kernel *)

Lemma SDR_FILTER_sums (ty : sample_type) (s : AudioSDRContext) (u v : AVFrame)
    (jobnr nb_jobs : Z) :
  cache s = (Some u, Some v) ->
  let d := local_sums ty u v in
  let chs := job_range (nb_channels u) nb_jobs jobnr in
  sum_u (fst (SDR_FILTER ty s jobnr nb_jobs))
    = fold_left (fun a ch => arr_set a ch (IEEE.add64 (arr_get a ch) (fst (d ch)))) chs (sum_u s) /\
  sum_uv (fst (SDR_FILTER ty s jobnr nb_jobs))
    = fold_left (fun a ch => arr_set a ch (IEEE.add64 (arr_get a ch) (snd (d ch)))) chs (sum_uv s).
Proof.
  intros Hc. cbn zeta. rewrite (SDR_FILTER_eq ty s u v jobnr nb_jobs Hc). cbn zeta.
  cbn [fst]. unfold set_sums. cbn [sum_u sum_uv].
  rewrite channel_loop_fst, channel_loop_snd. split; reflexivity.
Qed.

Lemma frame_shape_channels (u : AVFrame) : frame_shape u -> 0 <= nb_channels u.
Proof. intros [H _]. lia. Qed.

(** X1: a job of the kernel returns 0 and changes nothing but the totals of
    the channels of its range: the totals of every other channel, the
    length of the two arrays, the cached blocks, the channel count and the
    kernel pointer are as before. *)
Theorem kernel_job_frame (ty : sample_type) (s : AudioSDRContext) (u v : AVFrame)
    (jobnr nb_jobs : Z) :
  cache s = (Some u, Some v) ->
  0 <= nb_channels u -> 0 < nb_jobs -> 0 <= jobnr ->
  let s' := fst (SDR_FILTER ty s jobnr nb_jobs) in
  snd (SDR_FILTER ty s jobnr nb_jobs) = 0 /\
  length (sum_u s') = length (sum_u s) /\ length (sum_uv s') = length (sum_uv s) /\
  cache s' = cache s /\ filter s' = filter s /\ channels s' = channels s /\
  (forall i : nat,
     ~ job_start (nb_channels u) jobnr nb_jobs <= Z.of_nat i
         < job_end (nb_channels u) jobnr nb_jobs ->
     sum_u s' !! i = sum_u s !! i /\ sum_uv s' !! i = sum_uv s !! i).
Proof.
  intros Hc HC HN Hj. cbn zeta.
  destruct (SDR_FILTER_sums ty s u v jobnr nb_jobs Hc) as [Hu Huv]. cbn zeta in Hu, Huv.
  destruct (SDR_FILTER_cache ty s jobnr nb_jobs) as (Hcache & Hf & Hch).
  split; [rewrite (SDR_FILTER_eq ty s u v jobnr nb_jobs Hc); reflexivity|].
  split; [rewrite Hu; apply fold_add_length|].
  split; [rewrite Huv; apply fold_add_length|].
  split; [exact Hcache|]. split; [exact Hf|]. split; [exact Hch|].
  intros i Hout.
  rewrite (SDR_FILTER_eq ty s u v jobnr nb_jobs Hc). cbn zeta. cbn [fst].
  unfold set_sums. cbn [sum_u sum_uv].
  assert (Hnd : NoDup (job_range (nb_channels u) nb_jobs jobnr)) by apply NoDup_seqZ.
  assert (Hpos : Forall (fun c => 0 <= c) (job_range (nb_channels u) nb_jobs jobnr)).
  { apply Forall_seqZ. intros c Hcr.
    pose proof (job_start_nonneg (nb_channels u) nb_jobs HC HN jobnr Hj). lia. }
  destruct (channel_loop_lookup ty u v _ Hnd Hpos (sum_u s, sum_uv s) i) as [Hlu Hluv].
  cbn zeta in Hlu, Hluv. cbn [fst snd] in Hlu, Hluv.
  unfold channel_loop. rewrite Hlu, Hluv.
  rewrite !decide_False by (rewrite elem_of_job_range; exact Hout). auto.
Qed.

Lemma kernel_job_frame_witness :
  cache Sample.stereo_priv = (Some Sample.stereo_u, Some Sample.stereo_v) /\
  sum_u (fst (SDR_FILTER c_double Sample.stereo_priv 1 2)) !! 0%nat = Some IEEE.zero /\
  length (sum_uv (fst (SDR_FILTER c_double Sample.stereo_priv 1 2))) = 2%nat.
Proof.
  pose proof (kernel_job_frame c_double Sample.stereo_priv Sample.stereo_u Sample.stereo_v
                1 2 eq_refl) as H.
  specialize (H ltac:(vm_compute; discriminate) ltac:(reflexivity)
                ltac:(vm_compute; discriminate)).
  destruct H as (_ & _ & Hlen & _ & _ & _ & Hout).
  split; [reflexivity|]. split.
  - destruct (Hout 0%nat ltac:(vm_compute; intros [H _]; apply H; reflexivity)) as [Hu _].
    rewrite Hu. reflexivity.
  - rewrite Hlen. reflexivity.
Defined.

(** X2: the partition is balanced: with [C] channels and [N] jobs whose
    product is within [INT_MAX], so that the products of lines 45-46 do
    not overflow, the bounds the machine computes for a job are those of
    [job_start] and [job_end], and every job gets [C / N] or [C / N + 1]
    channels, all of them among the channels [0 .. C-1]; with more jobs
    than channels a job gets one channel or none. *)
Theorem job_ranges_balanced (C N j : Z) :
  0 <= C -> 0 < N <= INT_MAX -> C * N <= INT_MAX -> 0 <= j < N ->
  (job_start_int C j N = job_start C j N /\ job_end_int C j N = job_end C j N) /\
  0 <= job_start_int C j N /\ job_end_int C j N <= C /\
  C ÷ N <= job_end_int C j N - job_start_int C j N <= C ÷ N + 1 /\
  (C < N -> job_end_int C j N - job_start_int C j N <= 1).
Proof.
  intros HC HN' Hmax Hj. assert (HN : 0 < N) by lia.
  destruct (job_bounds_int C N j HC HN' Hmax Hj) as (_ & Hs & He).
  rewrite Hs, He. split; [split; reflexivity|].
  unfold job_start, job_end.
  rewrite !Z.quot_div_nonneg by nia.
  pose proof (Z.div_mod (C * j) N ltac:(lia)) as H1.
  pose proof (Z.mod_pos_bound (C * j) N HN) as B1.
  pose proof (Z.div_mod (C * (j + 1)) N ltac:(lia)) as H2.
  pose proof (Z.mod_pos_bound (C * (j + 1)) N HN) as B2.
  pose proof (Z.div_mod C N ltac:(lia)) as H3.
  pose proof (Z.mod_pos_bound C N HN) as B3.
  assert (Hlo : 0 <= C * j / N) by (apply Z.div_pos; nia).
  assert (Hq : 0 <= C / N) by (apply Z.div_pos; lia).
  assert (Hsmall : C < N -> C / N = 0) by (intros; apply Z.div_small; lia).
  split; [exact Hlo|]. split; [nia|]. split; [split; nia|].
  intros Hlt. rewrite (Hsmall Hlt) in *. nia.
Qed.

Lemma job_ranges_balanced_witness :
  2 * 3 <= INT_MAX /\
  job_end_int 5 1 3 - job_start_int 5 1 3 = 2 /\
  job_end_int 2 2 3 - job_start_int 2 2 3 <= 1.
Proof.
  assert (Hmax : 2 * 3 <= INT_MAX) by (vm_compute; discriminate).
  split; [exact Hmax|]. split; [reflexivity|].
  destruct (job_ranges_balanced 2 3 2 ltac:(lia) ltac:(unfold INT_MAX; lia) Hmax ltac:(lia))
    as (_ & _ & _ & _ & H).
  apply H. lia.
Defined.

(** X3: a block without samples changes nothing: a job of the kernel adds
    the two empty sums, both +0, to the totals of its channels, and totals
    as accumulation leaves them absorb them. *)
Theorem kernel_empty_block (f : filter_fn) (s : AudioSDRContext) (u v : AVFrame)
    (jobnr nb_jobs : Z) :
  cache s = (Some u, Some v) -> nb_samples u <= 0 -> 0 <= jobnr < nb_jobs ->
  0 <= nb_channels u <= Z.of_nat (length (sum_u s)) ->
  nb_channels u <= Z.of_nat (length (sum_uv s)) ->
  acc_ok s ->
  call_filter f s jobnr nb_jobs = (s, 0).
Proof.
  intros Hc Hn _ _ _ [Hu Huv]. rewrite call_filter_ty.
  destruct (SDR_FILTER_sums (ty_of f) s u v jobnr nb_jobs Hc) as [Hsu Hsuv].
  cbn zeta in Hsu, Hsuv.
  rewrite fold_add_zero in Hsu, Hsuv;
    try assumption;
    try (apply Forall_forall; intros ch _; rewrite local_sums_empty by exact Hn; reflexivity).
  destruct (SDR_FILTER_cache (ty_of f) s jobnr nb_jobs) as (Hcache & Hf & Hch).
  rewrite (SDR_FILTER_eq (ty_of f) s u v jobnr nb_jobs Hc) in *. cbn zeta in *.
  cbn [fst] in *. f_equal.
  destruct s as [c su suv ca fi]. unfold set_sums in *.
  cbn [sum_u sum_uv channels cache filter] in *. rewrite Hsu, Hsuv. reflexivity.
Qed.

Lemma kernel_empty_block_witness :
  acc_ok (Cases.running (Some Cases.empty_frame, Some Cases.empty_frame) fn_sdr_fltp) /\
  sdr_fltp (Cases.running (Some Cases.empty_frame, Some Cases.empty_frame) fn_sdr_fltp) 0 1
  = (Cases.running (Some Cases.empty_frame, Some Cases.empty_frame) fn_sdr_fltp, 0).
Proof.
  assert (Hok : acc_ok (Cases.running (Some Cases.empty_frame, Some Cases.empty_frame)
                          fn_sdr_fltp)).
  { split; repeat constructor. }
  split; [exact Hok|].
  exact (kernel_empty_block fn_sdr_fltp
           (Cases.running (Some Cases.empty_frame, Some Cases.empty_frame) fn_sdr_fltp)
           Cases.empty_frame Cases.empty_frame 0 1 eq_refl
           ltac:(vm_compute; discriminate) ltac:(lia)
           ltac:(split; vm_compute; discriminate) ltac:(vm_compute; discriminate) Hok).
Defined.

Lemma plane_same_data (u v : AVFrame) (ch : Z) :
  extended_data v = extended_data u -> plane v ch = plane u ch.
Proof. unfold plane. intros ->. reflexivity. Qed.

Lemma same_blocks_job (f : filter_fn) (s : AudioSDRContext) (u v : AVFrame)
    (jobnr nb_jobs : Z) :
  cache s = (Some u, Some v) ->
  finite_block u -> extended_data v = extended_data u ->
  0 <= jobnr < nb_jobs -> Forall total_ok (sum_uv s) ->
  sum_uv (fst (SDR_FILTER (ty_of f) s jobnr nb_jobs)) = sum_uv s.
Proof.
  intros Hc [Hshape Hfin] Hsame Hj Huv.
  destruct (SDR_FILTER_sums (ty_of f) s u v jobnr nb_jobs Hc) as [_ ->].
  apply fold_add_zero; [|exact Huv].
  apply Forall_forall. intros ch Hin.
  pose proof (job_range_within _ _ _ _ (frame_shape_channels u Hshape) Hj Hin) as Hch.
  destruct (plane_in_shape u ch _ Hshape Hfin Hch) as [Hlen Hall].
  rewrite local_sums_blocks by (rewrite ?(plane_same_data u v ch Hsame); exact Hlen).
  cbn [snd]. rewrite (plane_same_data u v ch Hsame).
  apply block_distortion_self. exact Hall.
Qed.

(** X4: when the test block holds the very samples of the reference block,
    all of them finite, a job of the kernel leaves every distortion total
    as it was: each difference is +0, so is the sum of the squares. *)
Theorem identical_blocks_no_distortion (f : filter_fn) (s : AudioSDRContext) (u v : AVFrame)
    (jobnr nb_jobs : Z) :
  cache s = (Some u, Some v) ->
  finite_block u -> extended_data v = extended_data u ->
  0 <= jobnr < nb_jobs -> nb_channels u <= Z.of_nat (length (sum_uv s)) -> acc_ok s ->
  sum_uv (fst (call_filter f s jobnr nb_jobs)) = sum_uv s.
Proof.
  intros Hc Hfin Hsame Hj _ [_ Huv]. rewrite call_filter_ty.
  apply (same_blocks_job f s u v); assumption.
Qed.

Lemma identical_blocks_no_distortion_witness :
  finite_block Cases.pair_frame /\
  sum_uv (fst (sdr_fltp (Cases.running (Some Cases.pair_frame, Some Cases.pair_frame)
                           fn_sdr_fltp) 0 1))
  = [IEEE.of_Z64 1; IEEE.zero].
Proof.
  assert (Hfin : finite_block Cases.pair_frame).
  { split; [split; [reflexivity|]|]; repeat constructor. }
  split; [exact Hfin|].
  exact (identical_blocks_no_distortion fn_sdr_fltp
           (Cases.running (Some Cases.pair_frame, Some Cases.pair_frame) fn_sdr_fltp)
           Cases.pair_frame Cases.pair_frame 0 1 eq_refl Hfin eq_refl
           ltac:(lia) ltac:(vm_compute; discriminate) ltac:(split; repeat constructor)).
Defined.

Lemma sample_loop_snd_swap (f : filter_fn) (us vs : list spec_float) (idx : list Z) :
  forall acc acc' : spec_float * spec_float,
    snd acc = snd acc' ->
    snd (fold_left (fun a n => sample_step (ty_of f) us vs n a) idx acc)
    = snd (fold_left (fun a n => sample_step (ty_of f) vs us n a) idx acc').
Proof.
  induction idx as [|n idx IH]; intros acc acc' Hacc; [exact Hacc|].
  cbn [fold_left]. apply IH. unfold sample_step. cbn [snd].
  rewrite Hacc, (ty_square_swap f (arr_get us n) (arr_get vs n)). reflexivity.
Qed.

(** X5: the distortion does not tell the reference from the test signal:
    with the two cached blocks, of the same shape, exchanged, a job of the
    kernel leaves the same distortion totals, whatever the samples are. *)
Theorem distortion_symmetric (f : filter_fn) (s : AudioSDRContext) (u v : AVFrame)
    (jobnr nb_jobs : Z) :
  cache s = (Some u, Some v) ->
  frame_shape u -> frame_shape v ->
  nb_channels v = nb_channels u -> nb_samples v = nb_samples u ->
  0 <= jobnr < nb_jobs ->
  sum_uv (fst (call_filter f (set_cache s (Some v, Some u)) jobnr nb_jobs))
  = sum_uv (fst (call_filter f s jobnr nb_jobs)).
Proof.
  intros Hc _ _ HC Hn _. rewrite call_filter_ty.
  destruct (SDR_FILTER_sums (ty_of f) s u v jobnr nb_jobs Hc) as [_ ->].
  destruct (SDR_FILTER_sums (ty_of f) (set_cache s (Some v, Some u)) v u jobnr nb_jobs eq_refl)
    as [_ ->].
  cbn [set_cache sum_uv]. rewrite HC.
  apply fold_add_ext. apply Forall_forall. intros ch _.
  unfold local_sums, for_loop. rewrite Hn. apply sample_loop_snd_swap. reflexivity.
Qed.

Lemma distortion_symmetric_witness :
  frame_shape Sample.stereo_u /\ frame_shape Sample.stereo_v /\
  sum_uv (fst (sdr_dblp (set_cache Sample.stereo_priv
                           (Some Sample.stereo_v, Some Sample.stereo_u)) 0 1))
  = sum_uv (fst (sdr_dblp Sample.stereo_priv 0 1)).
Proof.
  assert (Hu : frame_shape Sample.stereo_u) by (split; [reflexivity | repeat constructor]).
  assert (Hv : frame_shape Sample.stereo_v) by (split; [reflexivity | repeat constructor]).
  split; [exact Hu|]. split; [exact Hv|].
  exact (distortion_symmetric fn_sdr_dblp Sample.stereo_priv Sample.stereo_u Sample.stereo_v
           0 1 eq_refl Hu Hv eq_refl eq_refl ltac:(lia)).
Defined.

(** X6: against a silent reference block (zeros of either sign) a job of
    the kernel leaves every energy total as it was and adds to the
    distortion total of each of its channels the energy of the test block,
    whatever the test samples are. *)
Theorem silent_reference (f : filter_fn) (s : AudioSDRContext) (u v : AVFrame)
    (jobnr nb_jobs : Z) :
  cache s = (Some u, Some v) ->
  silent_block u -> frame_shape v ->
  nb_channels v = nb_channels u -> nb_samples v = nb_samples u ->
  0 <= jobnr < nb_jobs -> nb_channels u <= Z.of_nat (length (sum_u s)) -> acc_ok s ->
  let s' := fst (call_filter f s jobnr nb_jobs) in
  sum_u s' = sum_u s /\
  (forall ch,
     job_start (nb_channels u) jobnr nb_jobs <= ch < job_end (nb_channels u) jobnr nb_jobs ->
     ch < Z.of_nat (length (sum_uv s)) ->
     arr_get (sum_uv s') ch
       = IEEE.add64 (arr_get (sum_uv s) ch) (block_energy (ty_of f) (plane v ch))).
Proof.
  intros Hc [Hshape Hzero] Hshape_v HC Hn Hj _ [Hu Huv]. cbn zeta. rewrite call_filter_ty.
  pose proof (frame_shape_channels u Hshape) as HC0.
  split.
  - destruct (SDR_FILTER_sums (ty_of f) s u v jobnr nb_jobs Hc) as [-> _].
    apply fold_add_zero; [|exact Hu].
    apply Forall_forall. intros ch Hin.
    pose proof (job_range_within _ _ _ _ HC0 Hj Hin) as Hch.
    destruct (plane_in_shape u ch _ Hshape Hzero Hch) as [Hlen Hall].
    assert (Hany : Forall (Forall (fun _ : spec_float => True)) (extended_data v)).
    { apply Forall_forall. intros p _. apply Forall_forall. auto. }
    destruct (plane_in_shape v ch _ Hshape_v Hany ltac:(lia)) as [Hlen_v _].
    rewrite local_sums_blocks by lia. cbn [fst].
    apply block_energy_silence. exact Hall.
  - intros ch Hch Hlen.
    assert (Hin : 0 <= ch < nb_channels u).
    { apply (job_range_within (nb_channels u) nb_jobs jobnr ch HC0 Hj).
      apply elem_of_job_range. exact Hch. }
    destruct (SDR_FILTER_channel (ty_of f) s u v jobnr nb_jobs ch Hc HC0 ltac:(lia)
                ltac:(lia) ltac:(lia)) as [Hrange _].
    destruct (Hrange Hch) as [_ Hd]. rewrite (Hd Hlen).
    destruct (plane_in_shape u ch _ Hshape Hzero Hin) as [Hlen_u Hall].
    assert (Hany : Forall (Forall (fun _ : spec_float => True)) (extended_data v)).
    { apply Forall_forall. intros p _. apply Forall_forall. auto. }
    destruct (plane_in_shape v ch _ Hshape_v Hany ltac:(lia)) as [Hlen_v _].
    rewrite local_sums_blocks by lia. cbn [snd].
    unfold block_distortion, block_energy.
    rewrite (distortion_fold_silence f (plane u ch) Hall) by lia. reflexivity.
Qed.

Lemma silent_reference_witness :
  silent_block Cases.silence /\
  sum_u (fst (sdr_fltp (Cases.running (Some Cases.silence, Some Cases.pair_frame)
                          fn_sdr_fltp) 0 1))
  = [IEEE.of_Z64 30; IEEE.zero].
Proof.
  assert (Hs : silent_block Cases.silence).
  { split; [split; [reflexivity|]|]; repeat constructor. }
  split; [exact Hs|].
  refine (proj1 (silent_reference fn_sdr_fltp
            (Cases.running (Some Cases.silence, Some Cases.pair_frame) fn_sdr_fltp)
            Cases.silence Cases.pair_frame 0 1 eq_refl Hs _ eq_refl eq_refl
            ltac:(lia) ltac:(vm_compute; discriminate) ltac:(split; repeat constructor))).
  split; [reflexivity | repeat constructor].
Defined.

(** ** What every step keeps *)

(** An invariant of one array of totals that survives an addition into any
    slot survives the kernel, the executor, the step and any number of
    steps. *)
Section SlotInvariant.
Variable P : list spec_float -> Prop.
Hypothesis Pstep :
  forall (a : list spec_float) (ch : Z) (d : spec_float),
    P a -> P (arr_set a ch (IEEE.add64 (arr_get a ch) d)).

Lemma fold_add_inv (d : Z -> spec_float) (chs : list Z) :
  forall a : list spec_float,
    P a -> P (fold_left (fun a ch => arr_set a ch (IEEE.add64 (arr_get a ch) (d ch))) chs a).
Proof.
  induction chs as [|c chs IH]; intros a Ha; [exact Ha|].
  cbn [fold_left]. apply IH, Pstep, Ha.
Qed.

Lemma SDR_FILTER_inv (ty : sample_type) (s : AudioSDRContext) (jobnr nb_jobs : Z) :
  (P (sum_u s) -> P (sum_u (fst (SDR_FILTER ty s jobnr nb_jobs)))) /\
  (P (sum_uv s) -> P (sum_uv (fst (SDR_FILTER ty s jobnr nb_jobs)))).
Proof.
  destruct (cache s) as [[u|] [v|]] eqn:Hc;
    try (rewrite SDR_FILTER_no_block by (rewrite Hc; cbn; auto); split; auto).
  destruct (SDR_FILTER_sums ty s u v jobnr nb_jobs Hc) as [-> ->].
  split; apply fold_add_inv.
Qed.

Lemma execute_sched_inv (ty : sample_type) (sched : list Z) (nb_jobs : Z) :
  forall s : AudioSDRContext,
    (P (sum_u s) -> P (sum_u (execute_sched sched (SDR_FILTER ty) nb_jobs s))) /\
    (P (sum_uv s) -> P (sum_uv (execute_sched sched (SDR_FILTER ty) nb_jobs s))).
Proof.
  unfold execute_sched. induction sched as [|j sched IH]; intros s; cbn [fold_left].
  - auto.
  - destruct (IH (fst (SDR_FILTER ty s j nb_jobs))) as [IHu IHuv].
    destruct (SDR_FILTER_inv ty s j nb_jobs) as [Hu Huv]. auto.
Qed.

Lemma ff_filter_execute_inv (fo : option filter_fn) (nb_jobs : Z) (s : AudioSDRContext) :
  (P (sum_u s) -> P (sum_u (ff_filter_execute fo nb_jobs s))) /\
  (P (sum_uv s) -> P (sum_uv (ff_filter_execute fo nb_jobs s))).
Proof.
  destruct fo as [f|]; cbn [ff_filter_execute]; [|auto].
  rewrite call_filter_ty. apply execute_sched_inv.
Qed.

Context {Link : Type} {API : FilterAPI Link}.

Lemma activate_inv (ctx : AVFilterContext Link) :
  (P (sum_u (priv ctx)) -> P (sum_u (priv (snd (activate ctx))))) /\
  (P (sum_uv (priv ctx)) -> P (sum_uv (priv (snd (activate ctx))))).
Proof.
  destruct (activate_totals_cases ctx) as [[-> ->]|Hm]; [auto|].
  destruct Hm as (_ & _ & Hdis & r0 & r1 & f0 & f1 & l0 & l1 & _ & _ & -> & ->).
  unfold measured. destruct (is_disabled ctx =? 0); [|auto].
  match goal with
  | |- context [ff_filter_execute ?fo ?n ?s1] =>
      exact (ff_filter_execute_inv fo n s1)
  end.
Qed.

Lemma timeline_inv (flags : list Z) :
  forall ctx : AVFilterContext Link,
    (P (sum_u (priv ctx)) -> P (sum_u (priv (timeline_steps flags ctx)))) /\
    (P (sum_uv (priv ctx)) -> P (sum_uv (priv (timeline_steps flags ctx)))).
Proof.
  induction flags as [|d flags IH]; intros ctx; cbn [timeline_steps]; [auto|].
  destruct (IH (snd (activate (set_disabled ctx d)))) as [IHu IHuv].
  destruct (activate_inv (set_disabled ctx d)) as [Hu Huv]. auto.
Qed.

Lemma steps_inv (n : nat) :
  forall ctx : AVFilterContext Link,
    (P (sum_u (priv ctx)) -> P (sum_u (priv (steps n ctx)))) /\
    (P (sum_uv (priv ctx)) -> P (sum_uv (priv (steps n ctx)))).
Proof.
  induction n as [|n IH]; intros ctx; cbn [steps]; [auto|].
  destruct (IH (snd (activate ctx))) as [IHu IHuv].
  destruct (activate_inv ctx) as [Hu Huv]. auto.
Qed.
End SlotInvariant.

Section StepFacts.
Context {Link : Type} {API : FilterAPI Link}.

(** The private context after a step: as before, as before with the cache
    emptied, or as the kernel left it with the cache emptied. *)
Lemma activate_priv_cases (ctx : AVFilterContext Link) :
  is_disabled (snd (activate ctx)) = is_disabled ctx /\
  (priv (snd (activate ctx)) = priv ctx \/
   priv (snd (activate ctx)) = set_cache (priv ctx) (None, None) \/
   exists (f0 f1 : option AVFrame) (l0 l1 : Link),
     priv (snd (activate ctx)) = set_cache (measured ctx f0 f1 l0 l1) (None, None)).
Proof.
  destruct (FF_FILTER_FORWARD_STATUS_BACK_ALL (outputs ctx) (inputs ctx)) as [ins|] eqn:Hgo.
  { rewrite (activate_status_back ctx ins Hgo). split; [reflexivity | left; reflexivity]. }
  destruct (Z_gt_le_dec (available ctx) 0) as [Hav|Hav].
  - destruct (ff_inlink_consume_samples (fst (inputs ctx)) (available ctx) (available ctx))
      as [[r0 f0] l0] eqn:H0.
    destruct (Z_lt_le_dec r0 0) as [Hr0|Hr0].
    { rewrite (activate_fail_first ctx r0 f0 l0) by assumption.
      split; [reflexivity | right; left; reflexivity]. }
    destruct (ff_inlink_consume_samples (snd (inputs ctx)) (available ctx) (available ctx))
      as [[r1 f1] l1] eqn:H1.
    destruct (Z_lt_le_dec r1 0) as [Hr1|Hr1].
    { rewrite (activate_fail_second ctx r0 r1 f0 f1 l0 l1) by assumption.
      split; [reflexivity | right; left; reflexivity]. }
    rewrite (activate_blocks ctx r0 r1 f0 f1 l0 l1) by assumption.
    split; [reflexivity|]. right; right. exists f0, f1, l0, l1. reflexivity.
  - destruct (ff_inlink_acknowledge_status (fst (inputs ctx))) as [[[r0 st0] pts0] l0] eqn:H0.
    destruct (Z.eq_dec r0 0) as [->|Hr0].
    + destruct (ff_inlink_acknowledge_status (snd (inputs ctx)))
        as [[[r1 st1] pts1] l1] eqn:H1.
      destruct (Z.eq_dec r1 0) as [->|Hr1].
      * rewrite (activate_no_status ctx st0 pts0 st1 pts1 l0 l1) by assumption.
        destruct (ff_outlink_frame_wanted (outputs ctx) =? 0);
          (split; [reflexivity | left; reflexivity]).
      * rewrite (activate_status_second ctx st0 pts0 r1 st1 pts1 l0 l1) by assumption.
        split; [reflexivity | left; reflexivity].
    + rewrite (activate_status_first ctx r0 st0 pts0 l0) by assumption.
      split; [reflexivity | left; reflexivity].
Qed.

Lemma measured_fields (ctx : AVFilterContext Link) (f0 f1 : option AVFrame) (l0 l1 : Link) :
  filter (measured ctx f0 f1 l0 l1) = filter (priv ctx) /\
  channels (measured ctx f0 f1 l0 l1) = channels (priv ctx).
Proof.
  unfold measured. destruct (is_disabled ctx =? 0); [|split; reflexivity].
  match goal with
  | |- context [ff_filter_execute ?fo ?n ?s1] =>
      destruct (ff_filter_execute_cache fo n s1) as (_ & -> & ->)
  end.
  split; reflexivity.
Qed.

Lemma activate_fields (ctx : AVFilterContext Link) :
  filter (priv (snd (activate ctx))) = filter (priv ctx) /\
  channels (priv (snd (activate ctx))) = channels (priv ctx) /\
  is_disabled (snd (activate ctx)) = is_disabled ctx /\
  (cache (priv ctx) = (None, None) -> cache (priv (snd (activate ctx))) = (None, None)).
Proof.
  destruct (activate_priv_cases ctx) as [Hdis [->|[->|(f0 & f1 & l0 & l1 & ->)]]];
    cbn [set_cache filter channels cache]; auto.
  destruct (measured_fields ctx f0 f1 l0 l1) as [-> ->]. auto.
Qed.

Lemma timeline_fields (flags : list Z) :
  forall ctx : AVFilterContext Link,
    filter (priv (timeline_steps flags ctx)) = filter (priv ctx) /\
    channels (priv (timeline_steps flags ctx)) = channels (priv ctx) /\
    (cache (priv ctx) = (None, None) ->
     cache (priv (timeline_steps flags ctx)) = (None, None)).
Proof.
  induction flags as [|d flags IH]; intros ctx; cbn [timeline_steps]; [auto|].
  destruct (IH (snd (activate (set_disabled ctx d)))) as (-> & -> & Hc).
  destruct (activate_fields (set_disabled ctx d)) as (-> & -> & _ & Hc').
  repeat split; auto.
Qed.

Lemma length_add_slot (k : nat) (a : list spec_float) (ch : Z) (d : spec_float) :
  length a = k -> length (arr_set a ch (IEEE.add64 (arr_get a ch) d)) = k.
Proof. intros <-. unfold arr_set. apply length_insert. Qed.

(** X7: whatever happens in them, and whatever the disabled flag is when
    the guard of each step reads it, any number of steps leave the
    configuration alone: the kernel pointer, the channel count and the
    length of the two arrays of totals are as before, and a cache that is
    empty before the steps is empty after them: no block is held from one
    step to the next. *)
Theorem steps_keep_configuration (ctx : AVFilterContext Link) (flags : list Z) :
  let ctx' := timeline_steps flags ctx in
  filter (priv ctx') = filter (priv ctx) /\
  channels (priv ctx') = channels (priv ctx) /\
  length (sum_u (priv ctx')) = length (sum_u (priv ctx)) /\
  length (sum_uv (priv ctx')) = length (sum_uv (priv ctx)) /\
  (cache (priv ctx) = (None, None) -> cache (priv ctx') = (None, None)).
Proof.
  cbn zeta. destruct (timeline_fields flags ctx) as (Hf & Hc & Hcache).
  destruct (timeline_inv (fun a => length a = length (sum_u (priv ctx)))
              (length_add_slot _) flags ctx) as [Hu _].
  destruct (timeline_inv (fun a => length a = length (sum_uv (priv ctx)))
              (length_add_slot _) flags ctx) as [_ Huv].
  repeat split; auto.
Qed.


(** X9: with nothing to pair, no status on either input and no frame
    wanted downstream, the step returns FFERROR_NOT_READY; it requests no
    frame, sends nothing and leaves the private context and the output
    link as they were. *)
Theorem activate_not_ready (ctx : AVFilterContext Link)
    (st0 pts0 st1 pts1 : Z) (l0 l1 : Link) :
  goes_on ctx -> available ctx <= 0 ->
  ff_inlink_acknowledge_status (fst (inputs ctx)) = (0, st0, pts0, l0) ->
  ff_inlink_acknowledge_status (snd (inputs ctx)) = (0, st1, pts1, l1) ->
  ff_outlink_frame_wanted (outputs ctx) = 0 ->
  activate ctx
  = (FFERROR_NOT_READY, mkAVFilterContext (priv ctx) (l0, l1) (outputs ctx) (is_disabled ctx)).
Proof.
  intros Hgo Hav H0 H1 Hw.
  rewrite (activate_no_status ctx st0 pts0 st1 pts1 l0 l1) by assumption.
  rewrite Hw. reflexivity.
Qed.

(** X10: the inputs are asked for their status in order, and the first
    status found ends the step: when input 0 has one, it is that status and
    that timestamp that go downstream, and input 1 is not asked, whatever
    it holds; its own status stays to be acknowledged. *)
Theorem activate_status_priority (ctx : AVFilterContext Link) (r0 st0 pts0 : Z) (l0 : Link) :
  goes_on ctx -> available ctx <= 0 ->
  ff_inlink_acknowledge_status (fst (inputs ctx)) = (r0, st0, pts0, l0) -> r0 <> 0 ->
  let ctx' := snd (activate ctx) in
  fst (activate ctx) = 0 /\
  inputs ctx' = (l0, snd (inputs ctx)) /\
  outputs ctx' = ff_outlink_set_status (outputs ctx) st0 pts0 /\
  priv ctx' = priv ctx.
Proof.
  intros Hgo Hav H0 Hr0. cbn zeta.
  rewrite (activate_status_first ctx r0 st0 pts0 l0) by assumption.
  repeat split.
Qed.

(** X11: a step that returns 0 for want of samples always asks for more:
    with nothing to pair, no status and a frame wanted downstream, a frame
    is requested on at least one input, and never on an input that still
    has samples buffered.  (Asking a link for its status, when it has
    none, does not change what it has buffered.) *)
Theorem activate_requests_progress (ctx : AVFilterContext Link)
    (st0 pts0 st1 pts1 : Z) (l0 l1 : Link) :
  goes_on ctx -> available ctx <= 0 ->
  ff_inlink_acknowledge_status (fst (inputs ctx)) = (0, st0, pts0, l0) ->
  ff_inlink_acknowledge_status (snd (inputs ctx)) = (0, st1, pts1, l1) ->
  ff_inlink_queued_samples l0 = ff_inlink_queued_samples (fst (inputs ctx)) ->
  ff_inlink_queued_samples l1 = ff_inlink_queued_samples (snd (inputs ctx)) ->
  ff_outlink_frame_wanted (outputs ctx) <> 0 ->
  let ctx' := snd (activate ctx) in
  fst (activate ctx) = 0 /\
  (fst (inputs ctx') = ff_inlink_request_frame l0 \/
   snd (inputs ctx') = ff_inlink_request_frame l1) /\
  (ff_inlink_queued_samples l0 > 0 -> fst (inputs ctx') = l0) /\
  (ff_inlink_queued_samples l1 > 0 -> snd (inputs ctx') = l1).
Proof.
  intros Hgo Hav H0 H1 Hq0 Hq1 Hw. cbn zeta.
  rewrite (activate_no_status ctx st0 pts0 st1 pts1 l0 l1) by assumption.
  destruct (Z.eqb_spec (ff_outlink_frame_wanted (outputs ctx)) 0) as [|_]; [contradiction|].
  cbn [fst snd inputs]. unfold request_if_empty.
  unfold available in Hav. rewrite FFMIN_min, <- Hq0, <- Hq1 in Hav.
  split; [reflexivity|].
  destruct (Z.gtb_spec (ff_inlink_queued_samples l0) 0);
    destruct (Z.gtb_spec (ff_inlink_queued_samples l1) 0);
    repeat split; auto; try lia.
Qed.
End StepFacts.

Lemma steps_keep_configuration_witness :
  cache (priv Sample.mono_ctx) = (None, None) /\
  cache (priv (timeline_steps (API := queue_api 4) [0; 1] Sample.mono_ctx)) = (None, None) /\
  length (sum_u (priv (timeline_steps (API := queue_api 4) [0; 1] Sample.mono_ctx))) = 1%nat.
Proof.
  destruct (steps_keep_configuration (API := queue_api 4) Sample.mono_ctx [0; 1])
    as (_ & _ & Hlen & _ & Hcache).
  split; [reflexivity|]. split; [exact (Hcache eq_refl) | rewrite Hlen; reflexivity].
Defined.


Lemma activate_not_ready_witness :
  goes_on (API := queue_api 4)
    (mkAVFilterContext (priv Sample.hungry_ctx) (inputs Sample.hungry_ctx)
       (q_set_status (outputs Sample.hungry_ctx) 0 0) 0) /\
  fst (activate (API := queue_api 4)
         (mkAVFilterContext (priv Sample.hungry_ctx) (inputs Sample.hungry_ctx)
            (q_set_status (outputs Sample.hungry_ctx) 0 0) 0))
  = FFERROR_NOT_READY (FilterAPI := queue_api 4).
Proof.
  set (ctx := mkAVFilterContext (priv Sample.hungry_ctx) (inputs Sample.hungry_ctx)
                (q_set_status (outputs Sample.hungry_ctx) 0 0) 0).
  pose (k0 := q_acknowledge (fst (inputs ctx))).
  pose (k1 := q_acknowledge (snd (inputs ctx))).
  assert (Hgo : goes_on (API := queue_api 4) ctx) by reflexivity.
  split; [exact Hgo|].
  rewrite (activate_not_ready (API := queue_api 4) ctx
             (snd (fst (fst k0))) (snd (fst k0)) (snd (fst (fst k1))) (snd (fst k1))
             (snd k0) (snd k1) Hgo ltac:(vm_compute; discriminate) eq_refl eq_refl eq_refl).
  reflexivity.
Defined.

Lemma activate_status_priority_witness :
  goes_on (API := queue_api 4) Sample.eof_ctx /\
  available (API := queue_api 4) Sample.eof_ctx <= 0 /\
  snd (inputs (snd (activate (API := queue_api 4) Sample.eof_ctx)))
  = snd (inputs Sample.eof_ctx).
Proof.
  pose (k0 := q_acknowledge (fst (inputs Sample.eof_ctx))).
  assert (Hgo : goes_on (API := queue_api 4) Sample.eof_ctx) by reflexivity.
  assert (Hav : available (API := queue_api 4) Sample.eof_ctx <= 0)
    by (vm_compute; discriminate).
  destruct (activate_status_priority (API := queue_api 4) Sample.eof_ctx
              (fst (fst (fst k0))) (snd (fst (fst k0))) (snd (fst k0)) (snd k0)
              Hgo Hav eq_refl ltac:(vm_compute; discriminate)) as (_ & Hin & _).
  split; [exact Hgo|]. split; [exact Hav|]. rewrite Hin. reflexivity.
Defined.

Lemma activate_requests_progress_witness :
  goes_on (API := queue_api 4) Sample.hungry_ctx /\
  available (API := queue_api 4) Sample.hungry_ctx <= 0 /\
  q_requests (fst (inputs (snd (activate (API := queue_api 4) Sample.hungry_ctx)))) = 1 /\
  q_requests (snd (inputs (snd (activate (API := queue_api 4) Sample.hungry_ctx)))) = 0.
Proof.
  pose (k0 := q_acknowledge (fst (inputs Sample.hungry_ctx))).
  pose (k1 := q_acknowledge (snd (inputs Sample.hungry_ctx))).
  assert (Hgo : goes_on (API := queue_api 4) Sample.hungry_ctx) by reflexivity.
  assert (Hav : available (API := queue_api 4) Sample.hungry_ctx <= 0)
    by (vm_compute; discriminate).
  destruct (activate_requests_progress (API := queue_api 4) Sample.hungry_ctx
              (snd (fst (fst k0))) (snd (fst k0)) (snd (fst (fst k1))) (snd (fst k1))
              (snd k0) (snd k1) Hgo Hav eq_refl eq_refl eq_refl eq_refl
              ltac:(vm_compute; discriminate)) as (_ & _ & _ & Hkeep).
  split; [exact Hgo|]. split; [exact Hav|].
  split; [reflexivity|].
  rewrite (Hkeep ltac:(reflexivity)). reflexivity.
Defined.

(** ** Over the life of the filter *)

Lemma nan_slot_stays (i : nat) (a : list spec_float) (ch : Z) (d : spec_float) :
  a !! i = Some S754_nan ->
  arr_set a ch (IEEE.add64 (arr_get a ch) d) !! i = Some S754_nan.
Proof.
  intros Ha. rewrite lookup_add_in_place. case_decide; [|exact Ha].
  rewrite Ha. reflexivity.
Qed.

Lemma arr_get_lookup (a : list spec_float) (ch : Z) (x : spec_float) :
  a !! Z.to_nat ch = Some x -> arr_get a ch = x.
Proof. unfold arr_get. intros ->. reflexivity. Qed.

Lemma lookup_arr_get (a : list spec_float) (ch : Z) :
  0 <= ch < Z.of_nat (length a) -> a !! Z.to_nat ch = Some (arr_get a ch).
Proof.
  intros Hch. unfold arr_get.
  destruct (lookup_lt_is_Some_2 a (Z.to_nat ch) ltac:(lia)) as [x ->]. reflexivity.
Qed.

Lemma execute_same_blocks (f : filter_fn) (u v : AVFrame) (N : Z) (sched : list Z) :
  finite_block u -> extended_data v = extended_data u ->
  Forall (fun j => 0 <= j < N) sched ->
  forall s : AudioSDRContext,
    cache s = (Some u, Some v) -> Forall total_ok (sum_uv s) ->
    sum_uv (execute_sched sched (SDR_FILTER (ty_of f)) N s) = sum_uv s.
Proof.
  intros Hfin Hsame Hsched. unfold execute_sched.
  induction Hsched as [|j sched Hj _ IH]; intros s Hc Huv; [reflexivity|].
  cbn [fold_left].
  pose proof (same_blocks_job f s u v j N Hc Hfin Hsame Hj Huv) as Hjob.
  destruct (SDR_FILTER_cache (ty_of f) s j N) as (Hcache & _ & _).
  rewrite IH; [exact Hjob | rewrite Hcache; exact Hc | rewrite Hjob; exact Huv].
Qed.

Section StreamFacts.
Context {Link : Type} {API : FilterAPI Link}.

Lemma activate_same_blocks (ctx : AVFilterContext Link) :
  Forall total_ok (sum_uv (priv ctx)) -> delivers_same ctx ->
  sum_uv (priv (snd (activate ctx))) = sum_uv (priv ctx).
Proof.
  intros Huv Hdel.
  destruct (activate_totals_cases ctx) as [[_ H]|Hm]; [exact H|].
  destruct Hm as (_ & _ & _ & r0 & r1 & f0 & f1 & l0 & l1 & H0 & H1 & _ & ->).
  unfold measured. destruct (is_disabled ctx =? 0); [|reflexivity].
  set (s1 := set_cache (priv ctx) (f0, f1)).
  destruct (filter s1) as [f|]; cbn [ff_filter_execute]; [|reflexivity].
  rewrite call_filter_ty.
  destruct f0 as [u|], f1 as [v|];
    try (rewrite execute_sched_no_block by (cbn; auto); reflexivity).
  destruct (Hdel r0 r1 u v l0 l1 H0 H1) as [Hfin Hsame].
  change (sum_uv (priv ctx)) with (sum_uv s1).
  apply (execute_same_blocks f u v); try assumption; try reflexivity.
  apply Forall_seqZ. intros j Hj. lia.
Qed.

Lemma steps_same_blocks (n : nat) :
  forall ctx : AVFilterContext Link,
    Forall total_ok (sum_uv (priv ctx)) ->
    (forall k, (k < n)%nat -> delivers_same (steps k ctx)) ->
    sum_uv (priv (steps n ctx)) = sum_uv (priv ctx).
Proof.
  induction n as [|n IH]; intros ctx Huv Hdel; cbn [steps]; [reflexivity|].
  pose proof (activate_same_blocks ctx Huv (Hdel 0%nat ltac:(lia))) as H1.
  rewrite IH; [exact H1 | rewrite H1; exact Huv |].
  intros k Hk. exact (Hdel (S k) ltac:(lia)).
Qed.

Lemma activate_disabled_totals (ctx : AVFilterContext Link) :
  is_disabled ctx <> 0 ->
  sum_u (priv (snd (activate ctx))) = sum_u (priv ctx) /\
  sum_uv (priv (snd (activate ctx))) = sum_uv (priv ctx).
Proof.
  intros Hdis.
  destruct (activate_totals_cases ctx) as [H|(_ & _ & H0 & _)]; [exact H | contradiction].
Qed.

(** X12: steps in which the filter is disabled measure nothing: after any
    number of steps, in each of which the guard of line 92 reads the
    disabled flag as set, the totals of every channel are as they were,
    whatever the inputs deliver. *)
Theorem disabled_steps_measure_nothing (ctx : AVFilterContext Link) (flags : list Z) :
  Forall (fun d => d <> 0) flags ->
  sum_u (priv (timeline_steps flags ctx)) = sum_u (priv ctx) /\
  sum_uv (priv (timeline_steps flags ctx)) = sum_uv (priv ctx).
Proof.
  intros Hflags. revert ctx.
  induction Hflags as [|d flags Hd _ IH]; intros ctx; cbn [timeline_steps]; [auto|].
  destruct (IH (snd (activate (set_disabled ctx d)))) as [-> ->].
  exact (activate_disabled_totals (set_disabled ctx d) Hd).
Qed.

Lemma config_output_ok (ctx : AVFilterContext Link) :
  let s := priv (snd (config_output true true ctx)) in
  channels s = link_nb_channels (fst (inputs ctx)) /\
  sum_u s = replicate (Z.to_nat (link_nb_channels (outputs ctx))) IEEE.zero /\
  sum_uv s = replicate (Z.to_nat (link_nb_channels (outputs ctx))) IEEE.zero.
Proof. repeat split. Qed.

Section Reports.
Variable log10 : spec_float -> spec_float.
Hypothesis log10_inf : log10 IEEE.pinf = IEEE.pinf.
Hypothesis log10_nan : log10 S754_nan = S754_nan.

Lemma sdr_db_nan_energy (s : AudioSDRContext) (ch : Z) :
  arr_get (sum_u s) ch = S754_nan -> sdr_db log10 s ch = S754_nan.
Proof using log10_nan.
  intros H. unfold sdr_db. rewrite H.
  change (IEEE.div64 S754_nan (arr_get (sum_uv s) ch)) with S754_nan.
  rewrite log10_nan. reflexivity.
Qed.

Lemma sdr_db_nan_distortion (s : AudioSDRContext) (ch : Z) :
  arr_get (sum_uv s) ch = S754_nan -> sdr_db log10 s ch = S754_nan.
Proof using log10_nan.
  intros H. unfold sdr_db. rewrite H.
  assert (Hd : IEEE.div64 (arr_get (sum_u s) ch) S754_nan = S754_nan)
    by (destruct (arr_get (sum_u s) ch); reflexivity).
  rewrite Hd, log10_nan. reflexivity.
Qed.

(** X13: a NaN total is final: once the energy or the distortion total of
    a channel is NaN it is NaN after any number of further steps, and the
    value reported for the channel at teardown is NaN. *)
Theorem nan_total_is_final (ctx : AVFilterContext Link) (n : nat) (ch : Z) :
  (0 <= ch < Z.of_nat (length (sum_u (priv ctx))) ->
   arr_get (sum_u (priv ctx)) ch = S754_nan ->
   arr_get (sum_u (priv (steps n ctx))) ch = S754_nan /\
   sdr_db log10 (priv (steps n ctx)) ch = S754_nan) /\
  (0 <= ch < Z.of_nat (length (sum_uv (priv ctx))) ->
   arr_get (sum_uv (priv ctx)) ch = S754_nan ->
   arr_get (sum_uv (priv (steps n ctx))) ch = S754_nan /\
   sdr_db log10 (priv (steps n ctx)) ch = S754_nan).
Proof using log10_nan.
  destruct (steps_inv (fun a => a !! Z.to_nat ch = Some S754_nan)
              (nan_slot_stays (Z.to_nat ch)) n ctx) as [Hu Huv].
  split; intros Hch Hnan.
  - assert (H : arr_get (sum_u (priv (steps n ctx))) ch = S754_nan).
    { apply arr_get_lookup, Hu. rewrite lookup_arr_get by exact Hch. rewrite Hnan.
      reflexivity. }
    split; [exact H | apply sdr_db_nan_energy; exact H].
  - assert (H : arr_get (sum_uv (priv (steps n ctx))) ch = S754_nan).
    { apply arr_get_lookup, Huv. rewrite lookup_arr_get by exact Hch. rewrite Hnan.
      reflexivity. }
    split; [exact H | apply sdr_db_nan_distortion; exact H].
Qed.

(** X14: a stream measured against itself has no distortion: when every
    distortion total is +0 and, step after step, the two inputs deliver
    the same blocks of finite samples, the distortion totals are still +0
    after any number of steps, and teardown reports +infinity for a
    channel whose energy is above 0 and NaN for a channel whose energy is
    0. *)
Theorem identical_streams_report (ctx : AVFilterContext Link) (n : nat) :
  Forall (fun x => x = IEEE.zero) (sum_uv (priv ctx)) ->
  (forall k, (k < n)%nat -> delivers_same (steps k ctx)) ->
  let s' := priv (steps n ctx) in
  sum_uv s' = sum_uv (priv ctx) /\
  (forall ch, 0 <= ch < Z.of_nat (length (sum_uv (priv ctx))) ->
     (IEEE.ltb IEEE.zero (arr_get (sum_u s') ch) = true -> sdr_db log10 s' ch = IEEE.pinf) /\
     (IEEE.eqb (arr_get (sum_u s') ch) IEEE.zero = true -> sdr_db log10 s' ch = S754_nan)).
Proof using log10_inf log10_nan.
  intros Hzero Hdel. cbn zeta.
  assert (Hok : Forall total_ok (sum_uv (priv ctx))).
  { eapply Forall_impl; [exact Hzero|]. intros x ->. exact total_ok_zero. }
  pose proof (steps_same_blocks n ctx Hok Hdel) as Hsame.
  split; [exact Hsame|]. intros ch Hch.
  assert (Hd : arr_get (sum_uv (priv (steps n ctx))) ch = IEEE.zero).
  { rewrite Hsame. apply arr_get_lookup.
    destruct (lookup_lt_is_Some_2 (sum_uv (priv ctx)) (Z.to_nat ch) ltac:(lia)) as [x Hx].
    rewrite Hx. f_equal. exact (proj1 (Forall_lookup _ _) Hzero _ _ Hx). }
  unfold sdr_db. rewrite Hd.
  destruct (arr_get (sum_u (priv (steps n ctx))) ch) as [s|s| |s m e]; split; intros H;
    try discriminate H; try (destruct s; discriminate H).
  - change (IEEE.div64 (S754_zero s) IEEE.zero) with S754_nan.
    rewrite log10_nan. reflexivity.
  - destruct s; [discriminate H|].
    change (IEEE.div64 (S754_infinity false) IEEE.zero) with IEEE.pinf.
    rewrite log10_inf. reflexivity.
  - destruct s; [discriminate H|].
    change (IEEE.div64 (S754_finite false m e) IEEE.zero) with IEEE.pinf.
    rewrite log10_inf. reflexivity.
Qed.

(** X15: a filter torn down right after its configuration, before any
    block was measured, reports NaN for every channel: both totals are
    0. *)
Theorem unused_filter_reports_nan (ctx : AVFilterContext Link) :
  link_nb_channels (fst (inputs ctx)) <= link_nb_channels (outputs ctx) ->
  fst (uninit log10 (priv (snd (config_output true true ctx))))
  = map (fun ch => (ch, S754_nan)) (seqZ 0 (link_nb_channels (fst (inputs ctx)))).
Proof using log10_nan.
  intros Hle. unfold uninit, for_loop. cbn [fst]. rewrite Z.sub_0_r, fold_snoc_map.
  cbn [app]. destruct (config_output_ok ctx) as (Hc & Hu & Huv). rewrite Hc.
  apply map_ext_in. intros ch Hin. f_equal.
  apply list_elem_of_In, elem_of_seqZ in Hin.
  unfold sdr_db. rewrite Hu, Huv.
  assert (Hz : arr_get (replicate (Z.to_nat (link_nb_channels (outputs ctx))) IEEE.zero) ch
               = IEEE.zero).
  { apply arr_get_lookup. apply lookup_replicate_2. lia. }
  rewrite Hz. change (IEEE.div64 IEEE.zero IEEE.zero) with S754_nan.
  rewrite log10_nan. reflexivity.
Qed.
End Reports.
End StreamFacts.

Lemma disabled_steps_measure_nothing_witness :
  Forall (fun d => d <> 0) [1; 1] /\
  q_queued (fst (inputs (timeline_steps (API := queue_api 4) [1; 1] Sample.mono_ctx))) = 0 /\
  sum_u (priv (timeline_steps (API := queue_api 4) [1; 1] Sample.mono_ctx)) = [IEEE.zero].
Proof.
  assert (Hflags : Forall (fun d => d <> 0) [1; 1]) by (repeat constructor; discriminate).
  split; [exact Hflags|]. split; [reflexivity|].
  destruct (disabled_steps_measure_nothing (API := queue_api 4) Sample.mono_ctx [1; 1] Hflags)
    as (Hu & _).
  rewrite Hu. reflexivity.
Defined.

Lemma nan_total_is_final_witness :
  Sample.log10_special S754_nan = S754_nan /\
  arr_get (sum_u (priv Streams.poisoned_ctx)) 0 = S754_nan /\
  sdr_db Sample.log10_special (priv (steps (API := queue_api 4) 3 Streams.poisoned_ctx)) 0
  = S754_nan.
Proof.
  assert (Hnan : arr_get (sum_u (priv Streams.poisoned_ctx)) 0 = S754_nan)
    by (vm_compute; reflexivity).
  split; [reflexivity|]. split; [exact Hnan|].
  destruct (nan_total_is_final (API := queue_api 4) Sample.log10_special eq_refl
              Streams.poisoned_ctx 3 0) as [Hu _].
  exact (proj2 (Hu ltac:(vm_compute; split; [discriminate | reflexivity]) Hnan)).
Defined.

Lemma identical_streams_report_witness :
  Forall (fun x => x = IEEE.zero) (sum_uv (priv Streams.same_ctx)) /\
  sum_uv (priv (steps (API := queue_api 4) 1 Streams.same_ctx)) = [IEEE.zero] /\
  sdr_db Sample.log10_special (priv (steps (API := queue_api 4) 1 Streams.same_ctx)) 0
  = IEEE.pinf.
Proof.
  assert (Hzero : Forall (fun x => x = IEEE.zero) (sum_uv (priv Streams.same_ctx)))
    by (repeat constructor).
  assert (Hdel : forall k, (k < 1)%nat ->
                   delivers_same (API := queue_api 4)
                     (steps (API := queue_api 4) k Streams.same_ctx)).
  { intros k Hk. destruct k as [|k]; [|exfalso; inversion Hk as [|? Hk']; inversion Hk'].
    intros r0 r1 u v l0 l1 H0 H1.
    vm_compute in H0, H1.
    injection H0 as _ <- _. injection H1 as _ <- _.
    split; [split; [split; [reflexivity|]|]; repeat constructor | reflexivity]. }
  destruct (identical_streams_report (API := queue_api 4) Sample.log10_special eq_refl eq_refl
              Streams.same_ctx 1 Hzero Hdel) as [Hsame Hrep].
  split; [exact Hzero|]. split; [rewrite Hsame; reflexivity|].
  destruct (Hrep 0 ltac:(vm_compute; split; [discriminate | reflexivity])) as [Hinf _].
  apply Hinf. vm_compute. reflexivity.
Defined.

Lemma unused_filter_reports_nan_witness :
  Sample.log10_special S754_nan = S754_nan /\
  fst (uninit Sample.log10_special
         (priv (snd (config_output (API := queue_api 4) true true
                       (Sample.fresh AV_SAMPLE_FMT_FLTP 2 [] [])))))
  = [(0, S754_nan); (1, S754_nan)].
Proof.
  split; [reflexivity|].
  rewrite (unused_filter_reports_nan (API := queue_api 4) Sample.log10_special eq_refl
             (Sample.fresh AV_SAMPLE_FMT_FLTP 2 [] []) ltac:(vm_compute; discriminate)).
  reflexivity.
Defined.

(** ** Roundings that are exact *)

Section ExactShifts.

Lemma shr_1_even (m : Z) :
  0 <= m -> shr_1 (Build_shr_record (m * 2) false false) = Build_shr_record m false false.
Proof.
  intros Hm. destruct m as [|p|p]; [reflexivity| |lia].
  change (Z.pos p * 2) with (Z.pos (p * 2)). rewrite Pos.mul_comm. reflexivity.
Qed.

(** Shifting out [n] zero bits loses nothing. *)
Lemma shr_iter_exact (n : positive) :
  forall m : Z,
    0 <= m ->
    SpecFloat.iter_pos shr_1 n (Build_shr_record (m * 2 ^ Zpos n) false false)
    = Build_shr_record m false false.
Proof.
  induction n as [n IH|n IH|]; intros m Hm; cbn [SpecFloat.iter_pos].
  - replace (m * 2 ^ Zpos n~1) with ((m * 2 ^ Zpos n * 2 ^ Zpos n) * 2).
    + rewrite shr_1_even by (apply Z.mul_nonneg_nonneg; [apply Z.mul_nonneg_nonneg|]; lia).
      rewrite IH by (apply Z.mul_nonneg_nonneg; lia). apply IH. exact Hm.
    + change (Zpos n~1) with (2 * Zpos n + 1).
      replace (2 * Zpos n + 1) with (Zpos n + Zpos n + 1) by lia.
      rewrite !Z.pow_add_r by lia. rewrite Z.pow_1_r. lia.
  - replace (m * 2 ^ Zpos n~0) with ((m * 2 ^ Zpos n) * 2 ^ Zpos n).
    + rewrite IH by (apply Z.mul_nonneg_nonneg; lia). apply IH. exact Hm.
    + change (Zpos n~0) with (2 * Zpos n).
      replace (2 * Zpos n) with (Zpos n + Zpos n) by lia.
      rewrite !Z.pow_add_r by lia. lia.
  - rewrite Z.pow_1_r. apply shr_1_even. exact Hm.
Qed.

Lemma shr_exact (m e n : Z) :
  0 <= m -> 0 <= n ->
  shr (Build_shr_record (m * 2 ^ n) false false) e n = (Build_shr_record m false false, e + n).
Proof.
  intros Hm Hn. destruct n as [|p|p]; [| |lia]; cbn [shr].
  - rewrite Z.pow_0_r, Z.mul_1_r, Z.add_0_r. reflexivity.
  - rewrite shr_iter_exact by exact Hm. reflexivity.
Qed.

Lemma Zdigits2_upper (z p : Z) : 0 <= p -> Z.abs z < 2 ^ p -> Zdigits2 z <= p.
Proof.
  intros Hp Hz. destruct (Z.eq_dec z 0) as [->|Hnz]; [cbn; lia|].
  assert (Habs : Zdigits2 z = Zdigits2 (Z.abs z)) by (destruct z; reflexivity).
  rewrite Habs. destruct (Zdigits2_bounds (Z.abs z) ltac:(lia)) as [Hlo _].
  destruct (Z.le_gt_cases (Zdigits2 (Z.abs z)) p) as [|Hgt]; [assumption|exfalso].
  assert (2 ^ p <= 2 ^ (Zdigits2 (Z.abs z) - 1)) by (apply Z.pow_le_mono_r; lia).
  lia.
Qed.
End ExactShifts.

Section ExactRounding.
Variables prec emax : Z.
Hypothesis Hprec : 0 < prec.
Hypothesis Hemax : prec < emax.

Abbreviation fexp_ := (SpecFloat.fexp prec emax).
Abbreviation emin_ := (SpecFloat.emin prec emax).

(** A mantissa [m * 2^k] at exponent [e], whose canonical exponent [e0]
    lies between [e] and [e + k], rounds to [m * 2^(e + k - e0)] at [e0]:
    only zero bits are shifted out. *)
Lemma binary_round_aux_shift (s : bool) (M m : positive) (k e : Z) :
  0 <= k -> Zpos M = Zpos m * 2 ^ k ->
  let e0 := fexp_ (Zpos (digits2_pos m) + k + e) in
  e <= e0 <= e + k -> e0 <= emax - prec ->
  exists M0 : positive,
    Zpos M0 = Zpos m * 2 ^ (e + k - e0) /\
    binary_round_aux prec emax s (Zpos M) e loc_Exact = S754_finite s M0 e0.
Proof using.
  intros Hk HM e0 He0 Hmax.
  assert (HdM : Zdigits2 (Zpos M) = Zpos (digits2_pos m) + k).
  { rewrite HM, Zdigits2_shl by lia. reflexivity. }
  set (M1 := Zpos m * 2 ^ (e + k - e0)).
  assert (HM1 : 0 < M1) by (apply Z.mul_pos_pos; [lia | apply Z.pow_pos_nonneg; lia]).
  assert (Hsplit : Zpos M = M1 * 2 ^ (e0 - e)).
  { unfold M1. rewrite HM, <- Z.mul_assoc, <- Z.pow_add_r by lia. f_equal. f_equal. lia. }
  assert (HdM1 : Zdigits2 M1 = Zpos (digits2_pos m) + (e + k - e0)).
  { unfold M1. rewrite Zdigits2_shl by lia. reflexivity. }
  destruct M1 as [|M0|M0] eqn:HM0; try lia.
  exists M0. split; [reflexivity|].
  unfold binary_round_aux, shr_fexp. rewrite HdM. fold e0.
  cbn [shr_record_of_loc]. rewrite Hsplit, shr_exact by lia.
  cbn [shr_m loc_of_shr_record round_nearest_even shr_record_of_loc].
  rewrite HdM1.
  replace (Zpos (digits2_pos m) + (e + k - e0) + (e + (e0 - e)))
    with (Zpos (digits2_pos m) + k + e) by lia.
  fold e0. replace (e + (e0 - e)) with e0 by lia.
  rewrite Z.sub_diag. cbn [shr shr_m].
  destruct (Z.leb_spec e0 (emax - prec)); [reflexivity|lia].
Qed.

Lemma binary_round_shift (s : bool) (M m : positive) (k e : Z) :
  0 <= k -> Zpos M = Zpos m * 2 ^ k ->
  let e0 := fexp_ (Zpos (digits2_pos m) + k + e) in
  e0 <= e + k -> e0 <= emax - prec ->
  exists M0 : positive,
    Zpos M0 = Zpos m * 2 ^ (e + k - e0) /\
    binary_round prec emax s M e = S754_finite s M0 e0.
Proof using.
  intros Hk HM e0 He0 Hmax.
  assert (HdM : Zpos (digits2_pos M) = Zpos (digits2_pos m) + k).
  { change (Zpos (digits2_pos M)) with (Zdigits2 (Zpos M)).
    rewrite HM, Zdigits2_shl by lia. reflexivity. }
  unfold binary_round. rewrite HdM. fold e0.
  destruct (shl_align_spec M e e0) as [Hez Hmz]. cbn zeta in Hez, Hmz.
  destruct (shl_align M e e0) as [mz ez]. cbn [fst snd] in Hez, Hmz.
  destruct (Z.le_gt_cases e0 e) as [Hle|Hgt].
  - assert (Hmin : Z.min e e0 = e0) by lia. rewrite Hmin in *. subst ez.
    destruct (binary_round_aux_shift s mz m (k + (e - e0)) e0) as (M0 & HM0 & Hr).
    + lia.
    + rewrite Hmz, HM, <- Z.mul_assoc, <- Z.pow_add_r by lia. reflexivity.
    + replace (Zpos (digits2_pos m) + (k + (e - e0)) + e0)
        with (Zpos (digits2_pos m) + k + e) by lia. fold e0. lia.
    + replace (Zpos (digits2_pos m) + (k + (e - e0)) + e0)
        with (Zpos (digits2_pos m) + k + e) by lia. exact Hmax.
    + replace (Zpos (digits2_pos m) + (k + (e - e0)) + e0)
        with (Zpos (digits2_pos m) + k + e) in HM0, Hr by lia.
      fold e0 in HM0, Hr.
      exists M0. split; [|exact Hr].
      rewrite HM0. f_equal. f_equal. lia.
  - assert (Hmin : Z.min e e0 = e) by lia. rewrite Hmin in *. subst ez.
    assert (Hmz' : mz = M).
    { rewrite Z.sub_diag, Z.pow_0_r, Z.mul_1_r in Hmz. congruence. }
    subst mz.
    apply (binary_round_aux_shift s M m k e Hk HM); fold e0; lia.
Qed.

(** The value [z * 2^(e + k)], written with the mantissa [z * 2^k] at
    exponent [e], normalises to the one canonical form of that value. *)
Lemma binary_normalize_shift (z k e : Z) :
  0 <= k -> z <> 0 ->
  let e0 := fexp_ (Zdigits2 z + k + e) in
  e0 <= e + k -> e0 <= emax - prec ->
  exists M0 : positive,
    Zpos M0 = Z.abs z * 2 ^ (e + k - e0) /\
    binary_normalize prec emax (z * 2 ^ k) e false = S754_finite (z <? 0) M0 e0.
Proof using.
  intros Hk Hz e0 He0 Hmax.
  assert (Hpow : 0 < 2 ^ k) by (apply Z.pow_pos_nonneg; lia).
  destruct z as [|m|m]; [contradiction| |].
  - destruct (Zpos m * 2 ^ k) as [|M|M] eqn:HM; try lia.
    cbn [binary_normalize Z.abs Z.ltb Z.compare].
    apply (binary_round_shift false M m k e Hk (eq_sym HM)); assumption.
  - destruct (Zpos m * 2 ^ k) as [|M|M] eqn:HM; try lia.
    assert (HMneg : Zneg m * 2 ^ k = Zneg M) by lia.
    rewrite HMneg. cbn [binary_normalize Z.abs Z.ltb Z.compare].
    apply (binary_round_shift true M m k e Hk (eq_sym HM)); assumption.
Qed.

(** The double nearest to [z * 2^e]. *)
Lemma binary_normalize_same_value (z k e : Z) :
  0 <= k ->
  fexp_ (Zdigits2 z + k + e) <= e + k -> fexp_ (Zdigits2 z + k + e) <= emax - prec ->
  binary_normalize prec emax (z * 2 ^ k) e false = binary_normalize prec emax z (e + k) false.
Proof using.
  intros Hk He0 Hmax.
  destruct (Z.eq_dec z 0) as [->|Hz]; [reflexivity|].
  destruct (binary_normalize_shift z k e Hk Hz He0 Hmax) as (M0 & HM0 & ->).
  destruct (binary_normalize_shift z 0 (e + k) ltac:(lia) Hz) as (M1 & HM1 & Hr).
  - rewrite Z.add_0_r. replace (Zdigits2 z + (e + k)) with (Zdigits2 z + k + e) by lia. lia.
  - rewrite Z.add_0_r. replace (Zdigits2 z + (e + k)) with (Zdigits2 z + k + e) by lia. lia.
  - rewrite Z.pow_0_r, Z.mul_1_r in Hr. rewrite Hr.
    replace (Zdigits2 z + 0 + (e + k)) with (Zdigits2 z + k + e) in * by lia.
    replace (e + k + 0) with (e + k) in * by lia.
    f_equal. apply Pos2Z.inj. rewrite HM0, HM1. reflexivity.
Qed.
End ExactRounding.

Section ExactArithmetic.
Variables prec emax : Z.
Hypothesis Hprec : 0 < prec.
Hypothesis Hemax : prec < emax.

Abbreviation fexp0 := (SpecFloat.fexp prec emax).
Abbreviation emin0 := (SpecFloat.emin prec emax).
Abbreviation norm := (fun z e : Z => binary_normalize prec emax z e false).

Lemma fexp_small (z e : Z) :
  Z.abs z < 2 ^ prec -> emin0 <= e -> fexp0 (Zdigits2 z + e) <= e.
Proof using Hprec.
  intros Hz He. pose proof (Zdigits2_upper z prec ltac:(lia) Hz).
  unfold SpecFloat.fexp. lia.
Qed.

(** The canonical form of a number [z * 2^e] that the format holds. *)
Lemma normalize_form (z e : Z) :
  z <> 0 -> Z.abs z < 2 ^ prec -> emin0 <= e <= emax - prec ->
  exists (M0 : positive) (e0 : Z),
    e0 = fexp0 (Zdigits2 z + e) /\ e0 <= e /\
    Zpos M0 = Z.abs z * 2 ^ (e - e0) /\
    norm z e = S754_finite (z <? 0) M0 e0.
Proof using Hprec.
  intros Hz Habs He.
  pose proof (fexp_small z e Habs ltac:(lia)) as Hf.
  destruct (binary_normalize_shift prec emax z 0 e ltac:(lia) Hz) as (M0 & HM0 & Hr).
  - rewrite Z.add_0_r. lia.
  - rewrite Z.add_0_r. lia.
  - rewrite Z.pow_0_r, Z.mul_1_r in Hr.
    replace (Zdigits2 z + 0 + e) with (Zdigits2 z + e) in HM0, Hr by lia.
    replace (e + 0) with e in HM0 by lia.
    exists M0, (fexp0 (Zdigits2 z + e)). auto.
Qed.

Lemma aligned_mantissa (z e : Z) (M0 : positive) (e0 ez : Z) :
  z <> 0 -> Zpos M0 = Z.abs z * 2 ^ (e - e0) -> ez <= e0 -> e0 <= e ->
  cond_Zopp (z <? 0) (Zpos (fst (shl_align M0 e0 ez))) = z * 2 ^ (e - ez).
Proof using.
  intros Hz HM Hez He0.
  destruct (shl_align_spec M0 e0 ez) as [Hs Hm]. cbn zeta in Hs, Hm.
  rewrite Hm, Hs, HM. replace (Z.min e0 ez) with ez by lia.
  rewrite <- Z.mul_assoc, <- Z.pow_add_r by lia.
  replace (e - e0 + (e0 - ez)) with (e - ez) by lia.
  unfold cond_Zopp. destruct (Z.ltb_spec z 0); lia.
Qed.

(** Sums, differences and squares of numbers the format holds are
    computed without rounding when the result is a number the format
    holds. *)
Lemma add_exact (a b e : Z) :
  Z.abs a < 2 ^ prec -> Z.abs b < 2 ^ prec -> Z.abs (a + b) < 2 ^ prec ->
  emin0 <= e <= emax - prec ->
  SFadd prec emax (norm a e) (norm b e) = norm (a + b) e.
Proof using Hprec.
  intros Ha Hb Hab He.
  destruct (Z.eq_dec a 0) as [->|Hna].
  { rewrite Z.add_0_l. destruct (Z.eq_dec b 0) as [->|Hnb]; [reflexivity|].
    destruct (normalize_form b e Hnb Hb He) as (Mb & eb & _ & _ & _ & ->). reflexivity. }
  destruct (normalize_form a e Hna Ha He) as (Ma & ea & Hea & Hlea & HMa & Hra).
  destruct (Z.eq_dec b 0) as [->|Hnb].
  { rewrite Z.add_0_r, Hra. reflexivity. }
  destruct (normalize_form b e Hnb Hb He) as (Mb & eb & Heb & Hleb & HMb & Hrb).
  rewrite Hra, Hrb. cbn [SFadd].
  rewrite (aligned_mantissa a e Ma ea (Z.min ea eb) Hna HMa) by lia.
  rewrite (aligned_mantissa b e Mb eb (Z.min ea eb) Hnb HMb) by lia.
  rewrite <- Z.mul_add_distr_r.
  rewrite binary_normalize_same_value.
  - f_equal. lia.
  - lia.
  - replace (Zdigits2 (a + b) + (e - Z.min ea eb) + Z.min ea eb)
      with (Zdigits2 (a + b) + e) by lia.
    pose proof (fexp_small (a + b) e Hab ltac:(lia)). lia.
  - replace (Zdigits2 (a + b) + (e - Z.min ea eb) + Z.min ea eb)
      with (Zdigits2 (a + b) + e) by lia.
    pose proof (fexp_small (a + b) e Hab ltac:(lia)). lia.
Qed.

Lemma sub_exact (a b e : Z) :
  Z.abs a < 2 ^ prec -> Z.abs b < 2 ^ prec -> Z.abs (a - b) < 2 ^ prec ->
  emin0 <= e <= emax - prec ->
  SFsub prec emax (norm a e) (norm b e) = norm (a - b) e.
Proof using Hprec.
  intros Ha Hb Hab He.
  destruct (Z.eq_dec b 0) as [->|Hnb].
  { rewrite Z.sub_0_r. destruct (Z.eq_dec a 0) as [->|Hna]; [reflexivity|].
    destruct (normalize_form a e Hna Ha He) as (Ma & ea & _ & _ & _ & ->). reflexivity. }
  destruct (normalize_form b e Hnb Hb He) as (Mb & eb & Heb & Hleb & HMb & Hrb).
  destruct (Z.eq_dec a 0) as [->|Hna].
  { rewrite Z.sub_0_l. cbn beta. rewrite (binary_normalize_opp prec emax b e Hnb).
    cbn beta in Hrb. rewrite Hrb. reflexivity. }
  destruct (normalize_form a e Hna Ha He) as (Ma & ea & Hea & Hlea & HMa & Hra).
  rewrite Hra, Hrb. cbn [SFsub].
  rewrite (aligned_mantissa a e Ma ea (Z.min ea eb) Hna HMa) by lia.
  rewrite (aligned_mantissa b e Mb eb (Z.min ea eb) Hnb HMb) by lia.
  rewrite <- Z.mul_sub_distr_r.
  rewrite binary_normalize_same_value.
  - f_equal. lia.
  - lia.
  - replace (Zdigits2 (a - b) + (e - Z.min ea eb) + Z.min ea eb)
      with (Zdigits2 (a - b) + e) by lia.
    pose proof (fexp_small (a - b) e Hab ltac:(lia)). lia.
  - replace (Zdigits2 (a - b) + (e - Z.min ea eb) + Z.min ea eb)
      with (Zdigits2 (a - b) + e) by lia.
    pose proof (fexp_small (a - b) e Hab ltac:(lia)). lia.
Qed.

Lemma Zdigits2_square (a : Z) : a <> 0 -> 2 * Zdigits2 a - 1 <= Zdigits2 (a * a).
Proof using.
  intros Ha.
  assert (Hd : Zdigits2 a = Zdigits2 (Z.abs a)) by (destruct a; reflexivity).
  pose proof (Zdigits2_bounds (Z.abs a) ltac:(lia)) as [Hlo _].
  pose proof (Zdigits2_pos (Z.abs a) ltac:(lia)) as Hpos.
  rewrite <- Hd in Hlo, Hpos.
  assert (Hsq : 2 ^ (2 * Zdigits2 a - 2) <= a * a).
  { replace (2 * Zdigits2 a - 2) with ((Zdigits2 a - 1) + (Zdigits2 a - 1)) by lia.
    rewrite Z.pow_add_r by lia.
    assert (0 < 2 ^ (Zdigits2 a - 1)) by (apply Z.pow_pos_nonneg; lia).
    nia. }
  pose proof (Zdigits2_lower (a * a) (2 * Zdigits2 a - 2) ltac:(lia) Hsq). lia.
Qed.

Lemma square_exact (a e : Z) :
  a * a < 2 ^ prec -> emin0 <= e <= emax - prec -> emin0 <= e + e <= emax - prec ->
  SFmul prec emax (norm a e) (norm a e) = norm (a * a) (e + e).
Proof using Hprec Hemax.
  intros Hsq He He2.
  destruct (Z.eq_dec a 0) as [->|Hna]; [reflexivity|].
  assert (Ha : Z.abs a < 2 ^ prec) by nia.
  assert (Hsq' : Z.abs (a * a) < 2 ^ prec) by (rewrite Z.abs_eq; nia).
  assert (Hnsq : a * a <> 0) by nia.
  destruct (normalize_form a e Hna Ha He) as (Ma & ea & Hea & Hlea & HMa & Hra).
  destruct (normalize_form (a * a) (e + e) Hnsq Hsq' He2) as (M2 & e2 & He2' & Hle2 & HM2 & Hr2).
  cbn beta in Hra, Hr2. rewrite Hra, Hr2. cbn [SFmul].
  replace (xorb (a <? 0) (a <? 0)) with false by (destruct (a <? 0); reflexivity).
  replace (a * a <? 0) with false by (symmetry; apply Z.ltb_ge; nia).
  destruct (a * a) as [|m|m] eqn:Hm; try lia.
  pose proof (Zdigits2_square a Hna) as Hd. rewrite Hm in Hd. cbn [Zdigits2] in Hd, He2'.
  assert (Hemin : emin0 <= 0) by (unfold SpecFloat.emin; lia).
  destruct (binary_round_aux_shift prec emax false (Ma * Ma) m (2 * (e - ea)) (ea + ea))
    as (M0 & HM0 & Hr).
  - lia.
  - rewrite Pos2Z.inj_mul, HMa, <- Hm.
    replace (2 * (e - ea)) with ((e - ea) + (e - ea)) by lia.
    rewrite Z.pow_add_r by lia. nia.
  - replace (Zpos (digits2_pos m) + 2 * (e - ea) + (ea + ea))
      with (Zpos (digits2_pos m) + (e + e)) by lia.
    rewrite <- He2'. subst ea. unfold SpecFloat.fexp in *. lia.
  - replace (Zpos (digits2_pos m) + 2 * (e - ea) + (ea + ea))
      with (Zpos (digits2_pos m) + (e + e)) by lia.
    rewrite <- He2'. lia.
  - replace (Zpos (digits2_pos m) + 2 * (e - ea) + (ea + ea))
      with (Zpos (digits2_pos m) + (e + e)) in HM0, Hr by lia.
    rewrite <- He2' in HM0, Hr. rewrite Hr. f_equal.
    apply Pos2Z.inj. rewrite HM0, HM2. cbn [Z.abs]. f_equal. f_equal. lia.
Qed.
End ExactArithmetic.

(** ** Sums over samples on a binary grid *)

Lemma sum_squares_from_le (xs : list Z) : forall t : Z, t <= sum_squares_from t xs.
Proof.
  unfold sum_squares_from. induction xs as [|a xs IH]; intros t; cbn [fold_left]; [lia|].
  etransitivity; [|apply IH]. pose proof (Z.square_nonneg a). lia.
Qed.

Lemma sum_square_diffs_from_le (xs : list Z) :
  forall (ys : list Z) (t : Z), t <= sum_square_diffs_from t xs ys.
Proof.
  unfold sum_square_diffs_from.
  induction xs as [|a xs IH]; intros [|b ys] t; cbn [zip zip_with fold_left]; try lia.
  etransitivity; [|apply IH]. cbn [fst snd].
  pose proof (Z.square_nonneg (a - b)). lia.
Qed.

Lemma sum_squares_from_shift (xs : list Z) :
  forall t : Z, sum_squares_from t xs = t + sum_squares xs.
Proof.
  unfold sum_squares, sum_squares_from.
  induction xs as [|a xs IH]; intros t; cbn [fold_left]; [lia|].
  rewrite (IH (t + a * a)), (IH (0 + a * a)). lia.
Qed.

Lemma sum_square_diffs_from_shift (xs : list Z) :
  forall (ys : list Z) (t : Z),
    sum_square_diffs_from t xs ys = t + sum_square_diffs xs ys.
Proof.
  unfold sum_square_diffs, sum_square_diffs_from.
  induction xs as [|a xs IH]; intros [|b ys] t; cbn [zip zip_with fold_left]; try lia.
  rewrite (IH ys (t + _)), (IH ys (0 + _)). lia.
Qed.

Lemma small_square (a : Z) : a * a < 2 ^ 53 -> Z.abs a < 2 ^ 27.
Proof.
  intros H. change (2 ^ 53) with 9007199254740992 in H.
  change (2 ^ 27) with 134217728. nia.
Qed.

Section Exact64.
Variable e : Z.
Hypothesis He : -537 <= e <= 0.

Lemma exponent64 :
  SpecFloat.emin IEEE.prec64 IEEE.emax64 <= e <= IEEE.emax64 - IEEE.prec64 /\
  SpecFloat.emin IEEE.prec64 IEEE.emax64 <= e + e <= IEEE.emax64 - IEEE.prec64.
Proof using He.
  unfold SpecFloat.emin, IEEE.prec64, IEEE.emax64. lia.
Qed.

Lemma square64 (a : Z) :
  a * a < 2 ^ 53 ->
  IEEE.mul64 (dyadic64 a e) (dyadic64 a e) = dyadic64 (a * a) (e + e).
Proof using He.
  intros Ha. destruct exponent64 as [H1 H2].
  apply (square_exact IEEE.prec64 IEEE.emax64 prec64_pos prec64_emax a e); assumption.
Qed.

Lemma add64_grid (a b : Z) :
  0 <= a -> 0 <= b -> a + b < 2 ^ 53 ->
  IEEE.add64 (dyadic64 a (e + e)) (dyadic64 b (e + e)) = dyadic64 (a + b) (e + e).
Proof using He.
  intros Ha Hb Hab. destruct exponent64 as [H1 H2].
  apply (add_exact IEEE.prec64 IEEE.emax64 prec64_pos a b (e + e));
    try assumption; unfold IEEE.prec64; lia.
Qed.

Lemma sub64_grid (a b : Z) :
  Z.abs a < 2 ^ 53 -> Z.abs b < 2 ^ 53 -> Z.abs (a - b) < 2 ^ 53 ->
  IEEE.sub64 (dyadic64 a e) (dyadic64 b e) = dyadic64 (a - b) e.
Proof using He.
  intros Ha Hb Hab. destruct exponent64 as [H1 H2].
  apply (sub_exact IEEE.prec64 IEEE.emax64 prec64_pos a b e); assumption.
Qed.

Lemma energy_fold_exact (xs : list Z) :
  forall t : Z,
    0 <= t -> sum_squares_from t xs < 2 ^ 53 ->
    fold_left (energy_step c_double) (map (fun a => dyadic64 a e) xs) (dyadic64 t (e + e))
    = dyadic64 (sum_squares_from t xs) (e + e).
Proof using He.
  induction xs as [|a xs IH]; intros t Ht Hsum; [reflexivity|].
  cbn [map fold_left]. unfold sum_squares_from in *. cbn [fold_left] in *.
  pose proof (sum_squares_from_le xs (t + a * a)) as Hle. unfold sum_squares_from in Hle.
  unfold energy_step at 2. cbn [c_double ty_to_double ty_mul].
  rewrite square64 by nia. rewrite add64_grid by nia.
  apply IH; nia.
Qed.

Lemma distortion_fold_exact (xs : list Z) :
  forall (ys : list Z) (t : Z),
    Forall (fun a => Z.abs a < 2 ^ 27) xs ->
    0 <= t -> sum_square_diffs_from t xs ys < 2 ^ 53 ->
    fold_left (distortion_step c_double)
      (zip (map (fun a => dyadic64 a e) xs) (map (fun b => dyadic64 b e) ys))
      (dyadic64 t (e + e))
    = dyadic64 (sum_square_diffs_from t xs ys) (e + e).
Proof using He.
  induction xs as [|a xs IH]; intros [|b ys] t Hxs Ht Hsum; try reflexivity.
  apply Forall_cons in Hxs as [Ha Hxs].
  cbn [map zip zip_with fold_left]. unfold sum_square_diffs_from in *.
  cbn [zip zip_with fold_left fst snd] in *.
  pose proof (sum_square_diffs_from_le xs ys (t + (a - b) * (a - b))) as Hle.
  unfold sum_square_diffs_from in Hle.
  unfold distortion_step at 2. cbn [c_double ty_to_double ty_mul ty_sub fst snd].
  assert (Hd : Z.abs (a - b) < 2 ^ 27) by (apply small_square; nia).
  change (2 ^ 27) with 134217728 in *. change (2 ^ 53) with 9007199254740992 in *.
  rewrite sub64_grid by (change (2 ^ 53) with 9007199254740992; lia).
  rewrite square64 by (change (2 ^ 53) with 9007199254740992; nia).
  rewrite add64_grid by (change (2 ^ 53) with 9007199254740992; nia).
  apply IH; try assumption; nia.
Qed.
End Exact64.

Lemma small_squares (xs : list Z) :
  forall t : Z, 0 <= t -> sum_squares_from t xs < 2 ^ 53 ->
  Forall (fun a => Z.abs a < 2 ^ 27) xs.
Proof.
  induction xs as [|a xs IH]; intros t Ht Hsum; constructor.
  - apply small_square. unfold sum_squares_from in Hsum. cbn [fold_left] in Hsum.
    pose proof (sum_squares_from_le xs (t + a * a)) as Hle.
    unfold sum_squares_from in Hle. lia.
  - apply (IH (t + a * a)); [pose proof (Z.square_nonneg a); lia | exact Hsum].
Qed.

(** X16: on samples that lie on a binary grid the 64-bit kernel is exact.
    When the samples of a channel are [x * 2^e] and [y * 2^e] for integers
    [x] and [y] (16-bit PCM converted to double has [e = -15]) and the
    totals of the channel are [Tu * 2^(2e)] and [Tuv * 2^(2e)], a job of
    [sdr_dblp] leaves the totals [(Tu + sum x^2) * 2^(2e)] and
    [(Tuv + sum (x-y)^2) * 2^(2e)], the sums taken over the integers, as
    long as both integers stay below [2^53]: no addition and no product of
    the kernel rounds. *)
Theorem dblp_exact_on_grid (s : AudioSDRContext) (u v : AVFrame)
    (jobnr nb_jobs ch e : Z) (xs ys : list Z) (Tu Tuv : Z) :
  cache s = (Some u, Some v) ->
  0 <= nb_channels u -> 0 < nb_jobs -> 0 <= jobnr ->
  job_start (nb_channels u) jobnr nb_jobs <= ch < job_end (nb_channels u) jobnr nb_jobs ->
  ch < Z.of_nat (length (sum_u s)) -> ch < Z.of_nat (length (sum_uv s)) ->
  -537 <= e <= 0 ->
  plane u ch = map (fun x => dyadic64 x e) xs ->
  plane v ch = map (fun y => dyadic64 y e) ys ->
  Z.of_nat (length xs) = nb_samples u -> Z.of_nat (length ys) = nb_samples u ->
  arr_get (sum_u s) ch = dyadic64 Tu (e + e) -> 0 <= Tu ->
  arr_get (sum_uv s) ch = dyadic64 Tuv (e + e) -> 0 <= Tuv ->
  Tu + sum_squares xs < 2 ^ 53 -> Tuv + sum_square_diffs xs ys < 2 ^ 53 ->
  let s' := fst (sdr_dblp s jobnr nb_jobs) in
  arr_get (sum_u s') ch = dyadic64 (Tu + sum_squares xs) (e + e) /\
  arr_get (sum_uv s') ch = dyadic64 (Tuv + sum_square_diffs xs ys) (e + e).
Proof.
  intros Hc HC HN Hj Hch Hlu Hluv He Hpu Hpv Hnx Hny Hsu HTu Hsuv HTuv Hbu Hbuv.
  cbn zeta. unfold sdr_dblp.
  assert (Hch0 : 0 <= ch).
  { pose proof (job_start_nonneg (nb_channels u) nb_jobs HC HN jobnr Hj). lia. }
  destruct (SDR_FILTER_channel c_double s u v jobnr nb_jobs ch Hc HC HN Hj Hch0) as [Hin _].
  destruct (Hin Hch) as [Hu Huv]. rewrite (Hu Hlu), (Huv Hluv). clear Hin Hu Huv.
  rewrite local_sums_blocks by (rewrite ?Hpu, ?Hpv, length_map; assumption).
  cbn [fst snd]. rewrite Hsu, Hsuv, Hpu, Hpv.
  unfold block_energy, block_distortion.
  change IEEE.zero with (dyadic64 0 (e + e)).
  assert (H0 : sum_squares_from 0 xs < 2 ^ 53).
  { fold (sum_squares xs). pose proof (Z.le_refl 0). lia. }
  assert (H1 : sum_square_diffs_from 0 xs ys < 2 ^ 53).
  { fold (sum_square_diffs xs ys). lia. }
  rewrite (energy_fold_exact e He xs 0) by (lia || exact H0).
  rewrite (distortion_fold_exact e He xs ys 0)
    by (lia || exact H1 || exact (small_squares xs 0 ltac:(lia) H0)).
  fold (sum_squares xs). fold (sum_square_diffs xs ys).
  pose proof (sum_squares_from_le xs 0) as Hp. fold (sum_squares xs) in Hp.
  pose proof (sum_square_diffs_from_le xs ys 0) as Hq. fold (sum_square_diffs xs ys) in Hq.
  rewrite !(add64_grid e He) by lia. split; reflexivity.
Qed.

Lemma dblp_exact_on_grid_witness :
  -537 <= -15 <= 0 /\
  arr_get (sum_u (fst (sdr_dblp Cases.pcm_priv 0 1))) 0 = dyadic64 1342177281 (-30) /\
  arr_get (sum_uv (fst (sdr_dblp Cases.pcm_priv 0 1))) 0 = dyadic64 147457 (-30).
Proof.
  assert (He : -537 <= -15 <= 0) by lia.
  split; [exact He|].
  exact (dblp_exact_on_grid Cases.pcm_priv
           (mkAVFrame 1 3 [map (fun x => dyadic64 x (-15)) Cases.pcm_ref] 0)
           (mkAVFrame 1 3 [map (fun y => dyadic64 y (-15)) Cases.pcm_test] 0)
           0 1 0 (-15) Cases.pcm_ref Cases.pcm_test 0 0 eq_refl
           ltac:(vm_compute; discriminate) ltac:(reflexivity) ltac:(vm_compute; discriminate)
           ltac:(vm_compute; split; [discriminate | reflexivity])
           ltac:(reflexivity) ltac:(reflexivity) He
           eq_refl eq_refl eq_refl eq_refl eq_refl ltac:(vm_compute; discriminate)
           eq_refl ltac:(vm_compute; discriminate)
           ltac:(reflexivity) ltac:(reflexivity)).
Defined.

Section Exact32.
Variable e : Z.
Hypothesis He : -74 <= e <= 0.

Lemma exponent32 :
  SpecFloat.emin IEEE.prec32 IEEE.emax32 <= e <= IEEE.emax32 - IEEE.prec32 /\
  SpecFloat.emin IEEE.prec32 IEEE.emax32 <= e + e <= IEEE.emax32 - IEEE.prec32.
Proof using He.
  unfold SpecFloat.emin, IEEE.prec32, IEEE.emax32. lia.
Qed.

Lemma square32 (a : Z) :
  a * a < 2 ^ 24 ->
  IEEE.mul32 (dyadic32 a e) (dyadic32 a e) = dyadic32 (a * a) (e + e).
Proof using He.
  intros Ha. destruct exponent32 as [H1 H2].
  apply (square_exact IEEE.prec32 IEEE.emax32 prec32_pos prec32_emax a e); assumption.
Qed.

Lemma sub32_grid (a b : Z) :
  Z.abs a < 2 ^ 24 -> Z.abs b < 2 ^ 24 -> Z.abs (a - b) < 2 ^ 24 ->
  IEEE.sub32 (dyadic32 a e) (dyadic32 b e) = dyadic32 (a - b) e.
Proof using He.
  intros Ha Hb Hab. destruct exponent32 as [H1 H2].
  apply (sub_exact IEEE.prec32 IEEE.emax32 prec32_pos a b e); assumption.
Qed.
End Exact32.

(** A float on the grid converts to the double of the same value. *)
Lemma float_to_double_grid (z e : Z) :
  Z.abs z < 2 ^ 24 -> -149 <= e <= 0 ->
  IEEE.float_to_double (dyadic32 z e) = dyadic64 z e.
Proof.
  intros Hz He.
  destruct (Z.eq_dec z 0) as [->|Hnz]; [reflexivity|].
  destruct (normalize_form IEEE.prec32 IEEE.emax32 prec32_pos z e Hnz Hz)
    as (M0 & e0 & He0 & Hle & HM0 & Hr).
  { unfold SpecFloat.emin, IEEE.prec32, IEEE.emax32. lia. }
  unfold dyadic32. cbn beta in Hr. rewrite Hr. cbn [IEEE.float_to_double].
  assert (Hm : cond_Zopp (z <? 0) (Zpos M0) = z * 2 ^ (e - e0)).
  { rewrite HM0. unfold cond_Zopp. destruct (Z.ltb_spec z 0); lia. }
  rewrite Hm. unfold dyadic64.
  assert (Hemin : SpecFloat.emin IEEE.prec32 IEEE.emax32 <= e0).
  { rewrite He0. unfold SpecFloat.fexp. lia. }
  assert (Hf64 : SpecFloat.fexp IEEE.prec64 IEEE.emax64 (Zdigits2 z + e) <= e).
  { apply (fexp_small IEEE.prec64 IEEE.emax64 prec64_pos).
    - unfold IEEE.prec64. change (2 ^ 24) with 16777216 in Hz.
      change (2 ^ 53) with 9007199254740992. lia.
    - unfold SpecFloat.emin, IEEE.prec64, IEEE.emax64. lia. }
  rewrite binary_normalize_same_value.
  - f_equal. lia.
  - lia.
  - replace (Zdigits2 z + (e - e0) + e0) with (Zdigits2 z + e) by lia. lia.
  - replace (Zdigits2 z + (e - e0) + e0) with (Zdigits2 z + e) by lia.
    unfold IEEE.prec64, IEEE.emax64 in *. lia.
Qed.

Section ExactFloat.
Variable e : Z.
Hypothesis He : -74 <= e <= 0.

Lemma energy_fold_exact32 (xs : list Z) :
  forall t : Z,
    Forall (fun a => Z.abs a < 2 ^ 11) xs ->
    0 <= t -> sum_squares_from t xs < 2 ^ 53 ->
    fold_left (energy_step c_float) (map (fun a => dyadic32 a e) xs) (dyadic64 t (e + e))
    = dyadic64 (sum_squares_from t xs) (e + e).
Proof using He.
  induction xs as [|a xs IH]; intros t Hxs Ht Hsum; [reflexivity|].
  apply Forall_cons in Hxs as [Ha Hxs].
  cbn [map fold_left]. unfold sum_squares_from in *. cbn [fold_left] in *.
  pose proof (sum_squares_from_le xs (t + a * a)) as Hle. unfold sum_squares_from in Hle.
  unfold energy_step at 2. cbn [c_float ty_to_double ty_mul].
  change (2 ^ 11) with 2048 in Ha.
  assert (Hsq : a * a < 2 ^ 24) by (change (2 ^ 24) with 16777216; nia).
  rewrite (square32 e He a Hsq).
  rewrite float_to_double_grid by (rewrite ?Z.abs_eq; nia).
  rewrite (add64_grid e ltac:(lia)) by nia.
  apply IH; try assumption; nia.
Qed.

Lemma distortion_fold_exact32 (xs : list Z) :
  forall (ys : list Z) (t : Z),
    Forall (fun a => Z.abs a < 2 ^ 11) xs -> Forall (fun b => Z.abs b < 2 ^ 11) ys ->
    0 <= t -> sum_square_diffs_from t xs ys < 2 ^ 53 ->
    fold_left (distortion_step c_float)
      (zip (map (fun a => dyadic32 a e) xs) (map (fun b => dyadic32 b e) ys))
      (dyadic64 t (e + e))
    = dyadic64 (sum_square_diffs_from t xs ys) (e + e).
Proof using He.
  induction xs as [|a xs IH]; intros [|b ys] t Hxs Hys Ht Hsum; try reflexivity.
  apply Forall_cons in Hxs as [Ha Hxs]. apply Forall_cons in Hys as [Hb Hys].
  cbn [map zip zip_with fold_left]. unfold sum_square_diffs_from in *.
  cbn [zip zip_with fold_left fst snd] in *.
  pose proof (sum_square_diffs_from_le xs ys (t + (a - b) * (a - b))) as Hle.
  unfold sum_square_diffs_from in Hle.
  unfold distortion_step at 2. cbn [c_float ty_to_double ty_mul ty_sub fst snd].
  change (2 ^ 11) with 2048 in Ha, Hb.
  assert (Hd : Z.abs (a - b) < 4096) by lia.
  assert (Hsq : (a - b) * (a - b) < 2 ^ 24) by (change (2 ^ 24) with 16777216; nia).
  rewrite (sub32_grid e He a b) by (change (2 ^ 24) with 16777216; lia).
  rewrite (square32 e He (a - b) Hsq).
  rewrite float_to_double_grid by (rewrite ?Z.abs_eq; nia).
  rewrite (add64_grid e ltac:(lia)) by nia.
  apply IH; try assumption; nia.
Qed.
End ExactFloat.

(** X17: the 32-bit kernel is exact on samples of 12 bits: when the
    samples of a channel are floats [x * 2^e] and [y * 2^e] for integers
    below [2^11] in magnitude, every difference and every product is
    computed in single precision without rounding, and a job of
    [sdr_fltp] leaves the totals [(Tu + sum x^2) * 2^(2e)] and
    [(Tuv + sum (x-y)^2) * 2^(2e)] as long as both integers stay below
    [2^53]. *)
Theorem fltp_exact_on_grid (s : AudioSDRContext) (u v : AVFrame)
    (jobnr nb_jobs ch e : Z) (xs ys : list Z) (Tu Tuv : Z) :
  cache s = (Some u, Some v) ->
  0 <= nb_channels u -> 0 < nb_jobs -> 0 <= jobnr ->
  job_start (nb_channels u) jobnr nb_jobs <= ch < job_end (nb_channels u) jobnr nb_jobs ->
  ch < Z.of_nat (length (sum_u s)) -> ch < Z.of_nat (length (sum_uv s)) ->
  -74 <= e <= 0 ->
  plane u ch = map (fun x => dyadic32 x e) xs ->
  plane v ch = map (fun y => dyadic32 y e) ys ->
  Forall (fun x => Z.abs x < 2 ^ 11) xs -> Forall (fun y => Z.abs y < 2 ^ 11) ys ->
  Z.of_nat (length xs) = nb_samples u -> Z.of_nat (length ys) = nb_samples u ->
  arr_get (sum_u s) ch = dyadic64 Tu (e + e) -> 0 <= Tu ->
  arr_get (sum_uv s) ch = dyadic64 Tuv (e + e) -> 0 <= Tuv ->
  Tu + sum_squares xs < 2 ^ 53 -> Tuv + sum_square_diffs xs ys < 2 ^ 53 ->
  let s' := fst (sdr_fltp s jobnr nb_jobs) in
  arr_get (sum_u s') ch = dyadic64 (Tu + sum_squares xs) (e + e) /\
  arr_get (sum_uv s') ch = dyadic64 (Tuv + sum_square_diffs xs ys) (e + e).
Proof.
  intros Hc HC HN Hj Hch Hlu Hluv He Hpu Hpv Hxs Hys Hnx Hny Hsu HTu Hsuv HTuv Hbu Hbuv.
  cbn zeta. unfold sdr_fltp.
  assert (Hch0 : 0 <= ch).
  { pose proof (job_start_nonneg (nb_channels u) nb_jobs HC HN jobnr Hj). lia. }
  destruct (SDR_FILTER_channel c_float s u v jobnr nb_jobs ch Hc HC HN Hj Hch0) as [Hin _].
  destruct (Hin Hch) as [Hu Huv]. rewrite (Hu Hlu), (Huv Hluv). clear Hin Hu Huv.
  rewrite local_sums_blocks by (rewrite ?Hpu, ?Hpv, length_map; assumption).
  cbn [fst snd]. rewrite Hsu, Hsuv, Hpu, Hpv.
  unfold block_energy, block_distortion.
  change IEEE.zero with (dyadic64 0 (e + e)).
  pose proof (sum_squares_from_le xs 0) as Hp. fold (sum_squares xs) in Hp.
  pose proof (sum_square_diffs_from_le xs ys 0) as Hq. fold (sum_square_diffs xs ys) in Hq.
  assert (H0 : sum_squares_from 0 xs < 2 ^ 53) by (fold (sum_squares xs); lia).
  assert (H1 : sum_square_diffs_from 0 xs ys < 2 ^ 53)
    by (fold (sum_square_diffs xs ys); lia).
  rewrite (energy_fold_exact32 e He xs 0 Hxs) by (lia || exact H0).
  rewrite (distortion_fold_exact32 e He xs ys 0 Hxs Hys) by (lia || exact H1).
  fold (sum_squares xs). fold (sum_square_diffs xs ys).
  rewrite !(add64_grid e ltac:(lia)) by lia. split; reflexivity.
Qed.

Lemma fltp_exact_on_grid_witness :
  -74 <= -11 <= 0 /\
  Forall (fun x => Z.abs x < 2 ^ 11) Cases.small_ref /\
  arr_get (sum_u (fst (sdr_fltp Cases.small_priv 0 1))) 0 = dyadic64 5238794 (-22) /\
  arr_get (sum_uv (fst (sdr_fltp Cases.small_priv 0 1))) 0 = dyadic64 640 (-22).
Proof.
  assert (He : -74 <= -11 <= 0) by lia.
  assert (Hxs : Forall (fun x => Z.abs x < 2 ^ 11) Cases.small_ref) by (repeat constructor).
  assert (Hys : Forall (fun y => Z.abs y < 2 ^ 11) Cases.small_test) by (repeat constructor).
  split; [exact He|]. split; [exact Hxs|].
  exact (fltp_exact_on_grid Cases.small_priv
           (mkAVFrame 1 3 [map (fun x => dyadic32 x (-11)) Cases.small_ref] 0)
           (mkAVFrame 1 3 [map (fun y => dyadic32 y (-11)) Cases.small_test] 0)
           0 1 0 (-11) Cases.small_ref Cases.small_test 0 0 eq_refl
           ltac:(vm_compute; discriminate) ltac:(reflexivity) ltac:(vm_compute; discriminate)
           ltac:(vm_compute; split; [discriminate | reflexivity])
           ltac:(reflexivity) ltac:(reflexivity) He
           eq_refl eq_refl Hxs Hys eq_refl eq_refl eq_refl ltac:(vm_compute; discriminate)
           eq_refl ltac:(vm_compute; discriminate)
           ltac:(reflexivity) ltac:(reflexivity)).
Defined.

(** ** The reported value on a binary grid *)

(** A quotient does not see a factor [2^k] common to both operands. *)
Lemma div_shift (prec emax : Z) (s1 s2 : bool) (m1 m2 : positive) (e1 e2 k : Z) :
  SFdiv prec emax (S754_finite s1 m1 (e1 + k)) (S754_finite s2 m2 (e2 + k))
  = SFdiv prec emax (S754_finite s1 m1 e1) (S754_finite s2 m2 e2).
Proof.
  cbn [SFdiv]. unfold SFdiv_core_binary.
  replace (e1 + k - (e2 + k)) with (e1 - e2) by lia.
  replace (Zdigits2 (Z.pos m1) + (e1 + k) - (Zdigits2 (Z.pos m2) + (e2 + k)))
    with (Zdigits2 (Z.pos m1) + e1 - (Zdigits2 (Z.pos m2) + e2)) by lia.
  reflexivity.
Qed.

(** In the range of the normal numbers, [t * 2^k] has the mantissa of [t]
    and its exponent raised by [k]. *)
Lemma dyadic64_shift (t k : Z) :
  0 < t < 2 ^ 53 -> -1022 <= k <= 0 ->
  exists (M : positive) (e0 : Z),
    IEEE.of_Z64 t = S754_finite false M e0 /\ dyadic64 t k = S754_finite false M (e0 + k).
Proof.
  intros Ht Hk.
  assert (Habs : Z.abs t < 2 ^ IEEE.prec64) by (unfold IEEE.prec64; lia).
  pose proof (Zdigits2_pos t ltac:(lia)) as Hd.
  pose proof (Zdigits2_upper t 53 ltac:(lia) ltac:(lia)) as Hd'.
  destruct (normalize_form IEEE.prec64 IEEE.emax64 prec64_pos t 0 ltac:(lia) Habs)
    as (M0 & e0 & He0 & _ & HM0 & Hr0).
  { unfold SpecFloat.emin, IEEE.prec64, IEEE.emax64. lia. }
  destruct (normalize_form IEEE.prec64 IEEE.emax64 prec64_pos t k ltac:(lia) Habs)
    as (M1 & e1 & He1 & _ & HM1 & Hr1).
  { unfold SpecFloat.emin, IEEE.prec64, IEEE.emax64. lia. }
  unfold SpecFloat.fexp, SpecFloat.emin, IEEE.prec64, IEEE.emax64 in He0, He1.
  assert (H0 : e0 = Zdigits2 t - 53) by lia.
  assert (H1 : e1 = e0 + k) by lia.
  assert (HM : M1 = M0).
  { apply Pos2Z.inj. rewrite HM0, HM1. f_equal. f_equal. lia. }
  exists M0, e0. unfold IEEE.of_Z64, dyadic64. cbn beta in Hr0, Hr1.
  rewrite Hr0, Hr1, HM, H1.
  replace (t <? 0) with false by (symmetry; apply Z.ltb_ge; lia).
  split; reflexivity.
Qed.

Section GridReport.
Variable log10 : spec_float -> spec_float.

(** X18: the value reported for a channel whose totals lie on a binary
    grid, [Tu * 2^(2e)] and [Tuv * 2^(2e)] with integers [Tu] and [Tuv]
    between 1 and [2^53 - 1], is [20 * log10] of the quotient of the two
    integers as doubles: the scale [2^e] of the samples, the gain common
    to both signals, has no effect on it. *)
Theorem report_on_grid (s : AudioSDRContext) (ch e Tu Tuv : Z) :
  -511 <= e <= 0 -> 0 < Tu < 2 ^ 53 -> 0 < Tuv < 2 ^ 53 ->
  arr_get (sum_u s) ch = dyadic64 Tu (e + e) ->
  arr_get (sum_uv s) ch = dyadic64 Tuv (e + e) ->
  sdr_db log10 s ch
  = IEEE.mul64 (IEEE.of_Z64 20) (log10 (IEEE.div64 (IEEE.of_Z64 Tu) (IEEE.of_Z64 Tuv))).
Proof.
  intros He HTu HTuv Hu Huv. unfold sdr_db. rewrite Hu, Huv.
  destruct (dyadic64_shift Tu (e + e) HTu ltac:(lia)) as (Mu & eu & -> & ->).
  destruct (dyadic64_shift Tuv (e + e) HTuv ltac:(lia)) as (Muv & euv & -> & ->).
  unfold IEEE.div64. rewrite div_shift. reflexivity.
Qed.
End GridReport.

Lemma report_on_grid_witness :
  -511 <= -15 <= 0 /\
  sdr_db Sample.log10_special
    (mkAudioSDRContext 1 [dyadic64 1342177281 (-30)] [dyadic64 147457 (-30)] (None, None)
       (Some fn_sdr_dblp)) 0
  = IEEE.mul64 (IEEE.of_Z64 20)
      (Sample.log10_special (IEEE.div64 (IEEE.of_Z64 1342177281) (IEEE.of_Z64 147457))).
Proof.
  assert (He : -511 <= -15 <= 0) by lia.
  split; [exact He|].
  exact (report_on_grid Sample.log10_special
           (mkAudioSDRContext 1 [dyadic64 1342177281 (-30)] [dyadic64 147457 (-30)]
              (None, None) (Some fn_sdr_dblp))
           0 (-15) 1342177281 147457 He
           ltac:(split; vm_compute; reflexivity) ltac:(split; vm_compute; reflexivity)
           eq_refl eq_refl).
Defined.
